(** * Cluster-level analysis of statistical maps

    A shallow embedding of [pypreprocess/cluster_level_analysis.py]:
    [fdr_threshold], [fdr_pvalues], [empirical_pvalue] and [cluster_stats].

    Numbers.  Python floats are modelled as rationals [Q] with exact
    arithmetic; [==] on [Q] plays the role of float equality.  The only
    non-finite floats the module produces itself ([np.infty] returned by
    [fdr_threshold], and what [norm.isf] may return) live in [ext].

    Arrays.  An N-dimensional numpy array is its C-order flattening, a
    [list]; elementwise operations, boolean-mask indexing and [np.where]
    all follow that order.

    Library code.  scipy's [norm.sf], [norm.isf], [label],
    [maximum_filter], nilearn's [coord_transform] and numpy's [argsort] are
    not part of the repository: they are parameters of the model, and the
    properties of them a theorem relies on are stated as hypotheses.
    Executable instances are given in [Module Instance]. *)

From Stdlib Require Import QArith Qminmax Lqa Lia List Sorted Permutation Bool.
From stdpp Require Import base option list gmap strings.

Local Open Scope nat_scope.

(** ** Exceptions and results *)

Inductive exn : Type :=
| ValueError
| ZeroDivisionError
| TypeError
| IndexError
| KeyError.

Inductive result (A : Type) : Type :=
| Ok (a : A)
| Raise (e : exn).
Arguments Ok {A} a.
Arguments Raise {A} e.

(** ** Extended numbers: a finite float, [+inf], [-inf] or [nan] *)

Inductive ext : Type :=
| Fin (q : Q)
| PInf
| NInf
| NaN.

(** [x < y] on floats, as a boolean. *)
Definition Qltb (x y : Q) : bool := negb (Qle_bool y x).

(** [q > t] for a finite [q] and an extended [t]; every comparison with
    [nan] is false. *)
Definition gt_ext (q : Q) (t : ext) : bool :=
  match t with
  | Fin t' => Qltb t' q
  | PInf => false
  | NInf => true
  | NaN => false
  end.

(** [np.maximum(t, q)]: [nan] propagates. *)
Definition max_ext (t : ext) (q : Q) : ext :=
  match t with
  | Fin t' => Fin (Qmax t' q)
  | PInf => PInf
  | NInf => Fin q
  | NaN => NaN
  end.

(** [t < v], as a proposition. *)
Definition ext_lt (t : ext) (v : Q) : Prop :=
  match t with
  | Fin t' => (t' < v)%Q
  | NInf => True
  | PInf | NaN => False
  end.

(** [a <= b] and [a == b] on extended numbers, as propositions; [nan]
    compares with nothing. *)
Definition ext_le (a b : ext) : Prop :=
  match a, b with
  | NaN, _ | _, NaN => False
  | NInf, _ | _, PInf => True
  | Fin x, Fin y => (x <= y)%Q
  | _, _ => False
  end.

Definition ext_eq (a b : ext) : Prop :=
  match a, b with
  | Fin x, Fin y => (x == y)%Q
  | PInf, PInf | NInf, NInf => True
  | _, _ => False
  end.

(** [q == t]. *)
Definition eq_ext (q : Q) (t : ext) : bool :=
  match t with
  | Fin t' => Qeq_bool q t'
  | _ => false
  end.

Definition Qnat (n : nat) : Q := inject_Z (Z.of_nat n).

(** ** numpy primitives on flattened arrays *)

(** [a[idx]] for an integer index array; the index arrays of the module
    come from [argsort] and stay in range. *)
Definition take_idx (a : list Q) (idx : list nat) : list Q :=
  map (fun i => nth i a 0%Q) idx.

(** [a[m]] for a boolean mask [m] of the length of [a]. *)
Fixpoint select {A : Type} (a : list A) (m : list bool) : list A :=
  match a, m with
  | x :: a', b :: m' => if b then x :: select a' m' else select a' m'
  | _, _ => []
  end.

(** [a[m]] where the two lengths are not tied by construction: numpy
    raises [IndexError] when the boolean index does not match. *)
Definition bool_index {A : Type} (a : list A) (m : list bool) : result (list A) :=
  if length a =? length m then Ok (select a m) else Raise IndexError.

(** [np.where(m)] on the flattening: the positions of the true entries. *)
Definition where_ (m : list bool) : list nat :=
  select (seq 0 (length m)) m.

(** The values of a masked array put back on the grid, in the order of
    the voxels of the mask, with zero outside the mask. *)
Fixpoint unmask (vals : list Q) (mask : list bool) : list Q :=
  match mask with
  | [] => []
  | true :: mask' =>
      match vals with
      | v :: vals' => v :: unmask vals' mask'
      | [] => 0%Q :: unmask [] mask'
      end
  | false :: mask' => 0%Q :: unmask vals mask'
  end.

(** [np.linspace(start, stop, n)]: [start + i * step] with
    [step = (stop - start) / (n - 1)]; for [n = 1] the only sample is
    [start] (division by zero is [0] in [Q], and it is multiplied by
    [i = 0]). *)
Definition linspace (start stop : Q) (n : nat) : list Q :=
  map (fun i => (start + Qnat i * ((stop - start) / (Qnat n - 1)))%Q) (seq 0 n).

(** [np.searchsorted(a, v)] (side left) on an ascending [a]: the insertion
    point, the first position whose entry is not below [v]. *)
Fixpoint searchsorted (a : list Q) (v : Q) : nat :=
  match a with
  | [] => 0
  | x :: a' => if Qltb x v then S (searchsorted a' v) else 0
  end.

(** The number of entries of [ref] strictly below [v]. *)
Definition count_below (v : Q) (ref : list Q) : nat :=
  length (List.filter (fun r => Qltb r v) ref).

(** What [np.argsort] promises of its result: the keys increase along it,
    and, for a stable sort, equal keys keep their index order. *)
Definition key_le (a : list Q) (i j : nat) : Prop :=
  (nth i a 0 <= nth j a 0)%Q.

Definition stable_le (a : list Q) (i j : nat) : Prop :=
  key_le a i j /\ (key_le a j i -> i < j).

(** The constant [1.e-8]. *)
Definition eps : Q := 1 # 100000000.

(** [for i in range(n - 1, 0, -1): fdr[i - 1] = min(fdr[i - 1], fdr[i])],
    the loop counter running over [js]. *)
Fixpoint sweep_loop (js : list nat) (fdr : list Q) : list Q :=
  match js with
  | [] => fdr
  | i :: js' =>
      sweep_loop js'
        (<[i - 1 := Qmin (nth (i - 1) fdr 0%Q) (nth i fdr 0%Q)]> fdr)
  end.

(** [range(n - 1, 0, -1)]. *)
Definition range_down (n : nat) : list nat := rev (seq 1 (n - 1)).

(** [inv[order] = np.arange(n)]: the assignments in index order. *)
Fixpoint scatter (order : list nat) (j : nat) (inv : list nat) : list nat :=
  match order with
  | [] => inv
  | o :: order' => scatter order' (S j) (<[o := j]> inv)
  end.

(** What the sweep computes: every entry becomes the minimum of itself
    and of all the entries after it. *)
Fixpoint suffix_min (l : list Q) : list Q :=
  match l with
  | [] => []
  | x :: l' =>
      match suffix_min l' with
      | [] => [x]
      | (y :: _) as r => Qmin x y :: r
      end
  end.

(** ** Images, clusters and the summary record *)

(** A 4x4 affine, row by row. *)
Definition Affine : Type := list (list Q).

(** A point in physical space. *)
Definition Coord : Type := (Q * Q * Q)%type.

(** What [check_niimg] returns: an image in memory, with the grid shape,
    the affine and the flattened data. *)
Record Niimg : Type := {
  img_shape : list nat;
  img_affine : Affine;
  img_data : list Q }.

(** The dictionary describing one cluster (lines 165-174). *)
Record cluster : Type := {
  cl_size : nat;
  cl_maxima : list Coord;
  cl_zscore : list Q;
  cl_fdr_pvalue : list Q;
  cl_pvalue : list Q;
  cl_fwer_pvalue : option (list Q);
  cl_cluster_fwer_pvalue : option ext;
  cl_cluster_pvalue : option ext }.

(** The dictionary [info] (lines 95-98). *)
Record info : Type := {
  n_voxels : nat;
  threshold_z : ext;
  threshold_p : ext;
  threshold_pcorr : ext }.

Definition b2q (b : bool) : Q := if b then 1%Q else 0%Q.

(** [m.sum()] of a boolean array. *)
Definition count_true (m : list bool) : nat := length (List.filter id m).

(** [np.minimum(1, p * n)]. *)
Definition min1_times (p : ext) (n : nat) : ext :=
  match p with
  | Fin q => Fin (Qmin 1 (q * Qnat n))
  | PInf => if n =? 0 then NaN else Fin 1
  | NInf => if n =? 0 then NaN else NInf
  | NaN => NaN
  end.

(** The grid index [(x, y, z)] of the flat position [i] in a grid whose two
    last axes have lengths [ny] and [nz]. *)
Definition unravel (ny nz i : nat) : nat * nat * nat :=
  (i / (ny * nz), (i / nz) mod ny, i mod nz).

Definition take_coord (a : list Coord) (idx : list nat) : list Coord :=
  map (fun i => nth i a (0, 0, 0)%Q) idx.

(** ** The store of dictionaries

    [nulls] is a Python dictionary, passed by reference and written to by
    [cluster_stats].  The store maps a reference to the content of the
    dictionary it denotes (a reference the store does not bind denotes an
    empty dictionary); [default_nulls] is the one object built when the
    [def] statement was executed and shared by every call that leaves the
    argument out. *)

Inductive pyval : Type :=
| PStr (s : string)
| PNone
| PArr (a : list Q).

Abbreviation dict := (gmap string pyval).
Abbreviation loc := nat (only parsing).
Abbreviation store := (gmap loc dict).

Definition default_nulls : loc := 0.

(** State and exceptions. *)
Definition M (A : Type) : Type := store -> result A * store.

Definition ret {A : Type} (a : A) : M A := fun s => (Ok a, s).

Definition raise {A : Type} (e : exn) : M A := fun s => (Raise e, s).

Definition bind {A B : Type} (c : M A) (k : A -> M B) : M B :=
  fun s =>
    match c s with
    | (Ok a, s') => k a s'
    | (Raise e, s') => (Raise e, s')
    end.

Definition lift {A : Type} (r : result A) : M A := fun s => (r, s).

Notation "x <- c ;; k" := (bind c (fun x => k))
  (at level 100, c at next level, right associativity).

(** [k in d], [d[k] = v] and [d[k]] on the dictionary at [l]. *)
Definition contains (l : loc) (k : string) : M bool :=
  fun s => (Ok (bool_decide (is_Some ((s !!! l) !! k))), s).

Definition setitem (l : loc) (k : string) (v : pyval) : M unit :=
  fun s => (Ok tt, <[l := <[k := v]> (s !!! l)]> s).

Definition getitem (l : loc) (k : string) : M pyval :=
  fun s =>
    match (s !!! l) !! k with
    | Some v => (Ok v, s)
    | None => (Raise KeyError, s)
    end.

(** A dictionary with the three defaults of lines 119-125 filled in. *)
Definition set_default (k : string) (v : pyval) (d : dict) : dict :=
  if bool_decide (is_Some (d !! k)) then d else <[k := v]> d.

Definition with_defaults (d : dict) : dict :=
  set_default "s" PNone
    (set_default "smax" PNone (set_default "zmax" (PStr "bonferroni") d)).

(** The store after [if not k in nulls: nulls[k] = v], and after the
    three of them. *)
Definition step_store (l : loc) (k : string) (v : pyval) (s : store) : store :=
  if bool_decide (is_Some ((s !!! l) !! k)) then s
  else <[l := <[k := v]> (s !!! l)]> s.

Definition filled_store (l : loc) (s : store) : store :=
  step_store l "s" PNone
    (step_store l "smax" PNone (step_store l "zmax" (PStr "bonferroni") s)).

(** [for x in xs: acc = body(x, acc)]. *)
Fixpoint for_each {A S : Type} (xs : list A) (body : A -> S -> M S) (acc : S)
    : M S :=
  match xs with
  | [] => ret acc
  | x :: xs' => acc' <- body x acc;; for_each xs' body acc'
  end.

(** [[clusters[i] for i in order]]. *)
Definition take_cluster (a : list cluster) (idx : list nat) : list cluster :=
  omap (fun i => a !! i) idx.

Section Analysis.

(** [scipy.stats.norm.sf] and [norm.isf]. *)
Variable sf : Q -> Q.
Variable isf : Q -> ext.

(** [np.argsort]: the indices that sort an array ascending. *)
Variable argsort : list Q -> list nat.

(** [np.sort(a)]. *)
Definition np_sort (a : list Q) : list Q := take_idx a (argsort a).

(** *** [fdr_threshold] *)

Definition fdr_threshold (z_vals : list Q) (alpha : Q) : result ext :=
  let z_vals_ := map Qopp (np_sort (map Qopp z_vals)) in
  let p_vals := map sf z_vals_ in
  let n_samples := length p_vals in
  if n_samples =? 0 then Raise ZeroDivisionError
  else
    let n := Qnat n_samples in
    let pos :=
      zip_with (fun p l => Qltb p (alpha * l)%Q) p_vals
        (linspace ((5 # 10) / n)%Q (1 - (5 # 10) / n)%Q n_samples) in
    if existsb id pos
    then Ok (Fin (List.last (select z_vals_ pos) 0%Q - eps)%Q)
    else Ok PInf.

(** The specification's reading of the last step of [fdr_threshold]:
    the largest statistic among the entries whose p-value is below its
    comparison value, that is the first of them in the descending
    order. *)
Definition fdr_threshold_largest (z_vals : list Q) (alpha : Q)
    : result ext :=
  let z_vals_ := map Qopp (np_sort (map Qopp z_vals)) in
  let p_vals := map sf z_vals_ in
  let n_samples := length p_vals in
  if n_samples =? 0 then Raise ZeroDivisionError
  else
    let n := Qnat n_samples in
    let pos :=
      zip_with (fun p l => Qltb p (alpha * l)%Q) p_vals
        (linspace ((5 # 10) / n)%Q (1 - (5 # 10) / n)%Q n_samples) in
    if existsb id pos
    then Ok (Fin (hd 0%Q (select z_vals_ pos) - eps)%Q)
    else Ok PInf.

(** *** [fdr_pvalues] *)

Definition fdr_pvalues (z_vals : list Q) : result (list Q) :=
  let order := argsort (map Qopp z_vals) in
  let p_vals := map sf (take_idx z_vals order) in
  let n_samples := length z_vals in
  if n_samples =? 0 then Raise ZeroDivisionError
  else
    let n := Qnat n_samples in
    let fdr :=
      zip_with (fun p l => Qmin 1 (p / l)%Q) p_vals
        (linspace (1 / n)%Q 1%Q n_samples) in
    let fdr := sweep_loop (range_down n_samples) fdr in
    let inv_order := scatter order 0 (replicate n_samples 0) in
    Ok (take_idx fdr inv_order).

(** The values of [fdr_pvalues] before the sweep, for values already
    sorted: p-value over rank, capped at one. *)
Definition raw_fdr (z_sorted : list Q) : list Q :=
  zip_with (fun p l => Qmin 1 (p / l)%Q) (map sf z_sorted)
    (linspace (1 / Qnat (length z_sorted))%Q 1%Q (length z_sorted)).

(** *** [empirical_pvalue]

    [ranks * 1. / ref.size] is a numpy float division: an empty
    reference gives [0. / 0 = nan], not an exception. *)

Definition empirical_pvalue (z_score : Q) (ref : list Q) : ext :=
  let ranks := searchsorted (np_sort ref) z_score in
  if length ref =? 0 then NaN
  else Fin (1 - Qnat ranks * 1 / Qnat (length ref))%Q.

(** *** [cluster_stats] *)

(** nilearn's [_check_same_fov] (same shape, close affines) and
    [coord_transform]; scipy's [label] and [maximum_filter], which get
    the grid shape next to the flattened data. *)
Variable check_same_fov : Niimg -> Niimg -> bool.
Variable coord_transform : nat -> nat -> nat -> Affine -> Coord.
Variable label : list nat -> list bool -> list nat * nat.
Variable maximum_filter : list nat -> list Q -> nat -> list Q.

Definition sf_ext (t : ext) : ext :=
  match t with
  | Fin q => Fin (sf q)
  | PInf => Fin 0
  | NInf => Fin 1
  | NaN => NaN
  end.

(** Lines 84-91: the cluster-forming threshold on the z scale.  With
    [n_voxels = 0] the quotient [threshold / n_voxels] is a numpy
    division, [inf] or [nan], where [norm.isf] is [nan]. *)
Definition z_threshold_of (height_control : string) (threshold : Q)
    (stat_map : list Q) (mask : list bool) (n_voxels : nat) : result ext :=
  if String.eqb height_control "fpr" then Ok (isf threshold)
  else if String.eqb height_control "fdr" then
    fdr_threshold (select stat_map mask) threshold
  else if String.eqb height_control "bonferroni" then
    Ok (if n_voxels =? 0 then NaN else isf (threshold / Qnat n_voxels)%Q)
  else Ok (Fin threshold).

(** Lines 95-98. *)
Definition make_info (n_voxels : nat) (z_threshold : ext) : info :=
  let p_threshold := sf_ext z_threshold in
  {| n_voxels := n_voxels;
     threshold_z := z_threshold;
     threshold_p := p_threshold;
     threshold_pcorr := min1_times p_threshold n_voxels |}.

(** Lines 129-174: one turn of the loop over the labels.  Under 'zmax'
    the code tells the string 'bonferroni', an array (which does not
    compare equal to the string), and anything else; with an array line
    150 indexes the list [clusters] with a string, a [TypeError]. *)
Definition cluster_body (nulls : loc) (n_voxels : nat)
    (cluster_threshold : Q) (labels : list nat)
    (maxima_coords : list Coord) (maxima_labels : list nat)
    (maxima_values max_fdr_pvalues : list Q)
    (k : nat) (clusters : list cluster) : M (list cluster) :=
  let cluster_size := length (List.filter (Nat.eqb (k + 1)) labels) in
  if Qle_bool cluster_threshold (Qnat cluster_size) then
    let in_cluster := map (Nat.eqb (k + 1)) maxima_labels in
    let max_vals := select maxima_values in_cluster in
    let sorted := rev (argsort max_vals) in
    let z_score := take_idx max_vals sorted in
    let p_values := map sf z_score in
    zmax <- getitem nulls "zmax";;
    fwer_pvalue <-
      match zmax with
      | PArr _ => raise TypeError
      | PStr tag =>
          if String.eqb tag "bonferroni"
          then ret (Some (map (fun p => Qmin 1 (p * Qnat n_voxels)%Q) p_values))
          else ret None
      | PNone => ret None
      end;;
    smax <- getitem nulls "smax";;
    let cluster_fwer_pvalue :=
      match smax with
      | PArr a => Some (empirical_pvalue (Qnat cluster_size) a)
      | _ => None
      end in
    s <- getitem nulls "s";;
    let cluster_pvalue :=
      match s with
      | PArr a => Some (empirical_pvalue (Qnat cluster_size) a)
      | _ => None
      end in
    fdr_in <- lift (bool_index max_fdr_pvalues in_cluster);;
    ret (clusters ++
           [ {| cl_size := cluster_size;
                cl_maxima := take_coord (select maxima_coords in_cluster) sorted;
                cl_zscore := z_score;
                cl_fdr_pvalue := take_idx fdr_in sorted;
                cl_pvalue := p_values;
                cl_fwer_pvalue := fwer_pvalue;
                cl_cluster_fwer_pvalue := cluster_fwer_pvalue;
                cl_cluster_pvalue := cluster_pvalue |} ])
  else ret clusters.

(** What the record appended for the label [k + 1] holds in its fields
    'size', 'zscore' and 'maxima'. *)
Definition is_cluster_of (labels : list nat) (maxima_coords : list Coord)
    (maxima_labels : list nat) (maxima_values : list Q) (k : nat)
    (c : cluster) : Prop :=
  let in_cluster := map (Nat.eqb (k + 1)) maxima_labels in
  let max_vals := select maxima_values in_cluster in
  let sorted := rev (argsort max_vals) in
  cl_size c = length (List.filter (Nat.eqb (k + 1)) labels)
  /\ cl_zscore c = take_idx max_vals sorted
  /\ cl_maxima c = take_coord (select maxima_coords in_cluster) sorted.

(** What the record appended for a cluster holds in its other fields,
    [d] being the dictionary of null distributions the loop reads. *)
Definition cluster_fields (d : dict) (n_voxels : nat) (c : cluster) : Prop :=
  cl_pvalue c = map sf (cl_zscore c)
  /\ length (cl_maxima c) = length (cl_zscore c)
  /\ length (cl_fdr_pvalue c) = length (cl_zscore c)
  /\ cl_fwer_pvalue c
     = match d !! "zmax" with
       | Some (PStr tag) =>
           if String.eqb tag "bonferroni"
           then Some (map (fun p => Qmin 1 (p * Qnat n_voxels)%Q) (cl_pvalue c))
           else None
       | _ => None
       end
  /\ cl_cluster_fwer_pvalue c
     = match d !! "smax" with
       | Some (PArr a) => Some (empirical_pvalue (Qnat (cl_size c)) a)
       | _ => None
       end
  /\ cl_cluster_pvalue c
     = match d !! "s" with
       | Some (PArr a) => Some (empirical_pvalue (Qnat (cl_size c)) a)
       | _ => None
       end.

(** What the record appended for the label [k + 1] holds in its field
    'fdr_pvalue' (line 169), the boolean index having the length of the
    array it indexes. *)
Definition has_fdr_pvalue (maxima_labels : list nat)
    (maxima_values max_fdr_pvalues : list Q) (k : nat) (c : cluster) : Prop :=
  let in_cluster := map (Nat.eqb (k + 1)) maxima_labels in
  let sorted := rev (argsort (select maxima_values in_cluster)) in
  length max_fdr_pvalues = length maxima_labels
  /\ cl_fdr_pvalue c = take_idx (select max_fdr_pvalues in_cluster) sorted.

(** The specification's reading of line 138: the maxima by decreasing
    value, maxima of one value in the order they were detected (a stable
    descending sort). *)
Definition sorted_by_detection (max_vals : list Q) : list nat :=
  argsort (map Qopp max_vals).

(** Lines 78-81: the boolean mask and the masked statistic map. *)
Definition mask_of (mask_img : Niimg) : list bool :=
  map (fun x => negb (Qeq_bool x 0)) (img_data mask_img).

Definition stat_map_of (stat_img : Niimg) (mask : list bool) : list Q :=
  zip_with Qmult (img_data stat_img) (map b2q mask).

(** Lines 100-101. *)
Definition above_th_of (stat_map : list Q) (z_threshold : ext) : list bool :=
  map (fun v => gt_ext v z_threshold) stat_map.

Definition above_values_of (stat_map : list Q) (above_th : list bool)
    : list Q :=
  zip_with (fun v b => (v * b2q b)%Q) stat_map above_th.

(** Lines 109-110. *)
Definition maxima_mask_of (shape : list nat) (above_values : list Q)
    (z_threshold : ext) : list bool :=
  zip_with (fun a f => eq_ext a (max_ext z_threshold f)) above_values
    (maximum_filter shape above_values 3).

(** Lines 111-112: [np.where] gives the grid indices of the maxima, and
    needs a three-dimensional grid to unpack into [x, y, z]. *)
Definition voxel_coord (ny nz : nat) (affine : Affine) (i : nat) : Coord :=
  let '(x, y, z) := unravel ny nz i in coord_transform x y z affine.

(** Lines 119-125: the defaults are written into the dictionary that
    [nulls] refers to. *)
Definition fill_defaults (nulls : loc) : M unit :=
  has_zmax <- contains nulls "zmax";;
  _ <- (if has_zmax then ret tt
        else setitem nulls "zmax" (PStr "bonferroni"));;
  has_smax <- contains nulls "smax";;
  _ <- (if has_smax then ret tt else setitem nulls "smax" PNone);;
  has_s <- contains nulls "s";;
  if has_s then ret tt else setitem nulls "s" PNone.

(** [nulls = None] is a call that leaves the argument out, and so uses
    the dictionary built when the [def] was executed. *)
Definition cluster_stats (stat_img mask_img : Niimg) (threshold : Q)
    (height_control : string) (cluster_threshold : Q)
    (nulls : option loc) : M (list cluster * info) :=
  let nulls := default default_nulls nulls in
  (* Masking *)
  if negb (check_same_fov mask_img stat_img) then raise ValueError
  else
    let mask := mask_of mask_img in
    let affine := img_affine mask_img in
    let stat_map := stat_map_of stat_img mask in
    let n_voxels := count_true mask in
    (* Thresholding *)
    z_threshold <-
      lift (z_threshold_of height_control threshold stat_map mask n_voxels);;
    let info := make_info n_voxels z_threshold in
    let above_th := above_th_of stat_map z_threshold in
    let above_values := above_values_of stat_map above_th in
    if forallb negb above_th then ret ([], info)
    else
      (* Extract connected components above threshold *)
      let '(labels, n_labels) := label (img_shape mask_img) above_th in
      (* Extract the local maxima above the threshold *)
      let maxima_mask :=
        maxima_mask_of (img_shape mask_img) above_values z_threshold in
      match img_shape mask_img with
      | [_; ny; nz] =>
          let maxima_coords :=
            map (voxel_coord ny nz affine) (where_ maxima_mask) in
          let maxima_labels := select labels maxima_mask in
          let maxima_values := select above_values maxima_mask in
          (* FDR-corrected p-values *)
          fdr_all <- lift (fdr_pvalues (select stat_map mask));;
          let max_fdr_pvalues := select fdr_all (select maxima_mask mask) in
          (* Default "nulls" *)
          _ <- fill_defaults nulls;;
          (* Make list of clusters *)
          clusters <-
            for_each (seq 0 n_labels)
              (cluster_body nulls n_voxels cluster_threshold labels
                 maxima_coords maxima_labels maxima_values max_fdr_pvalues)
              [];;
          (* Sort clusters by descending size order *)
          let order :=
            argsort (map (fun c => - Qnat (cl_size c))%Q clusters) in
          ret (take_cluster clusters order, info)
      | _ => raise ValueError
      end.

End Analysis.

(** ** [fdr_threshold] in double precision

    The arrays hold doubles, and every finite double is a rational
    number; what is not exact in the code is its arithmetic.  Here the
    quotient, the difference and the product of two doubles, each rounded
    to a double as the code computes it, and numpy's [linspace] are
    parameters: which entries are below their comparison values, and what
    is returned, is read off the numbers the code computes.
    [fdr_threshold] above is this function at the exact operations of
    [Q]. *)

Module Doubles.

Section Ops.

Variable sf : Q -> Q.
Variable argsort : list Q -> list nat.

(** [x / y], [x - y] and [x * y] on doubles, and [np.linspace]. *)
Variable fdiv : Q -> Q -> Q.
Variable fsub : Q -> Q -> Q.
Variable fmul : Q -> Q -> Q.
Variable np_linspace : Q -> Q -> nat -> list Q.

Definition fdr_threshold (z_vals : list Q) (alpha : Q) : result ext :=
  let z_vals_ := map Qopp (np_sort argsort (map Qopp z_vals)) in
  let p_vals := map sf z_vals_ in
  let n_samples := length p_vals in
  if n_samples =? 0 then Raise ZeroDivisionError
  else
    let n := Qnat n_samples in
    let pos :=
      zip_with (fun p l => Qltb p (fmul alpha l)) p_vals
        (np_linspace (fdiv (5 # 10) n) (fsub 1 (fdiv (5 # 10) n))
           n_samples) in
    if existsb id pos
    then Ok (Fin (fsub (List.last (select z_vals_ pos) 0%Q) eps))
    else Ok PInf.

End Ops.

End Doubles.

(** ** Executable instances of the library functions *)

Module Instance.

(** Modelled from the spec: [np.argsort], which numpy implements and the
    repository only calls.  On the short arrays of the examples below
    numpy's default sort is an insertion sort, hence stable: equal keys
    keep their index order. *)
Fixpoint insert_idx (a : list Q) (i : nat) (l : list nat) : list nat :=
  match l with
  | [] => [i]
  | j :: l' =>
      if Qle_bool (nth i a 0%Q) (nth j a 0%Q) then i :: l
      else j :: insert_idx a i l'
  end.

Definition argsort (a : list Q) : list nat :=
  foldr (insert_idx a) [] (seq 0 (length a)).

(** Modelled from the spec: the survival function of the standard
    normal, [norm.sf], tabulated at the integers from -4 to 6 (to eight
    decimals) and constant on every [k, k + 1). *)
Definition sf (z : Q) : Q :=
  (if Qltb z (-4) then 1
  else if Qltb z (-3) then 99996833 # 100000000
  else if Qltb z (-2) then 99865010 # 100000000
  else if Qltb z (-1) then 97724987 # 100000000
  else if Qltb z 0 then 84134475 # 100000000
  else if Qltb z 1 then 1 # 2
  else if Qltb z 2 then 15865525 # 100000000
  else if Qltb z 3 then 2275013 # 100000000
  else if Qltb z 4 then 134990 # 100000000
  else if Qltb z 5 then 3167 # 100000000
  else if Qltb z 6 then 29 # 100000000
  else 0)%Q.

(** Modelled from the spec: [norm.isf], the inverse of [norm.sf], to the
    same precision: [nan] outside [0, 1], infinite at the two ends. *)
Definition isf (p : Q) : ext :=
  (if Qltb p 0 || Qltb 1 p then NaN
  else if Qeq_bool p 0 then PInf
  else if Qeq_bool p 1 then NInf
  else if Qle_bool p (3167 # 100000000) then Fin 4
  else if Qle_bool p (134990 # 100000000) then Fin 3
  else if Qle_bool p (2275013 # 100000000) then Fin 2
  else if Qle_bool p (15865525 # 100000000) then Fin 1
  else if Qle_bool p (1 # 2) then Fin 0
  else if Qle_bool p (84134475 # 100000000) then Fin (-1)
  else if Qle_bool p (97724987 # 100000000) then Fin (-2)
  else Fin (-3))%Q.

(** Modelled from the spec: nilearn's [_check_same_fov], here with
    equal shapes and equal affines. *)
Definition check_same_fov (a b : Niimg) : bool :=
  bool_decide (img_shape a = img_shape b)
  && forallb id
       (zip_with (fun r r' => forallb id (zip_with Qeq_bool r r'))
          (img_affine a) (img_affine b)).

(** Modelled from the spec: nilearn's [coord_transform], the affine
    applied to [(x, y, z, 1)]. *)
Definition row_dot (row : list Q) (x y z : Q) : Q :=
  (nth 0 row 0 * x + nth 1 row 0 * y + nth 2 row 0 * z + nth 3 row 0)%Q.

Definition coord_transform (x y z : nat) (affine : Affine) : Coord :=
  (row_dot (nth 0 affine []) (Qnat x) (Qnat y) (Qnat z),
   row_dot (nth 1 affine []) (Qnat x) (Qnat y) (Qnat z),
   row_dot (nth 2 affine []) (Qnat x) (Qnat y) (Qnat z)).

(** The flat position of a grid index. *)
Definition ravel (ny nz x y z : nat) : nat := (x * ny + y) * nz + z.

(** The positions [i - 1], [i], [i + 1] along an axis of length [n],
    reflected at the two ends as scipy's default mode does. *)
Definition window (n i : nat) : list nat :=
  [ (if i =? 0 then 0 else i - 1); i; (if S i <? n then S i else i) ].

(** Modelled from the spec: [scipy.ndimage.maximum_filter] with a window
    of size 3 on a three-dimensional grid (the only call in the
    repository). *)
Definition maximum_filter (shape : list nat) (a : list Q) (size : nat)
    : list Q :=
  match shape with
  | [nx; ny; nz] =>
      map (fun i =>
             let '(x, y, z) := unravel ny nz i in
             foldr Qmax (nth i a 0%Q)
               (x' ← window nx x; y' ← window ny y; z' ← window nz z;
                [nth (ravel ny nz x' y' z') a 0%Q]))
        (seq 0 (length a))
  | _ => a
  end.

(** The in-grid neighbours of a voxel across a face. *)
Definition neighbours (shape : list nat) (i : nat) : list nat :=
  match shape with
  | [nx; ny; nz] =>
      let '(x, y, z) := unravel ny nz i in
      (if 0 <? x then [ravel ny nz (x - 1) y z] else [])
      ++ (if S x <? nx then [ravel ny nz (S x) y z] else [])
      ++ (if 0 <? y then [ravel ny nz x (y - 1) z] else [])
      ++ (if S y <? ny then [ravel ny nz x (S y) z] else [])
      ++ (if 0 <? z then [ravel ny nz x y (z - 1)] else [])
      ++ (if S z <? nz then [ravel ny nz x y (S z)] else [])
  | _ => []
  end.

(** Give the label [k] to every voxel reachable from [todo] through
    cells of [a] that are set and not yet labelled. *)
Fixpoint flood (fuel : nat) (shape : list nat) (a : list bool) (k : nat)
    (todo : list nat) (labels : list nat) : list nat :=
  match fuel with
  | 0 => labels
  | S fuel' =>
      match todo with
      | [] => labels
      | i :: todo' =>
          if nth i a false && (nth i labels 0 =? 0)
          then flood fuel' shape a k (neighbours shape i ++ todo')
                 (<[i := k]> labels)
          else flood fuel' shape a k todo' labels
      end
  end.

Fixpoint scan (shape : list nat) (a : list bool) (js : list nat)
    (labels : list nat) (n_labels : nat) : list nat * nat :=
  match js with
  | [] => (labels, n_labels)
  | i :: js' =>
      if nth i a false && (nth i labels 0 =? 0)
      then scan shape a js'
             (flood (7 * length a + 1) shape a (S n_labels) [i] labels)
             (S n_labels)
      else scan shape a js' labels n_labels
  end.

(** Modelled from the spec: [scipy.ndimage.label] with its default
    structuring element (neighbours across a face); components are
    numbered in the order a scan of the array meets them. *)
Definition label (shape : list nat) (a : list bool) : list nat * nat :=
  scan shape a (seq 0 (length a)) (replicate (length a) 0) 0.

Definition fdr_threshold := fdr_threshold sf argsort.
Definition fdr_pvalues := fdr_pvalues sf argsort.
Definition empirical_pvalue := empirical_pvalue argsort.
Definition cluster_stats :=
  cluster_stats sf isf argsort check_same_fov coord_transform label
    maximum_filter.

(** The identity affine and an empty store. *)
Definition eye : Affine :=
  [ [1; 0; 0; 0]; [0; 1; 0; 0]; [0; 0; 1; 0]; [0; 0; 0; 1] ]%Q.

Definition no_dicts : store := ∅.

(** An image on the identity affine. *)
Definition image (shape : list nat) (data : list Q) : Niimg :=
  {| img_shape := shape; img_affine := eye; img_data := data |}.

(** The labels sit on voxels of the array only. *)
Definition labelled_in (a : list bool) (labels : list nat) : Prop :=
  forall p, nth p labels 0 <> 0 -> nth p a false = true.

End Instance.

(** * Properties *)

(** ** Comparisons and array primitives *)

Lemma Qltb_lt (x y : Q) : Qltb x y = true <-> (x < y)%Q.
Proof.
  unfold Qltb. rewrite negb_true_iff, <- not_true_iff_false, Qle_bool_iff.
  split; [apply Qnot_le_lt | apply Qlt_not_le].
Qed.

Lemma Qltb_ge (x y : Q) : Qltb x y = false <-> (y <= x)%Q.
Proof.
  unfold Qltb. rewrite negb_false_iff. apply Qle_bool_iff.
Qed.

Lemma map_nth_seq (a : list Q) :
  map (fun i => nth i a 0%Q) (seq 0 (length a)) = a.
Proof.
  induction a as [|x a IH]; [reflexivity|].
  cbn [length seq map nth]. f_equal.
  rewrite <- seq_shift, List.map_map. exact IH.
Qed.

Lemma take_idx_length (a : list Q) (idx : list nat) :
  length (take_idx a idx) = length idx.
Proof. apply length_map. Qed.

Lemma nth_take_idx (a : list Q) (idx : list nat) (j : nat) :
  j < length idx -> nth j (take_idx a idx) 0%Q = nth (nth j idx 0) a 0%Q.
Proof.
  intros Hj. unfold take_idx.
  rewrite (nth_indep _ 0%Q (nth 0 a 0%Q)) by (rewrite length_map; exact Hj).
  apply (map_nth (fun i => nth i a 0%Q)).
Qed.

Lemma take_idx_map_opp (a : list Q) (idx : list nat) :
  take_idx (map Qopp a) idx = map Qopp (take_idx a idx).
Proof.
  unfold take_idx. rewrite List.map_map. apply map_ext. intros i.
  change 0%Q with (- 0)%Q at 1. apply map_nth.
Qed.

Lemma nth_map_opp (a : list Q) (i : nat) :
  nth i (map Qopp a) 0%Q = (- nth i a 0)%Q.
Proof. change 0%Q with (- 0)%Q at 1. apply map_nth. Qed.

Lemma map_opp_opp (a : list Q) : map Qopp (map Qopp a) = a.
Proof.
  rewrite List.map_map. rewrite <- (map_id a) at 2. apply map_ext.
  intros [n d]. unfold Qopp. cbn. now rewrite Z.opp_involutive.
Qed.

Lemma count_below_perm (v : Q) (l l' : list Q) :
  Permutation l l' -> count_below v l = count_below v l'.
Proof.
  unfold count_below. induction 1; cbn; try congruence.
  - destruct (Qltb x v); cbn; congruence.
  - destruct (Qltb x v), (Qltb y v); reflexivity.
Qed.

Lemma searchsorted_count (v : Q) (l : list Q) :
  StronglySorted Qle l -> searchsorted l v = count_below v l.
Proof.
  unfold count_below. induction 1 as [|x l Hs IH Hx]; [reflexivity|].
  cbn. destruct (Qltb x v) eqn:E; cbn; [now rewrite IH|].
  apply Qltb_ge in E. clear IH Hs.
  induction Hx as [|y l Hy Hl IH]; [reflexivity|].
  cbn. replace (Qltb y v) with false; [exact IH|].
  symmetry. apply Qltb_ge. now apply Qle_trans with x.
Qed.

Lemma Qnat_S (n : nat) : (Qnat (S n) == Qnat n + 1)%Q.
Proof.
  unfold Qnat. rewrite Nat2Z.inj_succ, <- Z.add_1_r, inject_Z_plus.
  reflexivity.
Qed.

Lemma Qnat_nonneg (n : nat) : (0 <= Qnat n)%Q.
Proof.
  induction n as [|n IH]; [apply Qle_refl|]. rewrite Qnat_S. lra.
Qed.

Lemma Qnat_lt (n m : nat) : n < m -> (Qnat n + 1 <= Qnat m)%Q.
Proof.
  induction 1 as [|m Hm IH]; rewrite Qnat_S; lra.
Qed.

Lemma nth_zip_with {A B C : Type} (f : A -> B -> C) (l1 : list A)
    (l2 : list B) (i : nat) (d1 : A) (d2 : B) (d : C) :
  i < length l1 -> i < length l2 ->
  nth i (zip_with f l1 l2) d = f (nth i l1 d1) (nth i l2 d2).
Proof.
  revert l2 i. induction l1 as [|x l1 IH]; intros [|y l2] [|i] H1 H2;
    cbn in *; try lia; [reflexivity|]. apply IH; lia.
Qed.

Lemma length_zip_with_same {A B C : Type} (f : A -> B -> C) (l1 : list A)
    (l2 : list B) :
  length l1 = length l2 -> length (zip_with f l1 l2) = length l1.
Proof.
  revert l2. induction l1 as [|x l1 IH]; intros [|y l2] H; cbn in *;
    try lia. now rewrite IH by lia.
Qed.

Lemma linspace_length (start stop : Q) (n : nat) :
  length (linspace start stop n) = n.
Proof. unfold linspace. now rewrite length_map, length_seq. Qed.

Lemma nth_linspace (start stop : Q) (n i : nat) :
  i < n ->
  nth i (linspace start stop n) 0%Q
  = (start + Qnat i * ((stop - start) / (Qnat n - 1)))%Q.
Proof.
  intros Hi. unfold linspace.
  rewrite (nth_indep _ 0%Q
             ((fun i => start + Qnat i * ((stop - start) / (Qnat n - 1)))%Q 0))
    by (now rewrite length_map, length_seq).
  rewrite (map_nth (fun i => start + Qnat i * ((stop - start) / (Qnat n - 1)))%Q).
  now rewrite seq_nth.
Qed.

Lemma Qnat_ge_2 (n : nat) : 2 <= n -> (2 <= Qnat n)%Q.
Proof.
  intros Hn. pose proof (Qnat_lt 1 n Hn) as H.
  change (Qnat 1) with 1%Q in H. lra.
Qed.

(** The comparison sequence of [fdr_threshold] is [(1/2 + i) / n]. *)
Lemma linspace_half (n i : nat) :
  i < n ->
  (nth i (linspace ((5 # 10) / Qnat n) (1 - (5 # 10) / Qnat n) n) 0
   == ((1 # 2) + Qnat i) / Qnat n)%Q.
Proof.
  intros Hi. rewrite nth_linspace by exact Hi.
  destruct (Nat.eq_dec n 1) as [->|Hn].
  - replace i with 0 by lia. reflexivity.
  - pose proof (Qnat_ge_2 n ltac:(lia)) as H2.
    field. split; intros H0; lra.
Qed.

(** The ranks of [fdr_pvalues] are [(1 + i) / n]. *)
Lemma linspace_rank (n i : nat) :
  i < n ->
  (nth i (linspace (1 / Qnat n) 1 n) 0 == (1 + Qnat i) / Qnat n)%Q.
Proof.
  intros Hi. rewrite nth_linspace by exact Hi.
  destruct (Nat.eq_dec n 1) as [->|Hn].
  - replace i with 0 by lia. reflexivity.
  - pose proof (Qnat_ge_2 n ltac:(lia)) as H2.
    field. split; intros H0; lra.
Qed.

(** Boolean-mask selection: which entry is the last one selected. *)
Lemma select_none {A : Type} (a : list A) (m : list bool) :
  existsb id m = false -> select a m = [].
Proof.
  revert a. induction m as [|b m IH]; intros [|x a] H; try reflexivity.
  cbn in *. apply orb_false_iff in H as [-> H]. now apply IH.
Qed.

Lemma existsb_nth_false (m : list bool) (i : nat) :
  existsb id m = false -> nth i m false = false.
Proof.
  revert i. induction m as [|b m IH]; intros [|i] H; try reflexivity;
    cbn in *; apply orb_false_iff in H as [Hb H]; [exact Hb | now apply IH].
Qed.

Lemma last_cons_default {A : Type} (x d : A) (l : list A) :
  List.last (x :: l) d = List.last l x.
Proof.
  revert x d. induction l as [|y l IH]; intros x d; [reflexivity|].
  change (List.last (x :: y :: l) d) with (List.last (y :: l) d).
  now rewrite !IH.
Qed.

Lemma last_indep {A : Type} (l : list A) (d d' : A) :
  l <> [] -> List.last l d = List.last l d'.
Proof.
  destruct l as [|x l]; [congruence|]. intros _.
  now rewrite !last_cons_default.
Qed.

Lemma select_some {A : Type} (a : list A) (m : list bool) :
  length a = length m -> existsb id m = true -> select a m <> [].
Proof.
  revert a. induction m as [|b m IH]; intros [|x a] Hlen Hex;
    cbn in *; try discriminate.
  destruct b; [discriminate|]. apply IH; [lia | exact Hex].
Qed.

Lemma last_select (a : list Q) (m : list bool) (d : Q) :
  length a = length m -> existsb id m = true ->
  exists k, k < length m /\ nth k m false = true
            /\ (forall i, k < i -> nth i m false = false)
            /\ List.last (select a m) d = nth k a d.
Proof.
  revert a d. induction m as [|b m IH]; intros [|x a] d Hlen Hex;
    cbn in Hlen, Hex; try discriminate.
  destruct (existsb id m) eqn:Em.
  - destruct (IH a x ltac:(lia) eq_refl) as (k & Hk & Hkt & Hlast & Hsel).
    exists (S k). cbn [length nth select]. repeat split.
    + lia.
    + exact Hkt.
    + intros [|i] Hi; [lia|]. apply Hlast. lia.
    + rewrite (nth_indep a d x) by lia.
      destruct b; [rewrite last_cons_default; exact Hsel|].
      rewrite <- Hsel. apply last_indep, select_some; [lia | exact Em].
  - rewrite orb_false_r in Hex. unfold id in Hex. subst b.
    exists 0. cbn [length nth select]. repeat split.
    + lia.
    + intros [|i] Hi; [lia|]. now apply existsb_nth_false.
    + now rewrite (select_none a m Em).
Qed.

Lemma StronglySorted_nth {A : Type} (R : A -> A -> Prop) (l : list A)
    (i j : nat) (d : A) :
  StronglySorted R l -> i < j -> j < length l -> R (nth i l d) (nth j l d).
Proof.
  intros Hs. revert i j. induction Hs as [|x l Hs IH Hx]; intros i j Hij Hj;
    cbn in Hj; [lia|].
  destruct j as [|j]; [lia|]. destruct i as [|i]; cbn.
  - rewrite Forall_forall in Hx. apply Hx, list_elem_of_In, nth_In. lia.
  - apply IH; lia.
Qed.

(** ** The sweep of [fdr_pvalues] and the inverse permutation *)

Lemma nth_insert_eq {A : Type} (l : list A) (i : nat) (x d : A) :
  i < length l -> nth i (<[i := x]> l) d = x.
Proof.
  intros Hi. apply nth_lookup_Some. now apply list_lookup_insert_eq.
Qed.

Lemma nth_insert_ne {A : Type} (l : list A) (i j : nat) (x d : A) :
  i <> j -> nth j (<[i := x]> l) d = nth j l d.
Proof.
  intros Hij. now rewrite !nth_lookup, list_lookup_insert_ne.
Qed.

Lemma sweep_loop_app (js ks : list nat) (fdr : list Q) :
  sweep_loop (js ++ ks) fdr = sweep_loop ks (sweep_loop js fdr).
Proof.
  revert fdr. induction js as [|i js IH]; intros fdr; [reflexivity|].
  cbn. apply IH.
Qed.

Lemma sweep_loop_shift (js : list nat) (x : Q) (fdr : list Q) :
  Forall (fun i => 1 <= i) js ->
  sweep_loop (map S js) (x :: fdr) = x :: sweep_loop js fdr.
Proof.
  intros Hjs. revert fdr. induction Hjs as [|i js Hi Hjs IH]; intros fdr;
    [reflexivity|].
  cbn [map sweep_loop]. rewrite <- IH. f_equal.
  replace (S i - 1) with (S (i - 1)) by lia.
  cbn [nth]. replace (S (i - 1)) with i at 2 by lia. reflexivity.
Qed.

Lemma suffix_min_length (l : list Q) : length (suffix_min l) = length l.
Proof.
  induction l as [|x l IH]; [reflexivity|]. cbn [suffix_min length].
  rewrite <- IH. now destruct (suffix_min l).
Qed.

(** The loop of [fdr_pvalues] computes the suffix minima. *)
Lemma sweep_loop_suffix_min (l : list Q) :
  sweep_loop (range_down (length l)) l = suffix_min l.
Proof.
  induction l as [|x l IH]; [reflexivity|].
  unfold range_down in *. cbn [length]. rewrite Nat.sub_succ, Nat.sub_0_r.
  destruct l as [|y l]; [reflexivity|].
  cbn [length] in *. rewrite Nat.sub_succ, Nat.sub_0_r in IH.
  cbn [seq rev]. rewrite <- seq_shift, <- map_rev, sweep_loop_app.
  rewrite sweep_loop_shift.
  - rewrite IH. pose proof (suffix_min_length (y :: l)) as Hl.
    change (suffix_min (x :: y :: l))
      with (match suffix_min (y :: l) with
            | [] => [x]
            | (m :: _) as r => Qmin x m :: r
            end).
    destruct (suffix_min (y :: l)) as [|m r]; [discriminate|]. reflexivity.
  - apply Forall_forall. intros i Hi. apply list_elem_of_In, in_rev, in_seq in Hi.
    lia.
Qed.

Lemma suffix_min_cons (x : Q) (l : list Q) :
  l <> [] ->
  suffix_min (x :: l) = Qmin x (nth 0 (suffix_min l) 0%Q) :: suffix_min l.
Proof.
  intros Hl. pose proof (suffix_min_length l) as Hlen.
  cbn [suffix_min]. destruct (suffix_min l) as [|m r]; [|reflexivity].
  destruct l; [congruence | discriminate].
Qed.

Lemma suffix_min_step (l : list Q) (t : nat) :
  S t < length l ->
  nth t (suffix_min l) 0%Q
  = Qmin (nth t l 0%Q) (nth (S t) (suffix_min l) 0%Q).
Proof.
  revert t. induction l as [|x l IH]; intros t Ht; cbn in Ht; [lia|].
  rewrite suffix_min_cons by (destruct l; [cbn in Ht; lia | discriminate]).
  destruct t as [|t]; [reflexivity|].
  cbn [nth]. apply IH. lia.
Qed.

Lemma suffix_min_last (l : list Q) (t : nat) :
  S t = length l -> nth t (suffix_min l) 0%Q = nth t l 0%Q.
Proof.
  revert t. induction l as [|x l IH]; intros t Ht; cbn in Ht; [lia|].
  destruct l as [|y l]; cbn [length] in Ht.
  - now replace t with 0 by lia.
  - rewrite suffix_min_cons by discriminate.
    destruct t as [|t]; [lia|].
    cbn [nth]. apply IH. cbn [length]. lia.
Qed.

(** A lower bound of the entries from [t] on is one of the suffix
    minimum at [t]. *)
Lemma suffix_min_glb (l : list Q) (c : Q) (t : nat) :
  t < length l ->
  (forall u, t <= u -> u < length l -> (c <= nth u l 0)%Q) ->
  (c <= nth t (suffix_min l) 0)%Q.
Proof.
  intros Ht Hc.
  remember (length l - S t) as k eqn:Hk. revert t Ht Hc Hk.
  induction k as [|k IH]; intros t Ht Hc Hk.
  - rewrite suffix_min_last by lia. apply Hc; lia.
  - rewrite suffix_min_step by lia. apply Q.min_glb.
    + apply Hc; lia.
    + apply IH; [lia| |lia]. intros u Hu. apply Hc. lia.
Qed.

Lemma suffix_min_head (l : list Q) (t : nat) :
  t < length l -> (nth t (suffix_min l) 0 <= nth t l 0)%Q.
Proof.
  intros Ht. destruct (Nat.eq_dec (S t) (length l)) as [E|E].
  - rewrite suffix_min_last by exact E. apply Qle_refl.
  - rewrite suffix_min_step by lia. apply Q.le_min_l.
Qed.

Lemma suffix_min_mono (l : list Q) (t u : nat) :
  t <= u -> u < length l ->
  (nth t (suffix_min l) 0 <= nth u (suffix_min l) 0)%Q.
Proof.
  induction 1 as [|u Htu IH]; intros Hu; [apply Qle_refl|].
  eapply Qle_trans; [apply IH; lia|].
  rewrite (suffix_min_step l u) by lia. apply Q.le_min_r.
Qed.

(** The suffix minimum at [t] is below every entry from [t] on. *)
Lemma suffix_min_le (l : list Q) (t u : nat) :
  t <= u -> u < length l -> (nth t (suffix_min l) 0 <= nth u l 0)%Q.
Proof.
  intros Htu Hu. apply Qle_trans with (nth u (suffix_min l) 0%Q).
  - apply suffix_min_mono; assumption.
  - apply suffix_min_head; assumption.
Qed.

(** [scatter] builds the inverse of a permutation. *)
Lemma scatter_spec (order : list nat) (j : nat) (inv : list nat) :
  List.NoDup order -> Forall (fun o => o < length inv) order ->
  length (scatter order j inv) = length inv
  /\ (forall t, t < length order ->
       nth (nth t order 0) (scatter order j inv) 0 = j + t)
  /\ (forall i, ~ In i order -> nth i (scatter order j inv) 0 = nth i inv 0).
Proof.
  intros Hnd. revert j inv.
  induction Hnd as [|o order Ho Hnd IH]; intros j inv Hlt.
  - cbn. split; [reflexivity|]. split; intros; [lia | reflexivity].
  - apply Forall_cons in Hlt as [Holt Hlt].
    destruct (IH (S j) (<[o := j]> inv)) as (Hlen & Hinv & Hout).
    { now rewrite length_insert. }
    rewrite length_insert in Hlen. cbn [scatter]. repeat split.
    + exact Hlen.
    + intros [|t] Ht; cbn [nth length] in *.
      * rewrite Hout by exact Ho. rewrite nth_insert_eq by exact Holt. lia.
      * rewrite Hinv by lia. lia.
    + intros i Hi. rewrite Hout by (intros Hin; apply Hi; now right).
      apply nth_insert_ne. intros ->. apply Hi. now left.
Qed.

(** Two descending arrangements of the same values agree entry by
    entry.  Equal floats may be written differently as fractions, so the
    comparison goes through reduced fractions. *)
Lemma desc_sorted_perm_eq (l l' : list Q) :
  Permutation l l' ->
  StronglySorted (fun x y => (y <= x)%Q) l ->
  StronglySorted (fun x y => (y <= x)%Q) l' ->
  Forall (fun x => Qred x = x) l ->
  l = l'.
Proof.
  revert l'. induction l as [|x l IH]; intros l' Hp Hs Hs' Hc.
  - apply Permutation_nil in Hp. now subst.
  - destruct l' as [|y l'];
      [apply Permutation_sym, Permutation_nil in Hp; discriminate|].
    assert (Hc' : Forall (fun x => Qred x = x) (y :: l'))
      by (eapply Permutation_Forall; eauto).
    apply StronglySorted_inv in Hs as [Hs Hx].
    apply StronglySorted_inv in Hs' as [Hs' Hy].
    apply Forall_cons in Hc as [Hcx Hc].
    apply Forall_cons in Hc' as [Hcy Hc'].
    assert (Hxy : (y <= x)%Q).
    { assert (Hin : In y (x :: l))
        by (apply (Permutation_in _ (Permutation_sym Hp)); now left).
      destruct Hin as [->|Hin]; [apply Qle_refl|].
      rewrite Forall_forall in Hx. now apply Hx, list_elem_of_In. }
    assert (Hyx : (x <= y)%Q).
    { assert (Hin : In x (y :: l')) by (apply (Permutation_in _ Hp); now left).
      destruct Hin as [->|Hin]; [apply Qle_refl|].
      rewrite Forall_forall in Hy. now apply Hy, list_elem_of_In. }
    assert (Heq : x = y).
    { rewrite <- Hcx, <- Hcy. apply Qred_complete. lra. }
    subst y. f_equal. apply IH; try assumption.
    now apply Permutation_cons_inv with x.
Qed.

Lemma desc_sorted_perm_Qeq (l l' : list Q) :
  Permutation l l' ->
  StronglySorted (fun x y => (y <= x)%Q) l ->
  StronglySorted (fun x y => (y <= x)%Q) l' ->
  forall i, (nth i l 0 == nth i l' 0)%Q.
Proof.
  intros Hp Hs Hs' i.
  assert (Hred : forall k, StronglySorted (fun x y => (y <= x)%Q) k ->
                 StronglySorted (fun x y => (y <= x)%Q) (map Qred k)).
  { induction 1 as [|x k Hk IHk Hx]; cbn; constructor; [exact IHk|].
    apply Forall_map. eapply Forall_impl; [exact Hx|].
    cbn. intros y Hy. now rewrite !Qred_correct. }
  assert (E : map Qred l = map Qred l').
  { apply desc_sorted_perm_eq; auto using Permutation_map.
    apply Forall_map, Forall_forall. intros x _. cbn.
    apply Qred_complete, Qred_correct. }
  assert (En : nth i (map Qred l) (Qred 0) = nth i (map Qred l') (Qred 0))
    by now rewrite E.
  rewrite !(map_nth Qred) in En. now apply Qred_eq_iff.
Qed.

(** Suffix minima of arrays that agree entry by entry. *)
Lemma suffix_min_ext (l l' : list Q) (t : nat) :
  length l = length l' ->
  (forall u, u < length l -> (nth u l 0 == nth u l' 0)%Q) ->
  t < length l ->
  (nth t (suffix_min l) 0 == nth t (suffix_min l') 0)%Q.
Proof.
  intros Hlen Hext Ht.
  remember (length l - S t) as k eqn:Hk. revert t Ht Hk.
  induction k as [|k IH]; intros t Ht Hk.
  - rewrite !suffix_min_last by lia. apply Hext, Ht.
  - rewrite (suffix_min_step l t), (suffix_min_step l' t) by lia.
    apply Q.min_compat; [apply Hext, Ht | apply IH; lia].
Qed.

(** Where the entries between [a] and [b] are not below the suffix
    minimum at [b], the suffix minimum at [a] is the same. *)
Lemma suffix_min_tie (l : list Q) (a b : nat) :
  a <= b -> b < length l ->
  (forall u, a <= u -> u < b -> (nth b (suffix_min l) 0 <= nth u l 0)%Q) ->
  (nth a (suffix_min l) 0 == nth b (suffix_min l) 0)%Q.
Proof.
  intros Hab Hb Hbetween.
  remember (b - a) as k eqn:Hk. revert a Hab Hbetween Hk.
  induction k as [|k IH]; intros a Hab Hbetween Hk.
  - replace a with b by lia. reflexivity.
  - rewrite (suffix_min_step l a) by lia.
    assert (E : (nth (S a) (suffix_min l) 0 == nth b (suffix_min l) 0)%Q)
      by (apply IH; try lia; intros u Hu; apply Hbetween; lia).
    rewrite <- E. apply Q.min_r. rewrite E. apply Hbetween; lia.
Qed.

Lemma take_idx_perm (a : list Q) (idx : list nat) :
  Permutation idx (seq 0 (length a)) -> Permutation (take_idx a idx) a.
Proof.
  intros Hp. unfold take_idx.
  etransitivity; [apply Permutation_map, Hp|]. now rewrite map_nth_seq.
Qed.

Lemma Forall2_Qeq_nth (l l' : list Q) :
  length l = length l' ->
  (forall i, i < length l -> (nth i l 0 == nth i l' 0)%Q) ->
  Forall2 Qeq l l'.
Proof.
  revert l'. induction l as [|x l IH]; intros [|y l'] Hlen Hnth;
    cbn [length] in Hlen; try lia; constructor.
  - apply (Hnth 0). cbn [length]. lia.
  - apply IH; [lia|]. intros i Hi. apply (Hnth (S i)). cbn [length]. lia.
Qed.

(** ** The contract of [np.argsort] *)

Section Sorting.

Variable argsort : list Q -> list nat.
Hypothesis argsort_perm :
  forall a, Permutation (argsort a) (seq 0 (length a)).
Hypothesis argsort_sorted :
  forall a, StronglySorted (key_le a) (argsort a).

Lemma argsort_length (a : list Q) : length (argsort a) = length a.
Proof.
  rewrite (Permutation_length (argsort_perm a)). apply length_seq.
Qed.

Lemma argsort_lt (a : list Q) (i : nat) :
  In i (argsort a) -> i < length a.
Proof.
  intros Hi. apply (Permutation_in _ (argsort_perm a)) in Hi.
  apply in_seq in Hi. lia.
Qed.

Lemma np_sort_perm (a : list Q) : Permutation (np_sort argsort a) a.
Proof.
  unfold np_sort, take_idx.
  etransitivity; [apply Permutation_map, argsort_perm|].
  now rewrite map_nth_seq.
Qed.

Lemma np_sort_length (a : list Q) : length (np_sort argsort a) = length a.
Proof. apply Permutation_length, np_sort_perm. Qed.

Lemma np_sort_sorted (a : list Q) : StronglySorted Qle (np_sort argsort a).
Proof.
  unfold np_sort, take_idx.
  induction (argsort_sorted a) as [|i l Hl IH Hi]; cbn; constructor.
  - exact IH.
  - apply Forall_map. exact Hi.
Qed.

(** *** [empirical_pvalue] *)

Lemma empirical_pvalue_eq (z_score : Q) (ref : list Q) :
  ref <> [] ->
  empirical_pvalue argsort z_score ref
  = Fin (1 - Qnat (count_below z_score ref) * 1 / Qnat (length ref))%Q.
Proof.
  intros Hne. unfold empirical_pvalue.
  destruct (Nat.eqb_spec (length ref) 0) as [E|_].
  - destruct ref; [congruence | discriminate].
  - rewrite (searchsorted_count _ _ (np_sort_sorted ref)).
    now rewrite (count_below_perm _ _ _ (np_sort_perm ref)).
Qed.

Lemma count_below_min (z_score : Q) (ref : list Q) :
  Forall (fun r => (z_score <= r)%Q) ref -> count_below z_score ref = 0.
Proof.
  unfold count_below. induction 1 as [|r l Hr Hl IH]; [reflexivity|].
  cbn. replace (Qltb r z_score) with false; [exact IH|].
  symmetry. now apply Qltb_ge.
Qed.

(** C7: on a non-empty reference array [empirical_pvalue] is
    [1 - rank / size], where [rank] is the number of reference values
    strictly below the observed one; it is exactly 1 when the observed
    value is at most every reference value (so at most their minimum). *)
Theorem empirical_pvalue_rank (z_score : Q) (ref : list Q) :
  ref <> [] ->
  empirical_pvalue argsort z_score ref
  = Fin (1 - Qnat (count_below z_score ref) * 1 / Qnat (length ref))%Q
  /\ (Forall (fun r => (z_score <= r)%Q) ref ->
      exists q, empirical_pvalue argsort z_score ref = Fin q /\ (q == 1)%Q).
Proof.
  intros Hne. split; [now apply empirical_pvalue_eq|].
  intros Hmin. eexists. split; [now apply empirical_pvalue_eq|].
  rewrite (count_below_min _ _ Hmin). unfold Qnat. cbn [Z.of_nat inject_Z].
  unfold Qdiv. ring.
Qed.

(** *** [fdr_threshold] *)

Variable sf : Q -> Q.

Lemma sorted_desc_perm (z_vals : list Q) :
  Permutation (map Qopp (np_sort argsort (map Qopp z_vals))) z_vals.
Proof.
  rewrite <- (map_opp_opp z_vals) at 2.
  apply Permutation_map, np_sort_perm.
Qed.

Lemma sorted_desc_sorted (z_vals : list Q) :
  StronglySorted (fun x y => (y <= x)%Q)
    (map Qopp (np_sort argsort (map Qopp z_vals))).
Proof.
  induction (np_sort_sorted (map Qopp z_vals)) as [|x l Hl IH Hx]; cbn;
    constructor; [exact IH|].
  apply Forall_map. eapply Forall_impl; [exact Hx|].
  cbn. intros y Hy. lra.
Qed.

Lemma fdr_threshold_pos (z_vals : list Q) (alpha : Q) (i : nat) :
  let n := length z_vals in
  let z_vals_ := map Qopp (np_sort argsort (map Qopp z_vals)) in
  i < n ->
  nth i
    (zip_with (fun p l => Qltb p (alpha * l)%Q) (map sf z_vals_)
       (linspace ((5 # 10) / Qnat n)%Q (1 - (5 # 10) / Qnat n)%Q n)) false
  = true
  <-> (sf (nth i z_vals_ 0) < alpha * (((1 # 2) + Qnat i) / Qnat n))%Q.
Proof.
  intros n z_vals_ Hi.
  assert (Hlen : length z_vals_ = n).
  { unfold z_vals_. now rewrite length_map, np_sort_length, length_map. }
  rewrite (nth_zip_with _ _ _ _ (sf 0) 0%Q)
    by (rewrite ?length_map, ?linspace_length; lia).
  rewrite (map_nth sf), Qltb_lt, linspace_half by exact Hi.
  reflexivity.
Qed.

(** *** [fdr_pvalues] *)

Lemma argsort_NoDup (a : list Q) : List.NoDup (argsort a).
Proof.
  apply (Permutation_NoDup (Permutation_sym (argsort_perm a))).
  apply List.seq_NoDup.
Qed.

Lemma argsort_nth_lt (a : list Q) (t : nat) :
  t < length a -> nth t (argsort a) 0 < length a.
Proof.
  intros Ht. apply argsort_lt, nth_In. now rewrite argsort_length.
Qed.

(** Every position is met by the sorting permutation. *)
Lemma argsort_onto (a : list Q) (i : nat) :
  i < length a -> exists t, t < length a /\ nth t (argsort a) 0 = i.
Proof.
  intros Hi.
  assert (Hin : In i (argsort a)).
  { apply (Permutation_in _ (Permutation_sym (argsort_perm a))).
    apply in_seq. lia. }
  destruct (In_nth _ _ 0 Hin) as (t & Ht & Hnth).
  exists t. split; [now rewrite <- argsort_length | exact Hnth].
Qed.

Lemma raw_fdr_length (z_sorted : list Q) :
  length (raw_fdr sf z_sorted) = length z_sorted.
Proof.
  unfold raw_fdr. rewrite length_zip_with_same;
    now rewrite ?length_map, ?linspace_length.
Qed.

(** The result of [fdr_pvalues], read along the sorting permutation, is
    the sequence of suffix minima. *)
Lemma fdr_pvalues_char (z_vals : list Q) :
  z_vals <> [] ->
  let order := argsort (map Qopp z_vals) in
  exists fdr,
    fdr_pvalues sf argsort z_vals = Ok fdr
    /\ length fdr = length z_vals
    /\ forall t, t < length z_vals ->
         nth (nth t order 0) fdr 0%Q
         = nth t (suffix_min (raw_fdr sf (take_idx z_vals order))) 0%Q.
Proof.
  intros Hne order. set (n := length z_vals).
  assert (Hn : n <> 0) by (unfold n; destruct z_vals; cbn; congruence).
  assert (Hord : length order = n)
    by (unfold order; now rewrite argsort_length, length_map).
  unfold fdr_pvalues. fold order n.
  destruct (Nat.eqb_spec n 0) as [|_]; [contradiction|].
  destruct (scatter_spec order 0 (replicate n 0)) as (Hlen & Hinv & _).
  { apply argsort_NoDup. }
  { apply Forall_forall. intros i Hi. rewrite length_replicate.
    apply list_elem_of_In, argsort_lt in Hi. now rewrite length_map in Hi. }
  rewrite length_replicate in Hlen.
  eexists. split; [reflexivity|]. split.
  - now rewrite take_idx_length.
  - intros t Ht. rewrite nth_take_idx.
    + rewrite Hinv by lia. cbn [Nat.add].
      unfold raw_fdr. rewrite take_idx_length, Hord.
      set (raw := zip_with _ _ _).
      assert (Hraw : length raw = n).
      { unfold raw. rewrite length_zip_with_same;
          rewrite ?length_map, ?take_idx_length, ?linspace_length; lia. }
      now rewrite <- Hraw at 1; rewrite sweep_loop_suffix_min.
    + rewrite Hlen. unfold order, n.
      rewrite <- (length_map Qopp z_vals). apply argsort_nth_lt.
      now rewrite length_map.
Qed.

(** The values taken along [argsort (- z_vals)] decrease. *)
Lemma take_desc (z_vals : list Q) (t u : nat) :
  t <= u -> u < length z_vals ->
  let z_sorted := take_idx z_vals (argsort (map Qopp z_vals)) in
  (nth u z_sorted 0 <= nth t z_sorted 0)%Q.
Proof.
  intros Htu Hu z_sorted.
  destruct (Nat.eq_dec t u) as [->|Hne]; [apply Qle_refl|].
  unfold z_sorted. rewrite !nth_take_idx
    by (rewrite argsort_length, length_map; lia).
  pose proof (StronglySorted_nth _ _ t u 0
                (argsort_sorted (map Qopp z_vals))) as H.
  unfold key_le in H. rewrite !nth_map_opp in H.
  specialize (H ltac:(lia)).
  rewrite argsort_length, length_map in H. specialize (H Hu). lra.
Qed.

Lemma rank_bounds (n u : nat) :
  u < n ->
  let l := nth u (linspace (1 / Qnat n) 1 n) 0%Q in (0 < l /\ l <= 1)%Q.
Proof.
  intros Hu l. unfold l. rewrite linspace_rank by exact Hu.
  pose proof (Qnat_nonneg u) as H0. pose proof (Qnat_lt u n Hu) as H1.
  split.
  - apply Qlt_shift_div_l; lra.
  - apply Qle_shift_div_r; lra.
Qed.

Lemma nth_raw_fdr (z_sorted : list Q) (u : nat) :
  u < length z_sorted ->
  nth u (raw_fdr sf z_sorted) 0%Q
  = Qmin 1
      (sf (nth u z_sorted 0)
       / nth u (linspace (1 / Qnat (length z_sorted)) 1 (length z_sorted)) 0)%Q.
Proof.
  intros Hu. unfold raw_fdr.
  rewrite (nth_zip_with _ _ _ _ (sf 0) 0%Q)
    by (now rewrite ?length_map, ?linspace_length).
  now rewrite (map_nth sf).
Qed.

Hypothesis sf_range : forall x, (0 <= sf x <= 1)%Q.

(** Dividing a p-value by a rank in (0, 1] and capping at one cannot
    take it below itself. *)
Lemma raw_fdr_ge (z_sorted : list Q) (u : nat) :
  u < length z_sorted ->
  (sf (nth u z_sorted 0) <= nth u (raw_fdr sf z_sorted) 0)%Q.
Proof.
  intros Hu. rewrite nth_raw_fdr by exact Hu.
  destruct (rank_bounds _ _ Hu) as [Hl0 Hl1].
  destruct (sf_range (nth u z_sorted 0%Q)) as [Hp0 Hp1].
  apply Q.min_glb; [exact Hp1|].
  apply Qle_shift_div_l; [exact Hl0|]. nra.
Qed.

Hypothesis sf_antitone : forall x y, (x <= y)%Q -> (sf y <= sf x)%Q.

(** C10: on a non-empty array [fdr_pvalues] returns an array of the
    same length, and each corrected p-value is at least the uncorrected
    survival-function p-value of the same entry. *)
Theorem fdr_pvalues_ge_pvalue (z_vals : list Q) :
  z_vals <> [] ->
  exists fdr,
    fdr_pvalues sf argsort z_vals = Ok fdr
    /\ length fdr = length z_vals
    /\ forall i, i < length z_vals ->
         (sf (nth i z_vals 0) <= nth i fdr 0)%Q.
Proof.
  intros Hne.
  destruct (fdr_pvalues_char z_vals Hne) as (fdr & Hfdr & Hlen & Hchar).
  exists fdr. split; [exact Hfdr|]. split; [exact Hlen|].
  intros i Hi.
  destruct (argsort_onto (map Qopp z_vals) i) as (t & Ht & Hti);
    [now rewrite length_map|].
  rewrite length_map in Ht.
  rewrite <- Hti at 2. rewrite Hchar by exact Ht.
  set (z_sorted := take_idx z_vals (argsort (map Qopp z_vals))).
  assert (Hs : length z_sorted = length z_vals)
    by (unfold z_sorted; now rewrite take_idx_length, argsort_length,
          length_map).
  assert (Hzi : nth i z_vals 0%Q = nth t z_sorted 0%Q).
  { unfold z_sorted. rewrite nth_take_idx, Hti; [reflexivity|].
    now rewrite argsort_length, length_map. }
  rewrite Hzi. apply suffix_min_glb; [rewrite raw_fdr_length; lia|].
  intros u Htu Hu. rewrite raw_fdr_length in Hu.
  apply Qle_trans with (sf (nth u z_sorted 0%Q)).
  - apply sf_antitone, take_desc; lia.
  - apply raw_fdr_ge. exact Hu.
Qed.

Lemma take_desc_sorted (z_vals : list Q) :
  StronglySorted (fun x y => (y <= x)%Q)
    (take_idx z_vals (argsort (map Qopp z_vals))).
Proof.
  unfold take_idx.
  induction (argsort_sorted (map Qopp z_vals)) as [|i l Hl IH Hi]; cbn;
    constructor; [exact IH|].
  apply Forall_map. eapply Forall_impl; [exact Hi|].
  cbn. intros j. unfold key_le. rewrite !nth_map_opp. lra.
Qed.

Lemma take_desc_perm (z_vals : list Q) :
  Permutation (take_idx z_vals (argsort (map Qopp z_vals))) z_vals.
Proof.
  apply take_idx_perm. rewrite <- (length_map Qopp). apply argsort_perm.
Qed.

Lemma rank_mono (n u b : nat) :
  u <= b -> b < n ->
  (nth u (linspace (1 / Qnat n) 1 n) 0
   <= nth b (linspace (1 / Qnat n) 1 n) 0)%Q.
Proof.
  intros Hub Hb. rewrite !linspace_rank by lia.
  assert (HU : (Qnat u <= Qnat b)%Q).
  { destruct (Nat.eq_dec u b) as [->|Hne]; [apply Qle_refl|].
    pose proof (Qnat_lt u b ltac:(lia)). lra. }
  pose proof (Qnat_lt b n Hb) as HN. pose proof (Qnat_nonneg b) as HB.
  assert (Hinv : (0 < / Qnat n)%Q) by (apply Qinv_lt_0_compat; lra).
  unfold Qdiv. nra.
Qed.

Hypothesis sf_compat : forall x y, (x == y)%Q -> (sf x == sf y)%Q.

Lemma raw_fdr_ext (zs zs' : list Q) (u : nat) :
  length zs = length zs' ->
  (forall i, (nth i zs 0 == nth i zs' 0)%Q) ->
  u < length zs ->
  (nth u (raw_fdr sf zs) 0 == nth u (raw_fdr sf zs') 0)%Q.
Proof.
  intros Hlen Hext Hu. rewrite !nth_raw_fdr by lia. rewrite <- Hlen.
  apply Q.min_compat; [reflexivity|].
  now rewrite (sf_compat _ _ (Hext u)).
Qed.

(** Entries that tie in the statistic: the one of lower rank has the
    larger value before the sweep. *)
Lemma raw_fdr_tie (zs : list Q) (u b : nat) :
  u <= b -> b < length zs -> (nth u zs 0 == nth b zs 0)%Q ->
  (nth b (raw_fdr sf zs) 0 <= nth u (raw_fdr sf zs) 0)%Q.
Proof.
  intros Hub Hb Htie. rewrite !nth_raw_fdr by lia.
  apply Q.min_le_compat_l. rewrite (sf_compat _ _ Htie).
  destruct (sf_range (nth b zs 0%Q)) as [Hp0 _].
  destruct (rank_bounds (length zs) u ltac:(lia)) as [Hu0 _].
  destruct (rank_bounds (length zs) b Hb) as [Hb0 _].
  pose proof (rank_mono _ u b Hub Hb) as Hmono.
  set (p := sf (nth b zs 0%Q)) in *.
  set (lu := nth u (linspace _ _ _) 0%Q) in *.
  set (lb := nth b (linspace _ _ _) 0%Q) in *.
  apply Qle_shift_div_r; [exact Hb0|].
  assert (Hq0 : (0 <= p / lu)%Q) by (apply Qle_shift_div_l; lra).
  assert (Hq : (p / lu * lu == p)%Q) by (field; lra).
  nra.
Qed.

(** After the sweep, entries that tie in the statistic have the same
    corrected p-value. *)
Lemma swept_tie (zs : list Q) (a b : nat) :
  StronglySorted (fun x y => (y <= x)%Q) zs ->
  a <= b -> b < length zs -> (nth a zs 0 == nth b zs 0)%Q ->
  (nth a (suffix_min (raw_fdr sf zs)) 0
   == nth b (suffix_min (raw_fdr sf zs)) 0)%Q.
Proof.
  intros Hs Hab Hb Htie.
  apply suffix_min_tie; [exact Hab | now rewrite raw_fdr_length|].
  intros u Hau Hub.
  apply Qle_trans with (nth b (raw_fdr sf zs) 0%Q).
  - apply suffix_min_head. now rewrite raw_fdr_length.
  - apply raw_fdr_tie; [lia | exact Hb|].
    pose proof (StronglySorted_nth _ _ u b 0%Q Hs Hub Hb) as H1.
    destruct (Nat.eq_dec a u) as [->|Hne]; [exact Htie|].
    pose proof (StronglySorted_nth _ _ a u 0%Q Hs ltac:(lia) ltac:(lia))
      as H2.
    cbv beta in H1, H2. lra.
Qed.

(** C6: [fdr_pvalues] commutes with sorting.  Applied to the array
    sorted descending and mapped back through the inverse of the
    sorting permutation, it gives, entry by entry, the same numbers as
    applied to the unsorted array, whatever order [argsort] gives to
    tied values. *)
Theorem fdr_pvalues_commutes_with_sorting (z_vals : list Q) :
  z_vals <> [] ->
  let order := argsort (map Qopp z_vals) in
  let z_sorted := take_idx z_vals order in
  let inv_order := scatter order 0 (replicate (length z_vals) 0) in
  StronglySorted (fun x y => (y <= x)%Q) z_sorted
  /\ (forall t, t < length z_vals -> nth (nth t order 0) inv_order 0 = t)
  /\ exists direct on_sorted,
       fdr_pvalues sf argsort z_vals = Ok direct
       /\ fdr_pvalues sf argsort z_sorted = Ok on_sorted
       /\ Forall2 Qeq (take_idx on_sorted inv_order) direct.
Proof.
  intros Hne order z_sorted inv_order. set (n := length z_vals).
  assert (Hn : n <> 0) by (unfold n; destruct z_vals; cbn; congruence).
  assert (Hord : length order = n)
    by (unfold order; now rewrite argsort_length, length_map).
  assert (Hzs : length z_sorted = n)
    by (unfold z_sorted; now rewrite take_idx_length).
  assert (Hne' : z_sorted <> []) by (intros E; rewrite E in Hzs; cbn in Hzs; lia).
  destruct (scatter_spec order 0 (replicate n 0)) as (Hilen & Hinv & _).
  { apply argsort_NoDup. }
  { apply Forall_forall. intros i Hi. rewrite length_replicate.
    apply list_elem_of_In, argsort_lt in Hi. now rewrite length_map in Hi. }
  rewrite length_replicate in Hilen.
  rewrite Hord in Hinv. cbn [Nat.add] in Hinv.
  change (scatter order 0 (replicate n 0)) with inv_order in Hilen, Hinv.
  split; [apply take_desc_sorted|]. split; [exact Hinv|].
  destruct (fdr_pvalues_char z_vals Hne) as (direct & Hd & Hdl & Hdc).
  destruct (fdr_pvalues_char z_sorted Hne') as (on_sorted & Ho & Hol & Hoc).
  fold order z_sorted n in Hdc, Hdl. rewrite Hzs in Hoc, Hol.
  set (order' := argsort (map Qopp z_sorted)) in *.
  set (zs' := take_idx z_sorted order') in *.
  exists direct, on_sorted. split; [exact Hd|]. split; [exact Ho|].
  apply Forall2_Qeq_nth; [rewrite take_idx_length; lia|].
  rewrite take_idx_length, Hilen. intros i Hi.
  destruct (argsort_onto (map Qopp z_vals) i) as (t & Ht & Hti);
    [now rewrite length_map|].
  rewrite length_map in Ht. fold order in Hti. fold n in Ht.
  rewrite nth_take_idx by lia.
  rewrite <- Hti. rewrite Hinv, Hdc by exact Ht.
  destruct (argsort_onto (map Qopp z_sorted) t) as (m & Hm & Hmt);
    [now rewrite length_map, Hzs|].
  rewrite length_map, Hzs in Hm. fold order' in Hmt.
  rewrite <- Hmt at 1. rewrite Hoc by exact Hm.
  assert (Hzz : forall k, (nth k zs' 0 == nth k z_sorted 0)%Q).
  { apply desc_sorted_perm_Qeq.
    - apply take_desc_perm.
    - apply take_desc_sorted.
    - apply take_desc_sorted. }
  assert (Hzl : length zs' = n).
  { unfold zs', order'. now rewrite take_idx_length, argsort_length,
      length_map. }
  assert (Htie : (nth m z_sorted 0 == nth t z_sorted 0)%Q).
  { rewrite <- Hzz. unfold zs'. rewrite nth_take_idx, Hmt; [reflexivity|].
    unfold order'. now rewrite argsort_length, length_map, Hzs. }
  transitivity (nth m (suffix_min (raw_fdr sf z_sorted)) 0%Q).
  - apply suffix_min_ext.
    + now rewrite !raw_fdr_length, Hzl.
    + intros u Hu. rewrite raw_fdr_length in Hu.
      apply raw_fdr_ext; [lia | exact Hzz | exact Hu].
    + rewrite raw_fdr_length. lia.
  - destruct (Nat.le_gt_cases m t) as [Hle|Hgt].
    + apply swept_tie; [apply take_desc_sorted | exact Hle | lia | exact Htie].
    + symmetry. apply swept_tie;
        [apply take_desc_sorted | lia | lia | now symmetry].
Qed.

(** *** More on [fdr_threshold] *)

(** The two ways [fdr_threshold] ends on a non-empty array. *)
Lemma fdr_threshold_cases (z_vals : list Q) (alpha : Q) :
  z_vals <> [] ->
  let n := length z_vals in
  let z_vals_ := map Qopp (np_sort argsort (map Qopp z_vals)) in
  let qualifies := fun i =>
    (sf (nth i z_vals_ 0) < alpha * (((1 # 2) + Qnat i) / Qnat n))%Q in
  (fdr_threshold sf argsort z_vals alpha = Ok PInf
   /\ forall i, i < n -> ~ qualifies i)
  \/ exists k,
       k < n /\ qualifies k
       /\ (forall i, k < i -> i < n -> ~ qualifies i)
       /\ fdr_threshold sf argsort z_vals alpha
          = Ok (Fin (nth k z_vals_ 0 - eps)%Q).
Proof.
  intros Hne n z_vals_ qualifies.
  assert (Hlen : length z_vals_ = n).
  { unfold z_vals_. now rewrite length_map, np_sort_length, length_map. }
  assert (Hn : n <> 0) by (unfold n; destruct z_vals; cbn; congruence).
  unfold fdr_threshold. fold z_vals_. rewrite length_map, Hlen.
  destruct (Nat.eqb_spec n 0) as [|_]; [contradiction|].
  set (pos := zip_with _ _ _).
  assert (Hpos : forall i, i < n -> nth i pos false = true <-> qualifies i)
    by (intros i Hi; apply fdr_threshold_pos, Hi).
  assert (Hposlen : length pos = n).
  { unfold pos. rewrite length_zip_with_same;
      rewrite ?length_map, ?linspace_length; lia. }
  destruct (existsb id pos) eqn:Epos.
  - right.
    destruct (last_select z_vals_ pos 0%Q ltac:(lia) Epos)
      as (k & Hk & Hkt & Hafter & Hlast).
    exists k. rewrite Hposlen in Hk.
    split; [exact Hk|]. split; [now apply Hpos|]. split; [|now rewrite Hlast].
    intros i Hki Hi Hq. apply Hpos in Hq; [|exact Hi].
    rewrite Hafter in Hq by exact Hki. discriminate.
  - left. split; [reflexivity|].
    intros i Hi Hq. apply Hpos in Hq; [|exact Hi].
    rewrite existsb_nth_false in Hq by exact Epos. discriminate.
Qed.

Lemma sorted_desc_nth_le (z_vals : list Q) (i k : nat) :
  i <= k -> k < length z_vals ->
  let z_vals_ := map Qopp (np_sort argsort (map Qopp z_vals)) in
  (nth k z_vals_ 0 <= nth i z_vals_ 0)%Q.
Proof.
  intros Hik Hk z_vals_.
  destruct (Nat.eq_dec i k) as [->|Hne]; [apply Qle_refl|].
  apply (StronglySorted_nth (fun x y => (y <= x)%Q));
    [apply sorted_desc_sorted | lia|].
  unfold z_vals_. now rewrite length_map, np_sort_length, length_map.
Qed.

(** X1: [fdr_threshold] is non-increasing in [alpha]: a larger level
    gives a threshold that is at most the one of a smaller level
    ([+inf], "nothing passes", being the largest threshold). *)
Theorem fdr_threshold_antitone_alpha (z_vals : list Q) (alpha alpha' : Q) :
  z_vals <> [] -> (alpha <= alpha')%Q ->
  exists t t',
    fdr_threshold sf argsort z_vals alpha = Ok t
    /\ fdr_threshold sf argsort z_vals alpha' = Ok t'
    /\ ext_le t' t.
Proof.
  intros Hne Hle.
  assert (Hn : 0 < length z_vals) by (destruct z_vals; cbn; [congruence|lia]).
  assert (Hmono : forall i, i < length z_vals -> forall p,
             (p < alpha * (((1 # 2) + Qnat i) / Qnat (length z_vals)))%Q ->
             (p < alpha' * (((1 # 2) + Qnat i) / Qnat (length z_vals)))%Q).
  { intros i Hi p Hp.
    assert (H0 : (0 < ((1 # 2) + Qnat i) / Qnat (length z_vals))%Q).
    { pose proof (Qnat_nonneg i). pose proof (Qnat_lt 0 _ Hn) as HN.
      change (Qnat 0) with 0%Q in HN. apply Qlt_shift_div_l; lra. }
    nra. }
  destruct (fdr_threshold_cases z_vals alpha Hne)
    as [[E Hnone] | (k & Hk & Hqk & Hlast & E)];
    destruct (fdr_threshold_cases z_vals alpha' Hne)
      as [[E' Hnone'] | (k' & Hk' & Hqk' & Hlast' & E')];
    rewrite E, E'; eexists _, _; (split; [reflexivity|]);
    (split; [reflexivity|]); cbn; trivial.
  - exfalso. apply (Hnone' k Hk). now apply Hmono.
  - assert (Hkk : k <= k').
    { destruct (Nat.le_gt_cases k k') as [H|H]; [exact H|].
      exfalso. apply (Hlast' k H Hk). now apply Hmono. }
    pose proof (sorted_desc_nth_le z_vals k k' Hkk Hk') as Hz.
    cbv zeta in Hz. lra.
Qed.

Lemma fdr_threshold_raise (z_vals : list Q) (alpha : Q) (e : exn) :
  fdr_threshold sf argsort z_vals alpha = Raise e ->
  z_vals = [] /\ e = ZeroDivisionError.
Proof.
  unfold fdr_threshold. rewrite length_map, length_map, np_sort_length,
    length_map.
  destruct z_vals as [|z z_vals]; cbn [length Nat.eqb].
  - now intros [= <-].
  - now destruct (existsb _ _).
Qed.

Lemma fdr_threshold_nil (alpha : Q) :
  fdr_threshold sf argsort [] alpha = Raise ZeroDivisionError.
Proof.
  unfold fdr_threshold. now rewrite length_map, length_map, np_sort_length.
Qed.

Lemma fdr_pvalues_raise (z_vals : list Q) (e : exn) :
  fdr_pvalues sf argsort z_vals = Raise e ->
  z_vals = [] /\ e = ZeroDivisionError.
Proof.
  unfold fdr_pvalues. destruct z_vals as [|z z_vals]; cbn [length Nat.eqb].
  - now intros [= <-].
  - discriminate.
Qed.

(** X4: the only exception of [fdr_threshold] and of [fdr_pvalues] is
    the [ZeroDivisionError] of an empty array. *)
Theorem fdr_raise_iff_empty (z_vals : list Q) (alpha : Q) (e : exn) :
  (fdr_threshold sf argsort z_vals alpha = Raise e
   <-> z_vals = [] /\ e = ZeroDivisionError)
  /\ (fdr_pvalues sf argsort z_vals = Raise e
      <-> z_vals = [] /\ e = ZeroDivisionError).
Proof.
  split; split.
  - apply fdr_threshold_raise.
  - intros [-> ->]. unfold fdr_threshold.
    now rewrite length_map, length_map, np_sort_length.
  - apply fdr_pvalues_raise.
  - now intros [-> ->].
Qed.

(** X3: [fdr_threshold] depends only on the values of the array, not on
    their arrangement. *)
Theorem fdr_threshold_permutation (z_vals z_vals' : list Q) (alpha : Q) :
  z_vals <> [] -> Permutation z_vals z_vals' ->
  exists t t',
    fdr_threshold sf argsort z_vals alpha = Ok t
    /\ fdr_threshold sf argsort z_vals' alpha = Ok t'
    /\ ext_eq t t'.
Proof.
  intros Hne Hp.
  pose proof (Permutation_length Hp) as Hlen.
  assert (Hne' : z_vals' <> []).
  { intros ->. apply Permutation_sym, Permutation_nil in Hp. contradiction. }
  assert (Hzz : forall i,
             (nth i (map Qopp (np_sort argsort (map Qopp z_vals))) 0
              == nth i (map Qopp (np_sort argsort (map Qopp z_vals'))) 0)%Q).
  { apply desc_sorted_perm_Qeq; try apply sorted_desc_sorted.
    etransitivity; [apply sorted_desc_perm|].
    etransitivity; [exact Hp|]. symmetry. apply sorted_desc_perm. }
  assert (Hq : forall i,
             (sf (nth i (map Qopp (np_sort argsort (map Qopp z_vals))) 0)
              < alpha * (((1 # 2) + Qnat i) / Qnat (length z_vals)))%Q
             <-> (sf (nth i (map Qopp (np_sort argsort (map Qopp z_vals'))) 0)
                  < alpha * (((1 # 2) + Qnat i) / Qnat (length z_vals')))%Q).
  { intros i. rewrite <- Hlen. now rewrite (sf_compat _ _ (Hzz i)). }
  destruct (fdr_threshold_cases z_vals alpha Hne)
    as [[E Hnone] | (k & Hk & Hqk & Hlast & E)];
    destruct (fdr_threshold_cases z_vals' alpha Hne')
      as [[E' Hnone'] | (k' & Hk' & Hqk' & Hlast' & E')];
    rewrite E, E'; eexists _, _; (split; [reflexivity|]);
    (split; [reflexivity|]); cbn; trivial.
  - apply (Hnone k'); [lia | now apply Hq].
  - apply (Hnone' k); [lia | now apply Hq].
  - assert (Hkk : k = k').
    { destruct (Nat.lt_trichotomy k k') as [H|[H|H]]; [|exact H|].
      - exfalso. apply (Hlast k' H); [lia | now apply Hq].
      - exfalso. apply (Hlast' k H); [lia | now apply Hq]. }
    subst k'. rewrite (Hzz k). reflexivity.
Qed.

(** *** More on [fdr_pvalues] *)

(** Every entry of the result of [fdr_pvalues] is the suffix minimum at
    the rank of its statistic. *)
Lemma fdr_pvalues_rank (z_vals : list Q) :
  z_vals <> [] ->
  let z_sorted := take_idx z_vals (argsort (map Qopp z_vals)) in
  exists fdr,
    fdr_pvalues sf argsort z_vals = Ok fdr
    /\ length fdr = length z_vals
    /\ length z_sorted = length z_vals
    /\ forall i, i < length z_vals ->
         exists t, t < length z_vals
           /\ nth i z_vals 0%Q = nth t z_sorted 0%Q
           /\ nth i fdr 0%Q = nth t (suffix_min (raw_fdr sf z_sorted)) 0%Q.
Proof.
  intros Hne z_sorted.
  destruct (fdr_pvalues_char z_vals Hne) as (fdr & Hfdr & Hlen & Hchar).
  exists fdr. split; [exact Hfdr|]. split; [exact Hlen|].
  split; [unfold z_sorted;
          now rewrite take_idx_length, argsort_length, length_map|].
  intros i Hi.
  destruct (argsort_onto (map Qopp z_vals) i) as (t & Ht & Hti);
    [now rewrite length_map|].
  rewrite length_map in Ht. exists t. split; [exact Ht|]. split.
  - unfold z_sorted. rewrite nth_take_idx, Hti; [reflexivity|].
    now rewrite argsort_length, length_map.
  - rewrite <- Hti. now apply Hchar.
Qed.

(** X5: the corrected p-values of [fdr_pvalues] are a non-increasing
    function of the statistic: an entry that is at least another has a
    corrected p-value that is at most the other's, so tied entries get
    the same one. *)
Theorem fdr_pvalues_antitone (z_vals : list Q) :
  z_vals <> [] ->
  exists fdr,
    fdr_pvalues sf argsort z_vals = Ok fdr
    /\ forall i j, i < length z_vals -> j < length z_vals ->
         (nth j z_vals 0 <= nth i z_vals 0)%Q ->
         (nth i fdr 0 <= nth j fdr 0)%Q.
Proof.
  intros Hne.
  destruct (fdr_pvalues_rank z_vals Hne) as (fdr & Hfdr & _ & Hzs & Hrank).
  exists fdr. split; [exact Hfdr|]. intros i j Hi Hj Hle.
  destruct (Hrank i Hi) as (t & Ht & Hzi & Hfi).
  destruct (Hrank j Hj) as (u & Hu & Hzj & Hfj).
  rewrite Hfi, Hfj. rewrite Hzi, Hzj in Hle.
  destruct (Nat.le_gt_cases t u) as [Htu|Hut].
  - apply suffix_min_mono; [exact Htu|]. rewrite raw_fdr_length. lia.
  - pose proof (take_desc z_vals u t ltac:(lia) Ht) as Hd. cbv zeta in Hd.
    apply Qle_lteq. right. symmetry.
    apply swept_tie; [apply take_desc_sorted | lia | lia | lra].
Qed.


(** X7: an entry that is at most every entry of the array is not
    corrected: its value in the result of [fdr_pvalues] is its
    survival-function p-value. *)
Theorem fdr_pvalues_smallest (z_vals : list Q) (i : nat) :
  i < length z_vals ->
  (forall j, j < length z_vals -> (nth i z_vals 0 <= nth j z_vals 0)%Q) ->
  exists fdr,
    fdr_pvalues sf argsort z_vals = Ok fdr
    /\ (nth i fdr 0 == sf (nth i z_vals 0))%Q.
Proof.
  intros Hi Hmin.
  assert (Hne : z_vals <> []) by (intros ->; cbn in Hi; lia).
  destruct (fdr_pvalues_rank z_vals Hne) as (fdr & Hfdr & _ & Hzs & Hrank).
  exists fdr. split; [exact Hfdr|].
  destruct (Hrank i Hi) as (t & Ht & Hzi & Hfi).
  rewrite Hfi, Hzi. rewrite Hzi in Hmin.
  set (zs := take_idx z_vals (argsort (map Qopp z_vals))) in *.
  set (b := length z_vals - 1).
  assert (Hb : S b = length z_vals) by (unfold b; lia).
  assert (Htie : (nth t zs 0 == nth b zs 0)%Q).
  { pose proof (take_desc z_vals t b ltac:(lia) ltac:(lia)) as Hd.
    cbv zeta in Hd. fold zs in Hd.
    assert (Hin : In (nth b zs 0%Q) z_vals).
    { apply (Permutation_in _ (take_desc_perm z_vals)), nth_In.
      fold zs. lia. }
    destruct (In_nth _ _ 0%Q Hin) as (j & Hj & Ej).
    specialize (Hmin j Hj). rewrite Ej in Hmin. lra. }
  rewrite (swept_tie zs t b (take_desc_sorted z_vals)
             ltac:(lia) ltac:(lia) Htie).
  rewrite suffix_min_last by (rewrite raw_fdr_length; lia).
  rewrite nth_raw_fdr by lia. rewrite Hzs.
  rewrite (sf_compat _ _ Htie).
  destruct (sf_range (nth b zs 0%Q)) as [Hp0 Hp1].
  pose proof (linspace_rank (length z_vals) b ltac:(lia)) as Hl.
  assert (HN : (Qnat (length z_vals) == Qnat b + 1)%Q)
    by (rewrite <- Hb; apply Qnat_S).
  pose proof (Qnat_nonneg b) as HB.
  set (p := sf (nth b zs 0%Q)) in *.
  set (l := nth b (linspace _ _ _) 0%Q) in *.
  assert (Hl1 : (l == 1)%Q) by (rewrite Hl, HN; field; lra).
  assert (Hpl : (p / l == p)%Q) by (rewrite Hl1; field).
  rewrite Hpl. apply Q.min_r. exact Hp1.
Qed.

(** *** More on [empirical_pvalue] *)

Lemma Qnat_mono (n m : nat) : n <= m -> (Qnat n <= Qnat m)%Q.
Proof. intros H. unfold Qnat. rewrite <- Zle_Qle. lia. Qed.

Lemma Qnat_inj (n m : nat) : (Qnat n == Qnat m)%Q -> n = m.
Proof. unfold Qnat. rewrite inject_Z_injective. lia. Qed.

Lemma count_below_le (v : Q) (ref : list Q) :
  count_below v ref <= length ref.
Proof.
  unfold count_below. induction ref as [|r ref IH]; cbn; [lia|].
  destruct (Qltb r v); cbn; lia.
Qed.

Lemma count_below_mono (v v' : Q) (ref : list Q) :
  (v <= v')%Q -> count_below v ref <= count_below v' ref.
Proof.
  intros Hv. unfold count_below. induction ref as [|r ref IH]; cbn; [lia|].
  destruct (Qltb r v) eqn:E; destruct (Qltb r v') eqn:E'; cbn; try lia.
  apply Qltb_lt in E. apply Qltb_ge in E'. lra.
Qed.

Lemma count_below_all (v : Q) (ref : list Q) :
  count_below v ref = length ref <-> Forall (fun r => (r < v)%Q) ref.
Proof.
  unfold count_below. induction ref as [|r ref IH]; cbn.
  - split; [constructor | reflexivity].
  - pose proof (count_below_le v ref) as Hle. unfold count_below in Hle.
    destruct (Qltb r v) eqn:E; cbn.
    + apply Qltb_lt in E. split.
      * intros H. constructor; [exact E | apply IH; lia].
      * intros H. apply Forall_cons in H as [_ H]. apply IH in H. lia.
    + apply Qltb_ge in E. split; [lia|].
      intros H. apply Forall_cons in H as [H _]. lra.
Qed.

Lemma count_below_none (v : Q) (ref : list Q) :
  count_below v ref = 0 <-> Forall (fun r => (v <= r)%Q) ref.
Proof.
  split; [|apply count_below_min].
  unfold count_below. induction ref as [|r ref IH]; cbn; [constructor|].
  destruct (Qltb r v) eqn:E; cbn; [discriminate|].
  apply Qltb_ge in E. intros H. constructor; [exact E | now apply IH].
Qed.

(** X8: [empirical_pvalue] is [nan] exactly on an empty reference
    array, and otherwise a number in [0, 1]. *)
Theorem empirical_pvalue_range (z_score : Q) (ref : list Q) :
  (empirical_pvalue argsort z_score ref = NaN <-> ref = [])
  /\ (ref <> [] ->
      exists q, empirical_pvalue argsort z_score ref = Fin q
                /\ (0 <= q <= 1)%Q).
Proof.
  split.
  - split.
    + intros H. destruct ref as [|r ref]; [reflexivity|].
      rewrite empirical_pvalue_eq in H by discriminate. discriminate.
    + now intros ->.
  - intros Hne. rewrite empirical_pvalue_eq by exact Hne.
    eexists. split; [reflexivity|].
    assert (Hn : 0 < length ref) by (destruct ref; cbn; [congruence|lia]).
    pose proof (Qnat_lt 0 _ Hn) as HN. change (Qnat 0) with 0%Q in HN.
    pose proof (Qnat_mono _ _ (count_below_le z_score ref)) as Hc.
    pose proof (Qnat_nonneg (count_below z_score ref)) as H0.
    set (c := Qnat (count_below z_score ref)) in *.
    set (n := Qnat (length ref)) in *.
    assert (Hd0 : (0 <= c * 1 / n)%Q) by (apply Qle_shift_div_l; lra).
    assert (Hd1 : (c * 1 / n <= 1)%Q) by (apply Qle_shift_div_r; lra).
    lra.
Qed.

(** X9: [empirical_pvalue] is non-increasing in the observed value. *)
Theorem empirical_pvalue_antitone (z_score z_score' : Q) (ref : list Q) :
  ref <> [] -> (z_score <= z_score')%Q ->
  exists q q',
    empirical_pvalue argsort z_score ref = Fin q
    /\ empirical_pvalue argsort z_score' ref = Fin q'
    /\ (q' <= q)%Q.
Proof.
  intros Hne Hle. rewrite !empirical_pvalue_eq by exact Hne.
  eexists _, _. split; [reflexivity|]. split; [reflexivity|].
  assert (Hn : 0 < length ref) by (destruct ref; cbn; [congruence|lia]).
  pose proof (Qnat_lt 0 _ Hn) as HN. change (Qnat 0) with 0%Q in HN.
  pose proof (Qnat_mono _ _ (count_below_mono _ _ ref Hle)) as Hc.
  set (c := Qnat (count_below z_score ref)) in *.
  set (c' := Qnat (count_below z_score' ref)) in *.
  set (n := Qnat (length ref)) in *.
  assert (Hinv : (0 < / n)%Q) by (apply Qinv_lt_0_compat; lra).
  unfold Qdiv. nra.
Qed.

(** X10: [empirical_pvalue] depends only on the values of the reference
    array, not on their arrangement. *)
Theorem empirical_pvalue_permutation (z_score : Q) (ref ref' : list Q) :
  Permutation ref ref' ->
  empirical_pvalue argsort z_score ref
  = empirical_pvalue argsort z_score ref'.
Proof.
  intros Hp. unfold empirical_pvalue.
  rewrite !(searchsorted_count _ _ (np_sort_sorted _)).
  rewrite (count_below_perm _ _ _ (np_sort_perm ref)).
  rewrite (count_below_perm _ _ _ (np_sort_perm ref')).
  now rewrite (count_below_perm _ _ _ Hp), (Permutation_length Hp).
Qed.

(** X11: on a non-empty reference array [empirical_pvalue] is 0 exactly
    when the observed value is strictly above every reference value, and
    1 exactly when it is above none of them. *)
Theorem empirical_pvalue_extremes (z_score : Q) (ref : list Q) :
  ref <> [] ->
  exists q,
    empirical_pvalue argsort z_score ref = Fin q
    /\ ((q == 0)%Q <-> Forall (fun r => (r < z_score)%Q) ref)
    /\ ((q == 1)%Q <-> Forall (fun r => (z_score <= r)%Q) ref).
Proof.
  intros Hne. rewrite empirical_pvalue_eq by exact Hne.
  eexists. split; [reflexivity|].
  rewrite <- count_below_all, <- count_below_none.
  assert (Hn : 0 < length ref) by (destruct ref; cbn; [congruence|lia]).
  pose proof (Qnat_lt 0 _ Hn) as HN. change (Qnat 0) with 0%Q in HN.
  assert (Hd : (Qnat (count_below z_score ref) * 1 / Qnat (length ref)
                * Qnat (length ref)
                == Qnat (count_below z_score ref))%Q) by (field; lra).
  set (d := (Qnat (count_below z_score ref) * 1 / Qnat (length ref))%Q) in *.
  split; split.
  - intros Hq. apply Qnat_inj. assert (Hd1 : (d == 1)%Q) by lra.
    rewrite Hd1 in Hd. lra.
  - intros E. rewrite E in Hd. assert (Hd1 : (d == 1)%Q) by nra. lra.
  - intros Hq. apply Qnat_inj. assert (Hd0 : (d == 0)%Q) by lra.
    rewrite Hd0 in Hd. change (Qnat 0) with 0%Q. lra.
  - intros E. rewrite E in Hd. change (Qnat 0) with 0%Q in Hd.
    assert (Hd0 : (d == 0)%Q) by nra. lra.
Qed.

(** *** [fdr_threshold] and [fdr_pvalues] together *)

Lemma sorted_desc_take (z_vals : list Q) :
  map Qopp (np_sort argsort (map Qopp z_vals))
  = take_idx z_vals (argsort (map Qopp z_vals)).
Proof. unfold np_sort. now rewrite take_idx_map_opp, map_opp_opp. Qed.

(** X18: the two corrections agree.  When [fdr_threshold] at level
    [alpha] is finite, every entry that is at least the threshold plus
    the [1.e-8] it was lowered by has a corrected p-value from
    [fdr_pvalues] that is strictly below [alpha]. *)
Theorem fdr_threshold_controls_fdr_pvalues (z_vals : list Q) (alpha t : Q) :
  fdr_threshold sf argsort z_vals alpha = Ok (Fin t) ->
  exists fdr,
    fdr_pvalues sf argsort z_vals = Ok fdr
    /\ forall i, i < length z_vals -> (t + eps <= nth i z_vals 0)%Q ->
         (nth i fdr 0 < alpha)%Q.
Proof.
  intros Hres.
  assert (Hne : z_vals <> []).
  { intros ->. rewrite fdr_threshold_nil in Hres. discriminate. }
  destruct (fdr_threshold_cases z_vals alpha Hne)
    as [[E _] | (k & Hk & Hqk & _ & E)];
    rewrite E in Hres; [discriminate|].
  injection Hres as <-. rewrite sorted_desc_take in *.
  destruct (fdr_pvalues_rank z_vals Hne) as (fdr & Hfdr & _ & Hzs & Hrank).
  exists fdr. split; [exact Hfdr|]. intros i Hi Hge.
  destruct (Hrank i Hi) as (u & Hu & Hzi & Hfi).
  rewrite Hfi. rewrite Hzi in Hge.
  set (zs := take_idx z_vals (argsort (map Qopp z_vals))) in *.
  assert (Hraw : (nth k (raw_fdr sf zs) 0 < alpha)%Q).
  { rewrite nth_raw_fdr by lia. rewrite Hzs.
    destruct (sf_range (nth k zs 0%Q)) as [Hp0 _].
    destruct (rank_bounds (length z_vals) k Hk) as [Hl0 _].
    pose proof (linspace_rank (length z_vals) k Hk) as Hl.
    pose proof (Qnat_lt k _ Hk) as HN. pose proof (Qnat_nonneg k) as HK.
    assert (Hh0 : (0 < ((1 # 2) + Qnat k) / Qnat (length z_vals))%Q)
      by (apply Qlt_shift_div_l; lra).
    assert (Hh : (((1 # 2) + Qnat k) / Qnat (length z_vals)
                  * Qnat (length z_vals) == (1 # 2) + Qnat k)%Q)
      by (field; lra).
    set (p := sf (nth k zs 0%Q)) in *.
    set (l := nth k (linspace _ _ _) 0%Q) in *.
    set (h := (((1 # 2) + Qnat k) / Qnat (length z_vals))%Q) in *.
    assert (Hln : (l * Qnat (length z_vals) == 1 + Qnat k)%Q)
      by (rewrite Hl; field; lra).
    assert (Hhl : (h < l)%Q) by nra.
    assert (Ha : (0 < alpha)%Q) by nra.
    eapply Qle_lt_trans; [apply Q.le_min_r|].
    apply Qlt_shift_div_r; [exact Hl0|]. nra. }
  destruct (Nat.le_gt_cases u k) as [Huk|Hku].
  - eapply Qle_lt_trans; [|exact Hraw].
    apply suffix_min_le; [exact Huk | rewrite raw_fdr_length; lia].
  - pose proof (take_desc z_vals k u ltac:(lia) Hu) as Hd. cbv zeta in Hd.
    fold zs in Hd.
    assert (Htie : (nth k zs 0 == nth u zs 0)%Q) by lra.
    rewrite <- (swept_tie zs k u (take_desc_sorted z_vals)
                  ltac:(lia) ltac:(lia) Htie).
    eapply Qle_lt_trans; [|exact Hraw].
    apply suffix_min_head. rewrite raw_fdr_length. lia.
Qed.

End Sorting.

(** ** The dictionary of null distributions *)

Lemma set_default_present (k k' : string) (v v' : pyval) (d : dict) :
  d !! k' = Some v' -> set_default k v d !! k' = Some v'.
Proof.
  intros H. unfold set_default. case_bool_decide as E; [exact H|].
  rewrite lookup_insert_ne; [exact H|]. intros ->. apply E. now exists v'.
Qed.

Lemma set_default_is_Some (k : string) (v : pyval) (d : dict) :
  is_Some (set_default k v d !! k).
Proof.
  unfold set_default. case_bool_decide as E; [exact E|].
  rewrite lookup_insert_eq. now eexists.
Qed.

Lemma set_default_id (k : string) (v : pyval) (d : dict) :
  is_Some (d !! k) -> set_default k v d = d.
Proof. intros H. unfold set_default. now rewrite bool_decide_eq_true_2. Qed.

Lemma set_default_other (k k' : string) (v : pyval) (d : dict) :
  k <> k' -> set_default k v d !! k' = d !! k'.
Proof.
  intros H. unfold set_default. case_bool_decide; [reflexivity|].
  now apply lookup_insert_ne.
Qed.

Lemma with_defaults_present (k : string) (v : pyval) (d : dict) :
  d !! k = Some v -> with_defaults d !! k = Some v.
Proof.
  intros H. unfold with_defaults. now do 3 apply set_default_present.
Qed.

Lemma with_defaults_idem (d : dict) :
  with_defaults (with_defaults d) = with_defaults d.
Proof.
  unfold with_defaults at 1.
  rewrite (set_default_id "zmax").
  2:{ unfold with_defaults.
      destruct (set_default_is_Some "zmax" (PStr "bonferroni") d) as [v Hv].
      exists v. now do 2 apply set_default_present. }
  rewrite (set_default_id "smax").
  2:{ unfold with_defaults.
      destruct (set_default_is_Some "smax" PNone
                  (set_default "zmax" (PStr "bonferroni") d)) as [v Hv].
      exists v. now apply set_default_present. }
  apply set_default_id. unfold with_defaults. apply set_default_is_Some.
Qed.

Lemma step_store_lookup (l : loc) (k : string) (v : pyval) (s : store) :
  step_store l k v s !!! l = set_default k v (s !!! l).
Proof.
  unfold step_store, set_default.
  destruct (bool_decide (is_Some ((s !!! l) !! k))); [reflexivity|].
  apply lookup_total_insert_eq.
Qed.

Lemma step_store_cases (l : loc) (k : string) (v : pyval) (s : store) :
  step_store l k v s = s
  \/ step_store l k v s = <[l := set_default k v (s !!! l)]> s.
Proof.
  unfold step_store, set_default.
  destruct (bool_decide (is_Some ((s !!! l) !! k))); auto.
Qed.

Lemma filled_store_lookup (l : loc) (s : store) :
  filled_store l s !!! l = with_defaults (s !!! l).
Proof.
  unfold filled_store, with_defaults. now rewrite !step_store_lookup.
Qed.

Lemma filled_store_cases (l : loc) (s : store) :
  filled_store l s = s
  \/ filled_store l s = <[l := with_defaults (s !!! l)]> s.
Proof.
  pose proof (filled_store_lookup l s) as Hl. unfold filled_store in *.
  destruct (step_store_cases l "zmax" (PStr "bonferroni") s) as [E1|E1];
    rewrite E1 in *;
    (destruct (step_store_cases l "smax" PNone
                 (step_store l "zmax" (PStr "bonferroni") s)) as [E2|E2];
     rewrite E1 in E2; rewrite E2 in *);
    (destruct (step_store_cases l "s" PNone
                 (step_store l "smax" PNone
                    (step_store l "zmax" (PStr "bonferroni") s))) as [E3|E3];
     rewrite E1, E2 in E3; rewrite E3 in *);
    rewrite ?insert_insert_eq, ?lookup_total_insert_eq in *;
    auto; right; congruence.
Qed.

Lemma filled_store_other (l l' : loc) (s : store) :
  l' <> l -> filled_store l s !! l' = s !! l'.
Proof.
  intros Hne. destruct (filled_store_cases l s) as [->| ->]; [reflexivity|].
  now apply lookup_insert_ne.
Qed.

Lemma filled_store_idem (l : loc) (s : store) :
  filled_store l (filled_store l s) = filled_store l s.
Proof.
  assert (Hid : forall k v (t : store),
             is_Some ((t !!! l) !! k) -> step_store l k v t = t).
  { intros k v t H. unfold step_store. now rewrite bool_decide_eq_true_2. }
  set (t := filled_store l s).
  assert (Ht : t !!! l = with_defaults (s !!! l)) by apply filled_store_lookup.
  unfold filled_store at 1.
  rewrite (Hid "zmax"), (Hid "smax"), (Hid "s"); try reflexivity; rewrite Ht;
    unfold with_defaults.
  - apply set_default_is_Some.
  - destruct (set_default_is_Some "smax" PNone
                (set_default "zmax" (PStr "bonferroni") (s !!! l))) as [v Hv].
    exists v. now apply set_default_present.
  - destruct (set_default_is_Some "zmax" (PStr "bonferroni") (s !!! l))
      as [v Hv].
    exists v. now do 2 apply set_default_present.
Qed.

Lemma fill_defaults_run (l : loc) (s : store) :
  fill_defaults l s = (Ok tt, filled_store l s).
Proof.
  unfold fill_defaults, filled_store, step_store, bind, contains, setitem, ret.
  repeat (destruct (bool_decide _); cbn); reflexivity.
Qed.

(** ** Orderings, positions and selections *)

Lemma StronglySorted_of_nth {A : Type} (R : A -> A -> Prop) (l : list A)
    (d : A) :
  (forall i j, i < j -> j < length l -> R (nth i l d) (nth j l d)) ->
  StronglySorted R l.
Proof.
  induction l as [|x l IH]; intros H; constructor.
  - apply IH. intros i j Hij Hj. apply (H (S i) (S j)); cbn [length]; lia.
  - apply Forall_forall. intros y Hy.
    apply list_elem_of_In, (In_nth _ _ d) in Hy as (j & Hj & <-).
    apply (H 0 (S j)); cbn [length]; lia.
Qed.

Lemma sublist_Forall_impl {A : Type} (P : A -> Prop) (l k : list A) :
  sublist l k -> Forall P k -> Forall P l.
Proof.
  induction 1 as [|x l k Hs IH|x l k Hs IH]; intros Hk; [constructor| |].
  - apply Forall_cons in Hk as [Hx Hk]. constructor; auto.
  - apply Forall_cons in Hk as [_ Hk]. auto.
Qed.

Lemma sublist_StronglySorted {A : Type} (R : A -> A -> Prop)
    (l k : list A) :
  sublist l k -> StronglySorted R k -> StronglySorted R l.
Proof.
  induction 1 as [|x l k Hs IH|x l k Hs IH]; intros Hk; [constructor| |].
  - apply StronglySorted_inv in Hk as [Hk Hx]. constructor; [auto|].
    now apply (sublist_Forall_impl _ l k).
  - apply StronglySorted_inv in Hk as [Hk _]. auto.
Qed.

Lemma seq_StronglySorted (start len : nat) :
  StronglySorted lt (seq start len).
Proof.
  revert start. induction len as [|len IH]; intros start; cbn; constructor.
  - apply IH.
  - apply Forall_forall. intros j Hj. apply list_elem_of_In, in_seq in Hj. lia.
Qed.

Lemma select_sublist {A : Type} (a : list A) (m : list bool) :
  sublist (select a m) a.
Proof.
  revert m. induction a as [|x a IH]; intros [|b m]; cbn;
    try apply sublist_nil_l.
  destruct b; [apply sublist_skip | apply sublist_cons]; apply IH.
Qed.

Lemma select_map {A B : Type} (f : A -> B) (a : list A) (m : list bool) :
  select (map f a) m = map f (select a m).
Proof.
  revert m. induction a as [|x a IH]; intros [|b m]; cbn; try reflexivity.
  destruct b; cbn; now rewrite IH.
Qed.

Lemma select_In {A : Type} (a : list A) (m : list bool) (x : A) :
  In x (select a m) -> In x a.
Proof.
  revert m. induction a as [|y a IH]; intros [|b m]; cbn; try tauto.
  destruct b; cbn; intros H; [destruct H as [H|H]; [now left|]|];
    right; eapply IH; eauto.
Qed.

(** Selecting by a mask is reading at the positions [np.where] gives. *)
Lemma select_where_from (a : list Q) (m : list bool) (start : nat) :
  length m <= length a ->
  select a m
  = map (fun p => nth (p - start) a 0%Q) (select (seq start (length m)) m).
Proof.
  revert a start. induction m as [|b m IH]; intros [|x a] start Hlen;
    cbn [length] in Hlen; try reflexivity; [lia|].
  cbn [length seq select].
  assert (Htail : select a m
                  = map (fun p => nth (p - start) (x :: a) 0%Q)
                      (select (seq (S start) (length m)) m)).
  { rewrite (IH a (S start)) by lia. apply map_ext_in. intros p Hp.
    apply select_In, in_seq in Hp.
    replace (p - start) with (S (p - S start)) by lia. reflexivity. }
  destruct b; cbn [map]; [|exact Htail].
  rewrite Nat.sub_diag. cbn [nth]. now rewrite Htail.
Qed.

Lemma select_where (a : list Q) (m : list bool) :
  length m <= length a ->
  select a m = map (fun p => nth p a 0%Q) (where_ m).
Proof.
  intros Hlen. rewrite (select_where_from a m 0 Hlen). unfold where_.
  apply map_ext. intros p. now rewrite Nat.sub_0_r.
Qed.

Lemma Qnat_le_iff (n m : nat) : (Qnat n <= Qnat m)%Q <-> n <= m.
Proof. unfold Qnat. rewrite <- Zle_Qle. symmetry. apply Nat2Z.inj_le. Qed.

Lemma take_cluster_Forall2 (clusters : list cluster) (order : list nat) :
  Forall (fun i => i < length clusters) order ->
  Forall2 (fun i c => clusters !! i = Some c) order
    (take_cluster clusters order).
Proof.
  unfold take_cluster. induction 1 as [|i order Hi Horder IH]; cbn;
    [constructor|].
  destruct (lookup_lt_is_Some_2 clusters i Hi) as [c Hc].
  rewrite Hc. cbn. now constructor.
Qed.

Lemma lookup_nth_error {A : Type} (l : list A) (i : nat) :
  l !! i = nth_error l i.
Proof.
  revert i. induction l as [|x l IH]; intros [|i]; cbn; auto.
Qed.

Lemma length_zip_with_le {A B C : Type} (f : A -> B -> C) (l1 : list A)
    (l2 : list B) :
  length (zip_with f l1 l2) <= length l1.
Proof.
  revert l2. induction l1 as [|x l1 IH]; intros [|y l2]; cbn; try lia.
  specialize (IH l2). lia.
Qed.

Lemma nth_map_in {A B : Type} (f : A -> B) (l : list A) (i : nat) (d : A)
    (e : B) :
  i < length l -> nth i (map f l) e = f (nth i l d).
Proof.
  intros Hi. rewrite (nth_indep _ e (f d)) by (now rewrite length_map).
  apply map_nth.
Qed.

(** ** [fdr_threshold] in double precision *)

Section SortingDoubles.

Variable argsort : list Q -> list nat.
Hypothesis argsort_perm :
  forall a, Permutation (argsort a) (seq 0 (length a)).
Hypothesis argsort_sorted :
  forall a, StronglySorted (key_le a) (argsort a).

Variable sf : Q -> Q.

(** The arithmetic of doubles and numpy's [linspace], which returns as
    many samples as it is asked for. *)
Variable fdiv : Q -> Q -> Q.
Variable fsub : Q -> Q -> Q.
Variable fmul : Q -> Q -> Q.
Variable np_linspace : Q -> Q -> nat -> list Q.
Hypothesis np_linspace_length :
  forall start stop n, length (np_linspace start stop n) = n.

(** At the exact operations the function is [fdr_threshold]. *)
Lemma fdr_threshold_exact (z_vals : list Q) (alpha : Q) :
  Doubles.fdr_threshold sf argsort Qdiv Qminus Qmult linspace z_vals alpha
  = fdr_threshold sf argsort z_vals alpha.
Proof. reflexivity. Qed.

Lemma fdr_threshold_doubles_nil (alpha : Q) :
  Doubles.fdr_threshold sf argsort fdiv fsub fmul np_linspace [] alpha
  = Raise ZeroDivisionError.
Proof.
  unfold Doubles.fdr_threshold.
  now rewrite length_map, length_map, (np_sort_length argsort argsort_perm).
Qed.

(** The two ways the function ends on a non-empty array. *)
Lemma fdr_threshold_doubles_cases (z_vals : list Q) (alpha : Q) :
  z_vals <> [] ->
  let n := length z_vals in
  let z_vals_ := map Qopp (np_sort argsort (map Qopp z_vals)) in
  let h := fdiv (5 # 10) (Qnat n) in
  let levels := map (fmul alpha) (np_linspace h (fsub 1 h) n) in
  let qualifies := fun i => (sf (nth i z_vals_ 0) < nth i levels 0)%Q in
  (Doubles.fdr_threshold sf argsort fdiv fsub fmul np_linspace z_vals alpha
   = Ok PInf
   /\ forall i, i < n -> ~ qualifies i)
  \/ exists k,
       k < n /\ qualifies k
       /\ (forall i, k < i -> i < n -> ~ qualifies i)
       /\ Doubles.fdr_threshold sf argsort fdiv fsub fmul np_linspace z_vals
            alpha
          = Ok (Fin (fsub (nth k z_vals_ 0%Q) eps)).
Proof.
  intros Hne n z_vals_ h levels qualifies.
  assert (Hlen : length z_vals_ = n).
  { unfold z_vals_.
    now rewrite length_map, (np_sort_length argsort argsort_perm),
      length_map. }
  assert (Hn : n <> 0) by (unfold n; destruct z_vals; cbn; congruence).
  unfold Doubles.fdr_threshold. fold z_vals_. rewrite length_map, Hlen.
  fold h.
  destruct (Nat.eqb_spec n 0) as [|_]; [contradiction|].
  set (pos := zip_with _ _ _).
  assert (Hpos : forall i, i < n -> nth i pos false = true <-> qualifies i).
  { intros i Hi. unfold pos, qualifies, levels.
    rewrite (nth_zip_with _ _ _ _ (sf 0) 0%Q)
      by (rewrite ?length_map, ?np_linspace_length; lia).
    rewrite (map_nth sf), Qltb_lt.
    now rewrite (nth_map_in (fmul alpha) _ i 0%Q 0%Q)
      by (rewrite np_linspace_length; exact Hi). }
  assert (Hposlen : length pos = n).
  { unfold pos. rewrite length_zip_with_same;
      rewrite ?length_map, ?np_linspace_length; lia. }
  destruct (existsb id pos) eqn:Epos.
  - right.
    destruct (last_select z_vals_ pos 0%Q ltac:(lia) Epos)
      as (k & Hk & Hkt & Hafter & Hlast).
    exists k. rewrite Hposlen in Hk.
    split; [exact Hk|]. split; [now apply Hpos|]. split; [|now rewrite Hlast].
    intros i Hki Hi Hq. apply Hpos in Hq; [|exact Hi].
    rewrite Hafter in Hq by exact Hki. discriminate.
  - left. split; [reflexivity|].
    intros i Hi Hq. apply Hpos in Hq; [|exact Hi].
    rewrite existsb_nth_false in Hq by exact Epos. discriminate.
Qed.

(** C1, as the code has it: [fdr_threshold] sorts the values
    descending and compares the p-value of the entry of rank [i] with
    the [i]-th of the [n] comparison values that the code computes in
    double precision, [alpha * np.linspace(.5 / n, 1 - .5 / n, n)]
    (which at exact operations are [alpha * (1/2 + i) / n]); it returns
    [+inf] when no entry is below its comparison value, and otherwise
    the statistic of the LAST such entry in the descending order, the
    smallest statistic among them, minus [1.e-8], a subtraction in double
    precision too. *)
Theorem fdr_threshold_last_qualifying (z_vals : list Q) (alpha : Q) :
  z_vals <> [] ->
  let n := length z_vals in
  let z_vals_ := map Qopp (np_sort argsort (map Qopp z_vals)) in
  let h := fdiv (5 # 10) (Qnat n) in
  let levels := map (fmul alpha) (np_linspace h (fsub 1 h) n) in
  let qualifies := fun i => (sf (nth i z_vals_ 0) < nth i levels 0)%Q in
  Permutation z_vals_ z_vals
  /\ StronglySorted (fun x y => (y <= x)%Q) z_vals_
  /\ length levels = n
  /\ (fdiv = Qdiv -> fsub = Qminus -> fmul = Qmult ->
      np_linspace = linspace ->
      forall i, i < n ->
        (nth i levels 0 == alpha * (((1 # 2) + Qnat i) / Qnat n))%Q)
  /\ ((Doubles.fdr_threshold sf argsort fdiv fsub fmul np_linspace z_vals
         alpha = Ok PInf
       /\ forall i, i < n -> ~ qualifies i)
      \/ exists k,
           k < n /\ qualifies k
           /\ (forall i, i < n -> qualifies i ->
                i <= k /\ (nth k z_vals_ 0 <= nth i z_vals_ 0)%Q)
           /\ Doubles.fdr_threshold sf argsort fdiv fsub fmul np_linspace
                z_vals alpha
              = Ok (Fin (fsub (nth k z_vals_ 0%Q) eps))).
Proof.
  intros Hne n z_vals_ h levels qualifies.
  split; [apply (sorted_desc_perm argsort argsort_perm)|].
  split; [apply (sorted_desc_sorted argsort argsort_sorted)|].
  split; [unfold levels; now rewrite length_map, np_linspace_length|].
  split.
  { intros Ed Es Em El i Hi. unfold levels, h.
    subst fdiv fsub fmul np_linspace.
    rewrite (nth_map_in (Qmult alpha) _ i 0%Q 0%Q)
      by (rewrite linspace_length; exact Hi).
    now rewrite linspace_half by exact Hi. }
  destruct (fdr_threshold_doubles_cases z_vals alpha Hne)
    as [[E Hnone] | (k & Hk & Hqk & Hlast & E)].
  - left. split; [exact E | exact Hnone].
  - right. exists k. split; [exact Hk|]. split; [exact Hqk|].
    split; [|exact E].
    intros i Hi Hq.
    assert (Hik : i <= k).
    { destruct (Nat.le_gt_cases i k) as [Hle|Hgt]; [exact Hle|].
      exfalso. now apply (Hlast i Hgt Hi). }
    split; [exact Hik|].
    destruct (Nat.eq_dec i k) as [->|Hneq]; [apply Qle_refl|].
    apply (StronglySorted_nth (fun x y => (y <= x)%Q));
      [apply (sorted_desc_sorted argsort argsort_sorted) | lia|].
    unfold z_vals_.
    now rewrite length_map, (np_sort_length argsort argsort_perm), length_map.
Qed.

(** Subtracting a number that is not negative, and rounding, does not
    give more than one started from: rounding is monotone and the
    minuend is a double. *)
Hypothesis fsub_le : forall x y, (0 <= y)%Q -> (fsub x y <= x)%Q.

(** X2: a finite result of [fdr_threshold] is [z - 1.e-8], computed in
    double precision, for an entry [z] of the array that is at most
    every entry whose p-value is below its comparison value.  The result
    is at most [z], so every such entry is at least the result; it need
    not be strictly above it, the subtraction being lost in the rounding
    where [1.e-8] is small against [z]. *)
Theorem fdr_threshold_admits_qualifying (z_vals : list Q) (alpha t : Q) :
  Doubles.fdr_threshold sf argsort fdiv fsub fmul np_linspace z_vals alpha
  = Ok (Fin t) ->
  let n := length z_vals in
  let z_vals_ := map Qopp (np_sort argsort (map Qopp z_vals)) in
  let h := fdiv (5 # 10) (Qnat n) in
  let levels := map (fmul alpha) (np_linspace h (fsub 1 h) n) in
  exists z,
    In z z_vals /\ t = fsub z eps /\ (t <= z)%Q
    /\ forall i, i < n -> (sf (nth i z_vals_ 0) < nth i levels 0)%Q ->
         (z <= nth i z_vals_ 0)%Q /\ (t <= nth i z_vals_ 0)%Q.
Proof.
  intros Hres n z_vals_ h levels.
  assert (Hne : z_vals <> []).
  { intros ->. rewrite fdr_threshold_doubles_nil in Hres. discriminate. }
  assert (Hlen : length z_vals_ = n).
  { unfold z_vals_.
    now rewrite length_map, (np_sort_length argsort argsort_perm),
      length_map. }
  destruct (fdr_threshold_doubles_cases z_vals alpha Hne)
    as [[E _] | (k & Hk & Hqk & Hlast & E)];
    rewrite E in Hres; [discriminate|].
  injection Hres as <-. fold z_vals_.
  assert (Ht : (fsub (nth k z_vals_ 0%Q) eps <= nth k z_vals_ 0%Q)%Q)
    by (apply fsub_le; unfold eps; discriminate).
  exists (nth k z_vals_ 0%Q). split; [|split; [reflexivity|split]].
  - apply (Permutation_in _ (sorted_desc_perm argsort argsort_perm z_vals)),
      nth_In.
    fold z_vals_. lia.
  - exact Ht.
  - intros i Hi Hq.
    assert (Hik : i <= k).
    { destruct (Nat.le_gt_cases i k) as [H|H]; [exact H|].
      exfalso. now apply (Hlast i H Hi). }
    assert (Hz : (nth k z_vals_ 0 <= nth i z_vals_ 0)%Q).
    { destruct (Nat.eq_dec i k) as [->|Hneq]; [apply Qle_refl|].
      apply (StronglySorted_nth (fun x y => (y <= x)%Q));
        [apply (sorted_desc_sorted argsort argsort_sorted) | lia | lia]. }
    split; [exact Hz|]. eapply Qle_trans; [exact Ht | exact Hz].
Qed.

End SortingDoubles.

(** ** [cluster_stats]: how a call runs *)

Lemma for_each_store {A S : Type} (xs : list A) (body : A -> S -> M S)
    (acc : S) (s : store) :
  (forall x acc' s', snd (body x acc' s') = s') ->
  snd (for_each xs body acc s) = s.
Proof.
  intros Hbody. revert acc. induction xs as [|x xs IH]; intros acc;
    [reflexivity|].
  cbn [for_each]. unfold bind. specialize (Hbody x acc s).
  destruct (body x acc s) as [[acc'|e] s']; cbn in Hbody; subst s';
    [apply IH | reflexivity].
Qed.

Lemma for_each_frame {A S : Type} (xs : list A) (body : A -> S -> M S)
    (acc : S) (s s' : store) :
  (forall x acc' t, snd (body x acc' t) = t) ->
  (forall x acc', fst (body x acc' s) = fst (body x acc' s')) ->
  fst (for_each xs body acc s) = fst (for_each xs body acc s').
Proof.
  intros Hstore Hfst. revert acc. induction xs as [|x xs IH]; intros acc;
    [reflexivity|].
  cbn [for_each]. unfold bind.
  pose proof (Hstore x acc s) as H1. pose proof (Hstore x acc s') as H2.
  specialize (Hfst x acc).
  destruct (body x acc s) as [r1 t1], (body x acc s') as [r2 t2].
  cbn in H1, H2, Hfst. subst t1 t2 r2.
  destruct r1 as [acc'|e]; [apply IH | reflexivity].
Qed.

Lemma bind_ret {A B : Type} (a : A) (k : A -> M B) (s : store) :
  (x <- ret a;; k x) s = k a s.
Proof. reflexivity. Qed.

Lemma bind_raise {A B : Type} (e : exn) (k : A -> M B) (s : store) :
  (x <- raise e;; k x) s = (Raise e, s).
Proof. reflexivity. Qed.

Lemma bind_lift {A B : Type} (r : result A) (k : A -> M B) (s : store) :
  (x <- lift r;; k x) s
  = match r with Ok a => k a s | Raise e => (Raise e, s) end.
Proof. unfold bind, lift. now destruct r. Qed.

Lemma bind_getitem {B : Type} (l : loc) (key : string) (k : pyval -> M B)
    (s : store) :
  (x <- getitem l key;; k x) s
  = match (s !!! l) !! key with
    | Some v => k v s
    | None => (Raise KeyError, s)
    end.
Proof. unfold bind, getitem. now destruct ((s !!! l) !! key). Qed.

(** Case analysis on what one turn of the loop reads. *)
Ltac run_body_with tac :=
  repeat (rewrite ?bind_getitem, ?bind_ret, ?bind_raise, ?bind_lift;
          cbn beta iota; tac;
          match goal with
          | |- context [(?s !!! ?l) !! ?k] =>
              destruct ((s !!! l) !! k) as [[?tag| |?arr]|]
          | |- context [String.eqb ?a ?b] => destruct (String.eqb a b)
          | |- context [bool_index ?a ?b] => destruct (bool_index a b)
          end);
  rewrite ?bind_getitem, ?bind_ret, ?bind_raise, ?bind_lift; cbn beta iota.

Ltac run_body := run_body_with idtac.

Section ClusterStats.

Variable sf : Q -> Q.
Variable isf : Q -> ext.
Variable argsort : list Q -> list nat.
Variable check_same_fov : Niimg -> Niimg -> bool.
Variable coord_transform : nat -> nat -> nat -> Affine -> Coord.
Variable label : list nat -> list bool -> list nat * nat.
Variable maximum_filter : list nat -> list Q -> nat -> list Q.

(** One turn of the loop reads the dictionary and leaves the store as it
    is; what it returns depends on the store through that dictionary
    only. *)
Lemma cluster_body_reader (nulls : nat) (n_voxels : nat)
    (cluster_threshold : Q) (labels : list nat) (maxima_coords : list Coord)
    (maxima_labels : list nat) (maxima_values max_fdr_pvalues : list Q)
    (k : nat) (clusters : list cluster) (s s' : store) :
  s !!! nulls = s' !!! nulls ->
  cluster_body sf argsort nulls n_voxels cluster_threshold labels
    maxima_coords maxima_labels maxima_values max_fdr_pvalues k clusters s
  = (fst (cluster_body sf argsort nulls n_voxels cluster_threshold labels
            maxima_coords maxima_labels maxima_values max_fdr_pvalues k
            clusters s'), s).
Proof.
  intros E. unfold cluster_body.
  destruct (Qle_bool _ _); [|reflexivity].
  run_body_with ltac:(rewrite ?E); reflexivity.
Qed.

Lemma cluster_body_store (nulls : nat) (n_voxels : nat)
    (cluster_threshold : Q) (labels : list nat) (maxima_coords : list Coord)
    (maxima_labels : list nat) (maxima_values max_fdr_pvalues : list Q)
    (k : nat) (clusters : list cluster) (s : store) :
  snd (cluster_body sf argsort nulls n_voxels cluster_threshold labels
         maxima_coords maxima_labels maxima_values max_fdr_pvalues k
         clusters s) = s.
Proof. now rewrite (cluster_body_reader _ _ _ _ _ _ _ _ _ _ s s). Qed.

Lemma cluster_body_frame (nulls : nat) (n_voxels : nat)
    (cluster_threshold : Q) (labels : list nat) (maxima_coords : list Coord)
    (maxima_labels : list nat) (maxima_values max_fdr_pvalues : list Q)
    (k : nat) (clusters : list cluster) (s s' : store) :
  s !!! nulls = s' !!! nulls ->
  fst (cluster_body sf argsort nulls n_voxels cluster_threshold labels
         maxima_coords maxima_labels maxima_values max_fdr_pvalues k
         clusters s)
  = fst (cluster_body sf argsort nulls n_voxels cluster_threshold labels
           maxima_coords maxima_labels maxima_values max_fdr_pvalues k
           clusters s').
Proof. intros E. now rewrite (cluster_body_reader _ _ _ _ _ _ _ _ _ _ s s' E). Qed.

(** A call, step by step: what is computed before the dictionary is
    touched does not depend on the store; then the defaults are filled in
    and the loop runs in the store so obtained. *)
Lemma cluster_stats_run (stat_img mask_img : Niimg) (threshold : Q)
    (height_control : string) (cluster_threshold : Q) (nulls : option nat)
    (s : store) :
  let l := default default_nulls nulls in
  let mask := mask_of mask_img in
  let stat_map := stat_map_of stat_img mask in
  let n_voxels := count_true mask in
  cluster_stats sf isf argsort check_same_fov coord_transform label
    maximum_filter stat_img mask_img threshold height_control
    cluster_threshold nulls s
  = if negb (check_same_fov mask_img stat_img) then (Raise ValueError, s)
    else
      match z_threshold_of sf isf argsort height_control threshold stat_map
              mask n_voxels with
      | Raise e => (Raise e, s)
      | Ok z_threshold =>
          let info := make_info sf n_voxels z_threshold in
          let above_th := above_th_of stat_map z_threshold in
          let above_values := above_values_of stat_map above_th in
          if forallb negb above_th then (Ok ([], info), s)
          else
            let labels := fst (label (img_shape mask_img) above_th) in
            let n_labels := snd (label (img_shape mask_img) above_th) in
            let maxima_mask :=
              maxima_mask_of maximum_filter (img_shape mask_img)
                above_values z_threshold in
            match img_shape mask_img with
            | [_; ny; nz] =>
                match fdr_pvalues sf argsort (select stat_map mask) with
                | Raise e => (Raise e, s)
                | Ok fdr_all =>
                    match
                      for_each (seq 0 n_labels)
                        (cluster_body sf argsort l n_voxels cluster_threshold
                           labels
                           (map (voxel_coord coord_transform ny nz
                                   (img_affine mask_img))
                              (where_ maxima_mask))
                           (select labels maxima_mask)
                           (select above_values maxima_mask)
                           (select fdr_all (select maxima_mask mask)))
                        [] (filled_store l s)
                    with
                    | (Ok clusters, s') =>
                        (Ok (take_cluster clusters
                               (argsort
                                  (map (fun c => (- Qnat (cl_size c))%Q)
                                     clusters)),
                             info), s')
                    | (Raise e, s') => (Raise e, s')
                    end
                end
            | _ => (Raise ValueError, s)
            end
      end.
Proof.
  intros l mask stat_map n_voxels. unfold cluster_stats.
  fold l mask stat_map n_voxels.
  destruct (check_same_fov mask_img stat_img); cbn [negb]; [|reflexivity].
  rewrite bind_lift.
  destruct (z_threshold_of _ _ _ _ _ _ _ _) as [z_threshold|e];
    [|reflexivity].
  cbv zeta. destruct (forallb negb _); [reflexivity|].
  destruct (label _ _) as [labels n_labels]. cbn [fst snd].
  destruct (img_shape mask_img) as [|nx [|ny [|nz [|? ?]]]]; try reflexivity.
  rewrite bind_lift. destruct (fdr_pvalues _ _ _) as [fdr_all|e];
    [|reflexivity].
  unfold bind at 1. rewrite fill_defaults_run. unfold bind, ret.
  now destruct (for_each _ _ _ _) as [[clusters|e] s'].
Qed.

(** The store a call leaves: the one it found, or that one with the
    defaults filled into the dictionary of null distributions. *)
Lemma cluster_stats_store (stat_img mask_img : Niimg) (threshold : Q)
    (height_control : string) (cluster_threshold : Q) (nulls : option nat)
    (s : store) :
  let s' :=
    snd (cluster_stats sf isf argsort check_same_fov coord_transform label
           maximum_filter stat_img mask_img threshold height_control
           cluster_threshold nulls s) in
  s' = s \/ s' = filled_store (default default_nulls nulls) s.
Proof.
  cbv zeta. rewrite cluster_stats_run. cbv zeta.
  repeat match goal with
         | |- context [if ?b then _ else _] => destruct b; cbn [snd]; auto
         | |- context [match ?r with Ok _ => _ | Raise _ => _ end] =>
             destruct r; cbn [snd]; auto
         | |- context [match img_shape ?i with _ => _ end] =>
             destruct (img_shape i) as [|? [|? [|? [|? ?]]]]; cbn [snd]; auto
         end.
  match goal with
  | |- context [for_each ?xs ?body ?acc ?t] =>
      pose proof (for_each_store xs body acc t
                    (cluster_body_store _ _ _ _ _ _ _ _)) as Hs;
      destruct (for_each xs body acc t) as [[clusters|e] s']
  end; cbn [snd] in *; subst s'; auto.
Qed.

(** A call that returns clusters has gone through lines 119-125. *)
Lemma cluster_stats_store_filled (stat_img mask_img : Niimg) (threshold : Q)
    (height_control : string) (cluster_threshold : Q) (nulls : option nat)
    (s : store) (clusters : list cluster) (info : info) :
  fst (cluster_stats sf isf argsort check_same_fov coord_transform label
         maximum_filter stat_img mask_img threshold height_control
         cluster_threshold nulls s) = Ok (clusters, info) ->
  clusters <> [] ->
  snd (cluster_stats sf isf argsort check_same_fov coord_transform label
         maximum_filter stat_img mask_img threshold height_control
         cluster_threshold nulls s)
  = filled_store (default default_nulls nulls) s.
Proof.
  rewrite cluster_stats_run. cbv zeta.
  destruct (negb _); [discriminate|].
  destruct (z_threshold_of _ _ _ _ _ _ _ _) as [z_threshold|e];
    [|discriminate].
  destruct (forallb negb _); [intros [= <- <-]; congruence|].
  destruct (img_shape mask_img) as [|nx [|ny [|nz [|? ?]]]];
    try discriminate.
  destruct (fdr_pvalues _ _ _) as [fdr_all|e]; [|discriminate].
  match goal with
  | |- context [for_each ?xs ?body ?acc ?t] =>
      pose proof (for_each_store xs body acc t
                    (cluster_body_store _ _ _ _ _ _ _ _)) as Hs;
      destruct (for_each xs body acc t) as [[cs|e] s']
  end; [|discriminate].
  intros _ _. exact Hs.
Qed.

(** What a call returns depends on the store only through the
    dictionary of null distributions with its defaults filled in. *)
Lemma cluster_stats_frame (stat_img mask_img : Niimg) (threshold : Q)
    (height_control : string) (cluster_threshold : Q) (nulls : option nat)
    (s s' : store) :
  with_defaults (s !!! default default_nulls nulls)
  = with_defaults (s' !!! default default_nulls nulls) ->
  fst (cluster_stats sf isf argsort check_same_fov coord_transform label
         maximum_filter stat_img mask_img threshold height_control
         cluster_threshold nulls s)
  = fst (cluster_stats sf isf argsort check_same_fov coord_transform label
           maximum_filter stat_img mask_img threshold height_control
           cluster_threshold nulls s').
Proof.
  intros E. rewrite !cluster_stats_run. cbv zeta.
  repeat match goal with
         | |- context [if ?b then _ else _] => destruct b; cbn [fst]; auto
         | |- context [match ?r with Ok _ => _ | Raise _ => _ end] =>
             destruct r; cbn [fst]; auto
         | |- context [match img_shape ?i with _ => _ end] =>
             destruct (img_shape i) as [|? [|? [|? [|? ?]]]]; cbn [fst]; auto
         end.
  match goal with
  | |- context [for_each ?xs ?body ?acc (filled_store ?l s)] =>
      pose proof (for_each_frame xs body acc (filled_store l s)
                    (filled_store l s')
                    (cluster_body_store _ _ _ _ _ _ _ _)) as Hf;
      destruct (for_each xs body acc (filled_store l s)) as [r1 t1],
               (for_each xs body acc (filled_store l s')) as [r2 t2]
  end.
  cbn [fst] in Hf. rewrite <- Hf.
  - now destruct r1.
  - intros x acc'. apply cluster_body_frame.
    now rewrite !filled_store_lookup.
Qed.

(** C8: a second call with the same arguments, run in the store the
    first call left (so with the dictionary of null distributions as the
    first call left it, be it the caller's or the shared default), returns
    what the first call returned: the same clusters in the same order and
    the same [info], or the same exception. *)
Theorem cluster_stats_twice (stat_img mask_img : Niimg) (threshold : Q)
    (height_control : string) (cluster_threshold : Q) (nulls : option nat)
    (s : store) :
  let call :=
    cluster_stats sf isf argsort check_same_fov coord_transform label
      maximum_filter stat_img mask_img threshold height_control
      cluster_threshold nulls in
  fst (call (snd (call s))) = fst (call s).
Proof.
  cbv zeta. apply cluster_stats_frame.
  destruct (cluster_stats_store stat_img mask_img threshold height_control
              cluster_threshold nulls s) as [-> | ->]; [reflexivity|].
  rewrite filled_store_lookup. apply with_defaults_idem.
Qed.

(** C3, as the code has it: a call writes to the dictionary of null
    distributions, in place, and only to fill in the defaults of the
    entries 'zmax', 'smax' and 's' that are absent, which a call that
    returns clusters has done; an entry that is present, any other key and
    any other dictionary are left as they are; and what a call relying on
    the default argument returns is not affected by an earlier call,
    whatever dictionary that one used. *)
Theorem cluster_stats_nulls_effect (stat_img mask_img : Niimg)
    (threshold : Q) (height_control : string) (cluster_threshold : Q)
    (nulls : option nat) (s : store) :
  let l := default default_nulls nulls in
  let s' :=
    snd (cluster_stats sf isf argsort check_same_fov coord_transform label
           maximum_filter stat_img mask_img threshold height_control
           cluster_threshold nulls s) in
  (s' = s \/ s' = <[l := with_defaults (s !!! l)]> s)
  /\ (forall clusters info,
       fst (cluster_stats sf isf argsort check_same_fov coord_transform
              label maximum_filter stat_img mask_img threshold
              height_control cluster_threshold nulls s)
       = Ok (clusters, info) ->
       clusters <> [] -> s' !!! l = with_defaults (s !!! l))
  /\ (forall k v, (s !!! l) !! k = Some v -> (s' !!! l) !! k = Some v)
  /\ (forall k, k <> "zmax" -> k <> "smax" -> k <> "s" ->
       (s' !!! l) !! k = (s !!! l) !! k)
  /\ (forall l', l' <> l -> s' !! l' = s !! l')
  /\ (forall stat_img' mask_img' threshold' height_control'
         cluster_threshold',
       fst (cluster_stats sf isf argsort check_same_fov coord_transform
              label maximum_filter stat_img' mask_img' threshold'
              height_control' cluster_threshold' None s')
       = fst (cluster_stats sf isf argsort check_same_fov coord_transform
                label maximum_filter stat_img' mask_img' threshold'
                height_control' cluster_threshold' None s)).
Proof.
  intros l s'.
  assert (Hs' : s' = s \/ s' = <[l := with_defaults (s !!! l)]> s).
  { destruct (cluster_stats_store stat_img mask_img threshold height_control
                cluster_threshold nulls s) as [E|E]; [now left|].
    fold s' l in E. rewrite E. apply filled_store_cases. }
  split; [exact Hs'|].
  split.
  { intros clusters info Hok Hne. unfold s', l.
    rewrite (cluster_stats_store_filled _ _ _ _ _ _ _ _ _ Hok Hne).
    apply filled_store_lookup. }
  destruct Hs' as [-> | ->].
  - repeat split; auto.
  - split; [|split; [|split]].
    + intros k v Hk. rewrite lookup_total_insert_eq.
      now apply with_defaults_present.
    + intros k Hz Hsm Hs. rewrite lookup_total_insert_eq.
      unfold with_defaults. now rewrite !set_default_other by congruence.
    + intros l' Hl'. now apply lookup_insert_ne.
    + intros. apply cluster_stats_frame. cbn [default].
      destruct (decide (default_nulls = l)) as [<-|Hne].
      * rewrite lookup_total_insert_eq. apply with_defaults_idem.
      * now rewrite lookup_total_insert_ne by congruence.
Qed.

Lemma z_threshold_of_other (height_control : string) (threshold : Q)
    (stat_map : list Q) (mask : list bool) (n_voxels : nat) :
  height_control <> "fpr" -> height_control <> "fdr" ->
  height_control <> "bonferroni" ->
  z_threshold_of sf isf argsort height_control threshold stat_map mask
    n_voxels = Ok (Fin threshold).
Proof.
  intros H1 H2 H3. unfold z_threshold_of.
  apply String.eqb_neq in H1, H2, H3. now rewrite H1, H2, H3.
Qed.

(** C2, as the code has it: a [height_control] that is none of 'fpr',
    'fdr' and 'bonferroni' raises nothing; the threshold is taken as it
    is, on the z scale, and the call runs as it does for 'none'. *)
Theorem cluster_stats_other_mode (stat_img mask_img : Niimg) (threshold : Q)
    (height_control : string) (cluster_threshold : Q) (nulls : option nat)
    (s : store) :
  height_control <> "fpr" -> height_control <> "fdr" ->
  height_control <> "bonferroni" ->
  (forall stat_map mask n_voxels,
     z_threshold_of sf isf argsort height_control threshold stat_map mask
       n_voxels = Ok (Fin threshold))
  /\ cluster_stats sf isf argsort check_same_fov coord_transform label
       maximum_filter stat_img mask_img threshold height_control
       cluster_threshold nulls s
     = cluster_stats sf isf argsort check_same_fov coord_transform label
         maximum_filter stat_img mask_img threshold "none" cluster_threshold
         nulls s.
Proof.
  intros H1 H2 H3. split.
  - intros. now apply z_threshold_of_other.
  - unfold cluster_stats.
    rewrite !(z_threshold_of_other height_control) by assumption.
    rewrite !(z_threshold_of_other "none") by discriminate. reflexivity.
Qed.

(** *** What the loop appends *)

Lemma cluster_body_inv (nulls : nat) (n_voxels : nat)
    (cluster_threshold : Q) (labels : list nat) (maxima_coords : list Coord)
    (maxima_labels : list nat) (maxima_values max_fdr_pvalues : list Q)
    (k : nat) (clusters clusters' : list cluster) (s s' : store) :
  cluster_body sf argsort nulls n_voxels cluster_threshold labels
    maxima_coords maxima_labels maxima_values max_fdr_pvalues k clusters s
  = (Ok clusters', s') ->
  clusters' = clusters
  \/ exists c,
       clusters' = clusters ++ [c]
       /\ is_cluster_of argsort labels maxima_coords maxima_labels
            maxima_values k c.
Proof.
  unfold cluster_body.
  destruct (Qle_bool _ _); [|intros [= <- <-]; now left].
  run_body; try discriminate; intros [= <- <-]; right; eexists;
    (split; [reflexivity|]); repeat split.
Qed.

Lemma for_each_cluster_body_inv (nulls : nat) (n_voxels : nat)
    (cluster_threshold : Q) (labels : list nat) (maxima_coords : list Coord)
    (maxima_labels : list nat) (maxima_values max_fdr_pvalues : list Q)
    (js : list nat) (clusters clusters' : list cluster) (s s' : store) :
  for_each js
    (cluster_body sf argsort nulls n_voxels cluster_threshold labels
       maxima_coords maxima_labels maxima_values max_fdr_pvalues)
    clusters s = (Ok clusters', s') ->
  exists ks new,
    clusters' = clusters ++ new
    /\ Forall2 (is_cluster_of argsort labels maxima_coords maxima_labels
                  maxima_values) ks new
    /\ sublist ks js.
Proof.
  revert clusters s. induction js as [|j js IH]; intros clusters s.
  - cbn. intros [= <- <-]. exists [], []. rewrite app_nil_r.
    repeat split; constructor.
  - cbn [for_each]. unfold bind at 1.
    destruct (cluster_body _ _ _ _ _ _ _ _ _ _ j clusters s)
      as [[acc|e] t] eqn:Eb; [|discriminate].
    intros Hrest. apply IH in Hrest as (ks & new & -> & Hks & Hsub).
    apply cluster_body_inv in Eb as [-> | (c & -> & Hc)].
    + exists ks, new. repeat split; [exact Hks | now apply sublist_cons].
    + exists (j :: ks), (c :: new). rewrite <- app_assoc. repeat split.
      * now constructor.
      * now apply sublist_skip.
Qed.

(** *** An array under 'zmax'

    Line 150 reads [clusters['zscore']] where [clusters] is the list
    under construction: a [TypeError].  So with an array under 'zmax' a
    label that passes the size threshold ends the call, and a call that
    returns has appended no cluster. *)

Lemma cluster_body_zmax_array (nulls : nat) (n_voxels : nat)
    (cluster_threshold : Q) (labels : list nat) (maxima_coords : list Coord)
    (maxima_labels : list nat) (maxima_values max_fdr_pvalues : list Q)
    (k : nat) (clusters : list cluster) (s : store) (a : list Q) :
  (s !!! nulls) !! "zmax" = Some (PArr a) ->
  cluster_body sf argsort nulls n_voxels cluster_threshold labels
    maxima_coords maxima_labels maxima_values max_fdr_pvalues k clusters s
  = if Qle_bool cluster_threshold
         (Qnat (length (List.filter (Nat.eqb (k + 1)) labels)))
    then (Raise TypeError, s)
    else (Ok clusters, s).
Proof.
  intros Hz. unfold cluster_body.
  destruct (Qle_bool _ _); [|reflexivity].
  rewrite bind_getitem, Hz. reflexivity.
Qed.

Lemma for_each_zmax_array (nulls : nat) (n_voxels : nat)
    (cluster_threshold : Q) (labels : list nat) (maxima_coords : list Coord)
    (maxima_labels : list nat) (maxima_values max_fdr_pvalues : list Q)
    (js : list nat) (clusters clusters' : list cluster) (s s' : store)
    (a : list Q) :
  (s !!! nulls) !! "zmax" = Some (PArr a) ->
  for_each js
    (cluster_body sf argsort nulls n_voxels cluster_threshold labels
       maxima_coords maxima_labels maxima_values max_fdr_pvalues)
    clusters s = (Ok clusters', s') ->
  clusters' = clusters.
Proof.
  intros Hz. induction js as [|j js IH]; cbn [for_each].
  - now intros [= <- <-].
  - unfold bind at 1. rewrite (cluster_body_zmax_array _ _ _ _ _ _ _ _ _ _ _ a Hz).
    destruct (Qle_bool _ _); [discriminate | exact IH].
Qed.

Lemma cluster_stats_zmax_array (stat_img mask_img : Niimg) (threshold : Q)
    (height_control : string) (cluster_threshold : Q) (nulls : option nat)
    (s : store) (a : list Q) (clusters : list cluster) (info : info) :
  (s !!! default default_nulls nulls) !! "zmax" = Some (PArr a) ->
  fst (cluster_stats sf isf argsort check_same_fov coord_transform label
         maximum_filter stat_img mask_img threshold height_control
         cluster_threshold nulls s) = Ok (clusters, info) ->
  clusters = [].
Proof.
  intros Hz. rewrite cluster_stats_run. cbv zeta.
  destruct (negb _); [discriminate|].
  destruct (z_threshold_of _ _ _ _ _ _ _ _) as [z_threshold|e];
    [|discriminate].
  destruct (forallb negb _); [now intros [= <- <-]|].
  destruct (img_shape mask_img) as [|nx [|ny [|nz [|? ?]]]];
    try discriminate.
  destruct (fdr_pvalues _ _ _) as [fdr_all|e]; [|discriminate].
  destruct (for_each _ _ _ _) as [[cs|e] s'] eqn:Eloop; [|discriminate].
  intros [= <- <-].
  apply (for_each_zmax_array _ _ _ _ _ _ _ _ _ _ _ _ _ a) in Eloop.
  - subst cs. unfold take_cluster.
    now induction (argsort _) as [|i order IH].
  - rewrite filled_store_lookup. now apply with_defaults_present.
Qed.

(** *** The reported z-scores *)

(** An entry selected twice, by the mask of the maxima and then by the
    label of the cluster, sits at a position that carries that label. *)
Lemma select2_In {A : Type} (vals : list A) (labs : list nat)
    (mm : list bool) (f : nat -> bool) (v : A) :
  In v (select (select vals mm) (map f (select labs mm))) ->
  exists p lab,
    nth_error vals p = Some v /\ nth_error labs p = Some lab
    /\ nth_error mm p = Some true /\ f lab = true.
Proof.
  revert labs mm. induction vals as [|x vals IH]; intros labs mm Hin.
  - now destruct mm.
  - destruct mm as [|b mm]; [contradiction|].
    destruct labs as [|lab labs].
    + cbn in Hin. now destruct b, (select vals mm).
    + destruct b; cbn [select map] in Hin.
      * destruct (f lab) eqn:Ef.
        -- destruct Hin as [<- | Hin]; [now exists 0, lab|].
           destruct (IH _ _ Hin) as (p & lab' & H).
           now exists (S p), lab'.
        -- destruct (IH _ _ Hin) as (p & lab' & H).
           now exists (S p), lab'.
      * destruct (IH _ _ Hin) as (p & lab' & H). now exists (S p), lab'.
Qed.

Lemma above_values_nth_error (stat_map : list Q) (z_threshold : ext)
    (p : nat) (v : Q) :
  nth_error
    (above_values_of stat_map (above_th_of stat_map z_threshold)) p = Some v ->
  exists x,
    nth_error stat_map p = Some x
    /\ nth p (above_th_of stat_map z_threshold) false = gt_ext x z_threshold
    /\ v = (x * b2q (gt_ext x z_threshold))%Q.
Proof.
  unfold above_values_of, above_th_of.
  revert p. induction stat_map as [|x stat_map IH]; intros [|p] H;
    cbn in H; try discriminate.
  - injection H as <-. now exists x.
  - apply IH in H as (y & H1 & H2 & H3). now exists y.
Qed.

Lemma In_take_cluster (clusters : list cluster) (order : list nat)
    (c : cluster) :
  In c (take_cluster clusters order) -> In c clusters.
Proof.
  unfold take_cluster. intros H.
  apply list_elem_of_In, list_elem_of_omap in H as (i & _ & Hi).
  apply list_elem_of_In. now apply list_elem_of_lookup_2 in Hi.
Qed.

Lemma Forall2_In_r {A B : Type} (P : A -> B -> Prop) (l : list A)
    (k : list B) (y : B) :
  Forall2 P l k -> In y k -> exists x, In x l /\ P x y.
Proof.
  induction 1 as [|x y' l k Hxy H IH]; intros Hin; [contradiction|].
  destruct Hin as [<- | Hin]; [exists x; split; [now left | exact Hxy]|].
  destruct (IH Hin) as (x' & Hx' & HP). exists x'. split; [now right | exact HP].
Qed.

Lemma gt_ext_lt (x : Q) (t : ext) :
  gt_ext x t = true -> ext_lt t (x * b2q true).
Proof.
  destruct t as [t| | |]; cbn; try discriminate; [|trivial].
  intros H. apply Qltb_lt in H. lra.
Qed.

Hypothesis argsort_perm :
  forall a, Permutation (argsort a) (seq 0 (length a)).

(** [scipy.ndimage.label] gives the label 0 to the background: a voxel
    with a label is a voxel of the array it was given. *)
Hypothesis label_support :
  forall shape a p,
    nth p (fst (label shape a)) 0 <> 0 -> nth p a false = true.

(** C9: when [cluster_stats] returns, every z-score it reports in the
    'zscore' field of a cluster is strictly above [info['threshold_z']]. *)
Theorem cluster_stats_zscore_above_threshold (stat_img mask_img : Niimg)
    (threshold : Q) (height_control : string) (cluster_threshold : Q)
    (nulls : option nat) (s : store) (clusters : list cluster)
    (info : info) :
  fst (cluster_stats sf isf argsort check_same_fov coord_transform label
         maximum_filter stat_img mask_img threshold height_control
         cluster_threshold nulls s) = Ok (clusters, info) ->
  forall c, In c clusters ->
  forall v, In v (cl_zscore c) -> ext_lt (threshold_z info) v.
Proof.
  rewrite cluster_stats_run. cbv zeta.
  destruct (negb _); [discriminate|].
  destruct (z_threshold_of _ _ _ _ _ _ _ _) as [z_threshold|e];
    [|discriminate].
  destruct (forallb negb _); [intros [= <- <-]; contradiction|].
  destruct (img_shape mask_img) as [|nx [|ny [|nz [|? ?]]]] eqn:Eshape;
    try discriminate.
  destruct (fdr_pvalues _ _ _) as [fdr_all|e]; [|discriminate].
  destruct (for_each _ _ _ _) as [[cs|e] s'] eqn:Eloop; [|discriminate].
  intros [= <- <-] c Hc v Hv. cbn [threshold_z make_info].
  apply In_take_cluster in Hc.
  apply for_each_cluster_body_inv in Eloop as (ks & new & -> & Hks & _).
  cbn [app] in Hc.
  destruct (Forall2_In_r _ _ _ _ Hks Hc) as (k & _ & _ & Hz & _).
  rewrite Hz in Hv. unfold take_idx in Hv.
  apply in_map_iff in Hv as (i & <- & Hi).
  apply in_rev, (argsort_lt argsort argsort_perm) in Hi.
  apply (nth_In _ 0%Q) in Hi.
  apply select2_In in Hi as (p & lab & Hval & Hlab & _ & Hf).
  apply Nat.eqb_eq in Hf.
  apply above_values_nth_error in Hval as (x & _ & Hth & ->).
  rewrite (label_support (nx :: ny :: nz :: []) _ p) in Hth.
  - rewrite <- Hth. now apply gt_ext_lt.
  - rewrite (nth_error_nth _ _ 0 Hlab). lia.
Qed.

(** *** The order of the maxima and of the clusters *)

(** What [np.argsort] promises with its default sort, which is not
    stable: the keys do not decrease along the result.  Nothing is
    assumed on the order it gives to equal keys. *)
Hypothesis argsort_sorted :
  forall a, StronglySorted (key_le a) (argsort a).

(** The maxima of one cluster, as voxel positions: sorted by
    non-increasing value. *)
Lemma is_cluster_of_maxima (labels : list nat) (above_values : list Q)
    (mm : list bool) (vc : nat -> Coord) (k : nat) (c : cluster) :
  length mm <= length above_values ->
  is_cluster_of argsort labels (map vc (where_ mm)) (select labels mm)
    (select above_values mm) k c ->
  let value := fun p => nth p above_values 0%Q in
  exists ps,
    Forall (fun p => nth p labels 0 = k + 1 /\ nth p mm false = true) ps
    /\ cl_zscore c = map value ps
    /\ cl_maxima c = map vc ps
    /\ StronglySorted (fun p q => (value q <= value p)%Q) ps.
Proof.
  intros Hlen (_ & Hz & Hm) value.
  rewrite (select_where above_values mm Hlen) in Hz, Hm.
  fold value in Hz, Hm.
  rewrite select_map in Hz. rewrite !select_map in Hm.
  set (in_cluster := map (Nat.eqb (k + 1)) (select labels mm)) in *.
  set (P := select (where_ mm) in_cluster) in *.
  set (mv := map value P) in *.
  assert (Hmv : length mv = length P) by apply length_map.
  assert (Hin : forall i, In i (rev (argsort mv)) -> i < length P).
  { intros i Hi. rewrite <- Hmv.
    now apply in_rev, (argsort_lt argsort argsort_perm) in Hi. }
  assert (Hval : forall i, i < length P ->
                 nth i mv 0%Q = value (nth i P 0)).
  { intros i Hi. unfold mv. now apply nth_map_in. }
  exists (map (fun i => nth i P 0) (rev (argsort mv))).
  split; [|split; [|split]].
  - apply Forall_forall. intros p Hp.
    apply list_elem_of_In, in_map_iff in Hp as (i & <- & Hi).
    apply Hin, (nth_In _ 0) in Hi. unfold P, where_, in_cluster in Hi.
    apply select2_In in Hi as (p & lab & Hp & Hlab & Hmm & Hf).
    apply Nat.eqb_eq in Hf. subst lab.
    assert (Hpp : nth p (seq 0 (length mm)) 0 = nth p (seq 0 (length mm)) 0)
      by reflexivity.
    rewrite (nth_error_nth _ _ 0 Hp) in Hpp at 1.
    rewrite seq_nth in Hpp.
    + cbn in Hpp. subst. split.
      * now apply nth_error_nth.
      * now apply nth_error_nth.
    + apply nth_error_Some. rewrite Hmm. discriminate.
  - rewrite Hz. unfold take_idx. rewrite List.map_map.
    apply map_ext_in. intros i Hi. apply Hval, Hin, Hi.
  - rewrite Hm. unfold take_coord. rewrite List.map_map.
    apply map_ext_in. intros i Hi. apply nth_map_in, Hin, Hi.
  - apply (StronglySorted_of_nth _ _ 0). intros a b Hab Hb.
    rewrite length_map, length_rev in Hb.
    assert (Hm' : length (argsort mv) = length mv)
      by apply (argsort_length argsort argsort_perm).
    rewrite !(nth_map_in _ _ _ 0) by (rewrite length_rev; lia).
    rewrite !rev_nth by lia.
    set (i := nth (length (argsort mv) - S a) (argsort mv) 0).
    set (j := nth (length (argsort mv) - S b) (argsort mv) 0).
    assert (Hi : i < length P).
    { rewrite <- Hmv. apply (argsort_nth_lt argsort argsort_perm). lia. }
    assert (Hj : j < length P).
    { rewrite <- Hmv. apply (argsort_nth_lt argsort argsort_perm). lia. }
    pose proof (StronglySorted_nth _ _ (length (argsort mv) - S b)
                  (length (argsort mv) - S a) 0 (argsort_sorted mv)
                  ltac:(lia) ltac:(lia)) as Hle.
    fold i j in Hle. unfold key_le in Hle.
    rewrite !Hval in Hle by assumption. exact Hle.
Qed.

Lemma Forall2_is_cluster_of_nth (labels : list nat)
    (maxima_coords : list Coord) (maxima_labels : list nat)
    (maxima_values : list Q) (ks : list nat) (new : list cluster) (i : nat) :
  Forall2 (is_cluster_of argsort labels maxima_coords maxima_labels
             maxima_values) ks new ->
  i < length new ->
  exists c,
    nth_error new i = Some c
    /\ is_cluster_of argsort labels maxima_coords maxima_labels
         maxima_values (nth i ks 0) c.
Proof.
  intros H. revert i. induction H as [|k c ks new Hkc H IH]; intros i Hi;
    cbn [length] in Hi; [lia|].
  destruct i as [|i]; [now exists c|]. apply IH. lia.
Qed.

(** C5, as the code has it.  The clusters come by non-increasing size
    and, within a cluster, the local maxima by non-increasing value.
    That is all the code fixes: [np.argsort] is called with its default
    sort, which is not stable, so the order of maxima of one value (the
    ascending [argsort] read backwards) and of clusters of one size is
    the one that sort happens to give, not the detection order.  [ks]
    lists the labels of the returned clusters and [ps] the voxel
    positions of the maxima of a cluster, both in the order returned. *)
Theorem cluster_stats_order (stat_img mask_img : Niimg) (threshold : Q)
    (height_control : string) (cluster_threshold : Q) (nulls : option nat)
    (s : store) (clusters : list cluster) (info : info) :
  fst (cluster_stats sf isf argsort check_same_fov coord_transform label
         maximum_filter stat_img mask_img threshold height_control
         cluster_threshold nulls s) = Ok (clusters, info) ->
  let stat_map := stat_map_of stat_img (mask_of mask_img) in
  let above_th := above_th_of stat_map (threshold_z info) in
  let above_values := above_values_of stat_map above_th in
  let labels := fst (label (img_shape mask_img) above_th) in
  let maxima_mask :=
    maxima_mask_of maximum_filter (img_shape mask_img) above_values
      (threshold_z info) in
  let value := fun p => nth p above_values 0%Q in
  let size := fun k => length (List.filter (Nat.eqb (k + 1)) labels) in
  exists ks,
    StronglySorted (fun k k' => size k' <= size k) ks
    /\ Forall2
         (fun k c =>
            cl_size c = size k
            /\ exists ps,
                 Forall (fun p => nth p labels 0 = k + 1
                                  /\ nth p maxima_mask false = true) ps
                 /\ cl_zscore c = map value ps
                 /\ (exists nx ny nz,
                       img_shape mask_img = [nx; ny; nz]
                       /\ cl_maxima c
                          = map (voxel_coord coord_transform ny nz
                                   (img_affine mask_img)) ps)
                 /\ StronglySorted (fun p q => (value q <= value p)%Q) ps)
         ks clusters.
Proof.
  rewrite cluster_stats_run. cbv zeta.
  destruct (negb _); [discriminate|].
  destruct (z_threshold_of _ _ _ _ _ _ _ _) as [z_threshold|e];
    [|discriminate].
  destruct (forallb negb _);
    [intros [= <- <-]; exists []; split; constructor|].
  destruct (img_shape mask_img) as [|nx [|ny [|nz [|? ?]]]] eqn:Eshape;
    try discriminate.
  destruct (fdr_pvalues _ _ _) as [fdr_all|e]; [|discriminate].
  destruct (for_each _ _ _ _) as [[cs|e] s'] eqn:Eloop; [|discriminate].
  intros [= <- <-]. cbn [threshold_z make_info].
  apply for_each_cluster_body_inv in Eloop as (ks0 & new & -> & Hks & Hsub).
  cbn [app].
  set (stat_map := stat_map_of stat_img (mask_of mask_img)) in *.
  set (above_th := above_th_of stat_map z_threshold) in *.
  set (above_values := above_values_of stat_map above_th) in *.
  set (labels := fst (label [nx; ny; nz] above_th)) in *.
  set (mm := maxima_mask_of maximum_filter [nx; ny; nz] above_values
               z_threshold) in *.
  set (size := fun k => length (List.filter (Nat.eqb (k + 1)) labels)).
  set (keys := map (fun c => (- Qnat (cl_size c))%Q) new).
  assert (Hlen : length ks0 = length new) by (eapply Forall2_length; eauto).
  assert (Hkeys : length keys = length new) by apply length_map.
  assert (Hkey : forall i, i < length new ->
                 nth i keys 0%Q = (- Qnat (size (nth i ks0 0%nat)))%Q).
  { intros i Hi.
    destruct (Forall2_is_cluster_of_nth _ _ _ _ _ _ i Hks Hi)
      as (c & Hc & Hsz & _).
    unfold keys. apply nth_error_nth.
    rewrite (map_nth_error _ _ _ Hc). now rewrite Hsz. }
  assert (Horder : Forall (fun i => i < length new) (argsort keys)).
  { apply Forall_forall. intros i Hi. rewrite <- Hkeys.
    now apply list_elem_of_In, (argsort_lt argsort argsort_perm) in Hi. }
  exists (map (fun i => nth i ks0 0) (argsort keys)). split.
  - apply (StronglySorted_of_nth _ _ 0). intros a b Hab Hb.
    rewrite length_map in Hb.
    rewrite !(nth_map_in _ _ _ 0) by lia.
    set (i := nth a (argsort keys) 0). set (j := nth b (argsort keys) 0).
    assert (Hi : i < length new).
    { rewrite Forall_forall in Horder.
      apply Horder, list_elem_of_In, nth_In. lia. }
    assert (Hj : j < length new).
    { rewrite Forall_forall in Horder.
      apply Horder, list_elem_of_In, nth_In. lia. }
    pose proof (StronglySorted_nth _ _ a b 0 (argsort_sorted keys) Hab Hb)
      as Hle.
    fold i j in Hle. unfold key_le in Hle.
    rewrite !Hkey in Hle by assumption.
    unfold size in Hle. cbv beta in Hle.
    apply Qnat_le_iff. lra.
  - pose proof (take_cluster_Forall2 new (argsort keys) Horder) as HF.
    fold keys. clear Horder.
    induction HF as [|i c order out Hic HF IH]; cbn [map]; constructor;
      [|exact IH].
    rewrite lookup_nth_error in Hic.
    assert (Hi : i < length new)
      by (apply nth_error_Some; rewrite Hic; discriminate).
    destruct (Forall2_is_cluster_of_nth _ _ _ _ _ _ i Hks Hi)
      as (c' & Hc' & Hcl).
    rewrite Hic in Hc'. injection Hc' as <-.
    split; [apply Hcl|].
    destruct (is_cluster_of_maxima labels above_values mm _ _ c
                (length_zip_with_le _ _ _) Hcl)
      as (ps & Hps & Hz & Hm & Hsorted).
    exists ps. repeat split; try assumption.
    exists nx, ny, nz. now split.
Qed.

End ClusterStats.

(** ** More on [cluster_stats] *)

Lemma with_defaults_keys (d : dict) :
  is_Some (with_defaults d !! "zmax")
  /\ is_Some (with_defaults d !! "smax")
  /\ is_Some (with_defaults d !! "s").
Proof.
  unfold with_defaults. split; [|split].
  - destruct (set_default_is_Some "zmax" (PStr "bonferroni") d) as [v Hv].
    exists v. now do 2 apply set_default_present.
  - destruct (set_default_is_Some "smax" PNone
                (set_default "zmax" (PStr "bonferroni") d)) as [v Hv].
    exists v. now apply set_default_present.
  - apply set_default_is_Some.
Qed.

Lemma omap_ext_in {A B : Type} (f g : A -> option B) (l : list A) :
  (forall x, In x l -> f x = g x) -> omap f l = omap g l.
Proof.
  induction l as [|x l IH]; intros H; [reflexivity|]. cbn.
  rewrite (H x) by now left. rewrite IH; [reflexivity|].
  intros y Hy. apply H. now right.
Qed.

Lemma omap_perm {A B : Type} (f : A -> option B) (l l' : list A) :
  Permutation l l' -> Permutation (omap f l) (omap f l').
Proof.
  induction 1 as [|x l l' Hp IH|x y l|l l' l'' H1 IH1 H2 IH2]; cbn.
  - constructor.
  - destruct (f x); [now constructor | exact IH].
  - destruct (f x), (f y); try reflexivity. constructor.
  - now transitivity (omap f l').
Qed.

Lemma take_cluster_seq (cs : list cluster) :
  take_cluster cs (seq 0 (length cs)) = cs.
Proof.
  unfold take_cluster. induction cs as [|c cs IH] using rev_ind;
    [reflexivity|].
  rewrite length_app. cbn [length]. rewrite seq_app, omap_app.
  assert (Hc : (cs ++ [c]) !! length cs = Some c)
    by (rewrite lookup_app_r by lia; now rewrite Nat.sub_diag).
  cbn [seq Nat.add]. unfold omap at 2. cbn [list_omap]. rewrite Hc. f_equal.
  rewrite <- IH at 2. apply omap_ext_in. intros i Hi. apply in_seq in Hi.
  apply lookup_app_l. lia.
Qed.

(** Reading a list along a permutation of its positions rearranges it. *)
Lemma take_cluster_perm (cs : list cluster) (order : list nat) :
  Permutation order (seq 0 (length cs)) ->
  Permutation (take_cluster cs order) cs.
Proof.
  intros Hp. rewrite <- (take_cluster_seq cs) at 2.
  now apply omap_perm.
Qed.

Lemma StronglySorted_snoc {A : Type} (R : A -> A -> Prop) (l : list A)
    (x : A) :
  StronglySorted R l -> Forall (fun y => R y x) l ->
  StronglySorted R (l ++ [x]).
Proof.
  induction 1 as [|y l Hl IH Hy]; intros Hx; cbn.
  - repeat constructor.
  - apply Forall_cons in Hx as [Hyx Hx]. constructor; [now apply IH|].
    apply Forall_app. split; [exact Hy | now constructor].
Qed.

Lemma StronglySorted_rev {A : Type} (R : A -> A -> Prop) (l : list A) :
  StronglySorted R l -> StronglySorted (fun x y => R y x) (rev l).
Proof.
  induction 1 as [|x l Hl IH Hx]; cbn; [constructor|].
  apply StronglySorted_snoc; [exact IH|].
  apply Forall_forall. intros y Hy. rewrite Forall_forall in Hx.
  apply Hx. now apply list_elem_of_In, in_rev, list_elem_of_In in Hy.
Qed.

(** *** Masks, ranks and positions *)

Lemma count_true_cons (b : bool) (m : list bool) :
  count_true (b :: m) = (if b then S (count_true m) else count_true m).
Proof. unfold count_true. now destruct b. Qed.

Lemma select_length {A : Type} (a : list A) (m : list bool) :
  length a = length m -> length (select a m) = count_true m.
Proof.
  revert m. induction a as [|x a IH]; intros [|b m] H; cbn [length] in H;
    try discriminate; [reflexivity|].
  rewrite count_true_cons. cbn [select].
  destruct b; cbn [length]; rewrite IH by lia; reflexivity.
Qed.

Lemma unmask_length (vals : list Q) (mask : list bool) :
  length (unmask vals mask) = length mask.
Proof.
  revert vals. induction mask as [|b mask IH]; intros vals; [reflexivity|].
  destruct b, vals; cbn [unmask length]; now rewrite IH.
Qed.

(** Selecting the masked values by the maxima of the mask is selecting
    the values put back on the grid by the maxima, when every maximum
    is in the mask. *)
Lemma select_unmask (vals : list Q) (mm mask : list bool) :
  length mm = length mask -> length vals = count_true mask ->
  (forall p, nth p mm false = true -> nth p mask false = true) ->
  select vals (select mm mask) = select (unmask vals mask) mm.
Proof.
  revert vals mm. induction mask as [|b mask IH]; intros vals [|c mm] Hlen Hv
    Hin; cbn [length] in Hlen; try discriminate.
  - now destruct vals.
  - rewrite count_true_cons in Hv.
    assert (Hin' : forall p, nth p mm false = true -> nth p mask false = true)
      by (intros p; apply (Hin (S p))).
    destruct b.
    + destruct vals as [|x vals]; [discriminate|]. cbn [length] in Hv.
      cbn [select unmask].
      destruct c; [f_equal|]; apply IH; auto; lia.
    + destruct c; [specialize (Hin 0 eq_refl); discriminate|].
      cbn [select unmask]. apply IH; auto; lia.
Qed.

(** The value put back at a voxel of the mask is the one at the rank of
    the voxel among the voxels of the mask. *)
Lemma nth_unmask (vals : list Q) (mask : list bool) (p : nat) :
  nth p mask false = true ->
  nth p (unmask vals mask) 0%Q = nth (count_true (take p mask)) vals 0%Q.
Proof.
  revert vals p. induction mask as [|b mask IH]; intros vals p Hp.
  - now destruct p.
  - destruct p as [|p]; cbn [nth] in Hp.
    + subst b. now destruct vals.
    + cbn [take]. rewrite count_true_cons.
      destruct b; [destruct vals as [|v vals]|]; cbn [unmask nth];
        rewrite IH by exact Hp; try reflexivity.
      now destruct (count_true (take p mask)).
Qed.

Lemma nth_select_rank (a : list Q) (mask : list bool) (p : nat) :
  length a = length mask -> nth p mask false = true ->
  nth (count_true (take p mask)) (select a mask) 0%Q = nth p a 0%Q.
Proof.
  revert a p. induction mask as [|b mask IH]; intros [|x a] p Hlen Hp;
    cbn [length] in Hlen; try discriminate.
  - now destruct p.
  - destruct p as [|p]; cbn [nth] in Hp.
    + now subst b.
    + cbn [take]. rewrite count_true_cons.
      destruct b; cbn [select nth]; apply IH; auto; lia.
Qed.

Lemma count_select_le (mm mask : list bool) :
  count_true (select mm mask) <= count_true mm.
Proof.
  revert mask. induction mm as [|c mm IH]; intros [|b mask]; cbn [select];
    rewrite ?count_true_cons; try (unfold count_true; cbn; lia).
  specialize (IH mask).
  destruct b, c; rewrite ?count_true_cons; lia.
Qed.

(** Either every maximum is in the mask, or one is not and the mask
    selects fewer maxima than there are. *)
Lemma maxima_in_mask_cases (mm mask : list bool) :
  length mm = length mask ->
  ((forall p, nth p mm false = true -> nth p mask false = true)
   /\ count_true (select mm mask) = count_true mm)
  \/ ((exists p, nth p mm false = true /\ nth p mask false = false)
      /\ count_true (select mm mask) < count_true mm).
Proof.
  revert mask. induction mm as [|c mm IH]; intros [|b mask] Hlen;
    cbn [length] in Hlen; try discriminate.
  - left. split; [now intros [|p] | reflexivity].
  - cbn [select]. pose proof (count_select_le mm mask) as Hle.
    destruct (IH mask ltac:(lia)) as [[Hall Hc] | [(p & Hp & Hm) Hc]].
    + destruct b, c; rewrite ?count_true_cons.
      * left. split; [|lia]. intros [|p]; cbn [nth]; auto.
      * left. split; [|lia]. intros [|p]; cbn [nth]; auto.
      * right. split; [|lia]. now exists 0.
      * left. split; [|lia]. intros [|p]; cbn [nth]; auto.
    + right. split; [now exists (S p)|].
      destruct b, c; rewrite ?count_true_cons; lia.
Qed.

Lemma In_where_from (m : list bool) (start p : nat) :
  In p (select (seq start (length m)) m) ->
  start <= p /\ nth (p - start) m false = true.
Proof.
  revert start. induction m as [|b m IH]; intros start; [contradiction|].
  cbn [length seq select]. intros H.
  assert (Htail : In p (select (seq (S start) (length m)) m) ->
                  start <= p /\ nth (p - start) (b :: m) false = true).
  { intros H'. apply IH in H' as [Hle Hp]. split; [lia|].
    replace (p - start) with (S (p - S start)) by lia. exact Hp. }
  destruct b; [destruct H as [<- | H]|]; auto.
  split; [lia|]. now rewrite Nat.sub_diag.
Qed.

Lemma In_where (m : list bool) (p : nat) :
  In p (where_ m) -> nth p m false = true.
Proof.
  intros H. apply In_where_from in H as [_ H]. now rewrite Nat.sub_0_r in H.
Qed.

Lemma take_idx_map_in (f : nat -> Q) (P idx : list nat) :
  Forall (fun i => i < length P) idx ->
  take_idx (map f P) idx = map f (map (fun i => nth i P 0) idx).
Proof.
  intros H. unfold take_idx. rewrite List.map_map.
  apply map_ext_in. intros i Hi. rewrite Forall_forall in H.
  apply nth_map_in, H, list_elem_of_In, Hi.
Qed.

Section ClusterStatsMore.

Variable sf : Q -> Q.
Variable isf : Q -> ext.
Variable argsort : list Q -> list nat.
Variable check_same_fov : Niimg -> Niimg -> bool.
Variable coord_transform : nat -> nat -> nat -> Affine -> Coord.
Variable label : list nat -> list bool -> list nat * nat.
Variable maximum_filter : list nat -> list Q -> nat -> list Q.

(** What [np.argsort] promises whatever its [kind]: a permutation of
    the positions along which the keys increase. *)
Hypothesis argsort_perm :
  forall a, Permutation (argsort a) (seq 0 (length a)).
Hypothesis argsort_sorted :
  forall a, StronglySorted (key_le a) (argsort a).

(** *** What a call can raise *)

Lemma z_threshold_of_raise (height_control : string) (threshold : Q)
    (stat_map : list Q) (mask : list bool) (n_voxels : nat) (e : exn) :
  z_threshold_of sf isf argsort height_control threshold stat_map mask
    n_voxels = Raise e ->
  height_control = "fdr" /\ select stat_map mask = []
  /\ e = ZeroDivisionError.
Proof.
  unfold z_threshold_of.
  destruct (String.eqb height_control "fpr"); [discriminate|].
  destruct (String.eqb_spec height_control "fdr") as [->|_].
  - intros H.
    now apply (fdr_threshold_raise argsort argsort_perm) in H.
  - now destruct (String.eqb height_control "bonferroni").
Qed.

(** With the three keys present, one turn of the loop can only raise
    the [TypeError] of line 150 or the [IndexError] of line 169. *)
Lemma cluster_body_raise (nulls : nat) (n_voxels : nat)
    (cluster_threshold : Q) (labels : list nat) (maxima_coords : list Coord)
    (maxima_labels : list nat) (maxima_values max_fdr_pvalues : list Q)
    (k : nat) (clusters : list cluster) (s s' : store) (e : exn) :
  is_Some ((s !!! nulls) !! "zmax") -> is_Some ((s !!! nulls) !! "smax") ->
  is_Some ((s !!! nulls) !! "s") ->
  cluster_body sf argsort nulls n_voxels cluster_threshold labels
    maxima_coords maxima_labels maxima_values max_fdr_pvalues k clusters s
  = (Raise e, s') ->
  (e = TypeError /\ exists a, (s !!! nulls) !! "zmax" = Some (PArr a))
  \/ (e = IndexError /\ length max_fdr_pvalues <> length maxima_labels).
Proof.
  intros [vz Hz] [vs Hs] [vx Hx]. unfold cluster_body.
  destruct (Qle_bool _ _); [|discriminate].
  rewrite bind_getitem, Hz.
  destruct vz as [tag| |a]; cbn beta iota;
    [destruct (String.eqb tag "bonferroni")| |];
    rewrite ?bind_ret, ?bind_raise; cbn beta iota.
  1-3: rewrite bind_getitem, Hs, bind_getitem, Hx, bind_lift;
    unfold bool_index; rewrite length_map;
    (destruct (Nat.eqb_spec (length max_fdr_pvalues) (length maxima_labels))
       as [E|E]; [discriminate|]);
    intros [= <- _]; right; now split.
  intros [= <- _]. left. eauto.
Qed.

Lemma for_each_cluster_body_raise (nulls : nat) (n_voxels : nat)
    (cluster_threshold : Q) (labels : list nat) (maxima_coords : list Coord)
    (maxima_labels : list nat) (maxima_values max_fdr_pvalues : list Q)
    (js : list nat) (clusters : list cluster) (s s' : store) (e : exn) :
  is_Some ((s !!! nulls) !! "zmax") -> is_Some ((s !!! nulls) !! "smax") ->
  is_Some ((s !!! nulls) !! "s") ->
  for_each js
    (cluster_body sf argsort nulls n_voxels cluster_threshold labels
       maxima_coords maxima_labels maxima_values max_fdr_pvalues)
    clusters s = (Raise e, s') ->
  s' = s
  /\ ((e = TypeError /\ exists a, (s !!! nulls) !! "zmax" = Some (PArr a))
      \/ (e = IndexError /\ length max_fdr_pvalues <> length maxima_labels)).
Proof.
  intros Hz Hs Hx. revert clusters.
  induction js as [|j js IH]; intros clusters; cbn [for_each].
  - discriminate.
  - unfold bind at 1.
    pose proof (cluster_body_store sf argsort nulls n_voxels cluster_threshold
                  labels maxima_coords maxima_labels maxima_values
                  max_fdr_pvalues j clusters s) as Hst.
    destruct (cluster_body _ _ _ _ _ _ _ _ _ _ j clusters s)
      as [[acc|e0] t] eqn:Eb; cbn [snd] in Hst; subst t.
    + apply IH.
    + intros [= <- <-]. split; [reflexivity|].
      eapply cluster_body_raise; eauto.
Qed.

(** X12: what a call can raise.  It never raises [KeyError], the
    defaults being filled in before the dictionary is read.  A
    [ValueError] means that the two images do not have the same field of
    view or that the grid is not three-dimensional, a
    [ZeroDivisionError] that the mask selects no voxel, and both leave
    the dictionary as it was; a [TypeError] means that the entry 'zmax'
    is an array. *)
Theorem cluster_stats_exceptions (stat_img mask_img : Niimg) (threshold : Q)
    (height_control : string) (cluster_threshold : Q) (nulls : option nat)
    (s s' : store) (e : exn) :
  cluster_stats sf isf argsort check_same_fov coord_transform label
    maximum_filter stat_img mask_img threshold height_control
    cluster_threshold nulls s = (Raise e, s') ->
  let l := default default_nulls nulls in
  let mask := mask_of mask_img in
  e <> KeyError
  /\ (e = ValueError ->
      (check_same_fov mask_img stat_img = false
       \/ length (img_shape mask_img) <> 3)
      /\ s' = s)
  /\ (e = ZeroDivisionError ->
      select (stat_map_of stat_img mask) mask = [] /\ s' = s)
  /\ (e = TypeError ->
      exists a, (s !!! l) !! "zmax" = Some (PArr a)).
Proof.
  rewrite cluster_stats_run. cbv zeta.
  destruct (check_same_fov mask_img stat_img) eqn:Efov; cbn [negb].
  2:{ intros [= <- <-]. repeat split; try discriminate. now left. }
  destruct (z_threshold_of _ _ _ _ _ _ _ _) as [z_threshold|e0] eqn:Ez.
  2:{ apply z_threshold_of_raise in Ez as (_ & Hsel & ->).
      intros [= <- <-]. repeat split; try discriminate. exact Hsel. }
  destruct (forallb negb _); [discriminate|].
  destruct (img_shape mask_img) as [|nx [|ny [|nz [|? ?]]]] eqn:Eshape;
    try (intros [= <- <-]; repeat split; try discriminate;
         right; cbn [length]; lia).
  destruct (fdr_pvalues _ _ _) as [fdr_all|e0] eqn:Ef.
  2:{ apply fdr_pvalues_raise in Ef as [Hsel ->].
      intros [= <- <-]. repeat split; try discriminate. exact Hsel. }
  destruct (for_each _ _ _ _) as [[cs|e0] t] eqn:Eloop; [discriminate|].
  intros [= <- <-].
  destruct (with_defaults_keys (s !!! default default_nulls nulls))
    as (Kz & Ks & Kx).
  apply for_each_cluster_body_raise in Eloop
    as [_ [[-> (a & Ha)] | [-> _]]];
    rewrite ?filled_store_lookup; try assumption;
    repeat split; try discriminate.
  intros _. rewrite filled_store_lookup in Ha.
  destruct ((s !!! default default_nulls nulls) !! "zmax") as [v|] eqn:Ev.
  - rewrite (with_defaults_present _ _ _ Ev) in Ha. eauto.
  - unfold with_defaults in Ha.
    rewrite set_default_other, set_default_other in Ha by discriminate.
    unfold set_default in Ha. rewrite Ev in Ha.
    rewrite bool_decide_eq_false_2 in Ha by (intros [? ?]; discriminate).
    rewrite lookup_insert_eq in Ha. discriminate.
Qed.

(** X17: when the mask selects no voxel, the mode 'fdr' raises
    [ZeroDivisionError] without touching the dictionary, and in no mode
    does a call return a cluster. *)
Theorem cluster_stats_empty_selection (stat_img mask_img : Niimg)
    (threshold : Q) (height_control : string) (cluster_threshold : Q)
    (nulls : option nat) (s : store) :
  check_same_fov mask_img stat_img = true ->
  select (stat_map_of stat_img (mask_of mask_img)) (mask_of mask_img) = [] ->
  cluster_stats sf isf argsort check_same_fov coord_transform label
    maximum_filter stat_img mask_img threshold "fdr" cluster_threshold
    nulls s = (Raise ZeroDivisionError, s)
  /\ forall clusters info,
       fst (cluster_stats sf isf argsort check_same_fov coord_transform
              label maximum_filter stat_img mask_img threshold
              height_control cluster_threshold nulls s)
       = Ok (clusters, info) ->
       clusters = [].
Proof.
  intros Hfov Hsel. split.
  - rewrite cluster_stats_run. cbv zeta. rewrite Hfov. cbn [negb].
    unfold z_threshold_of.
    replace (String.eqb "fdr" "fpr") with false by reflexivity.
    replace (String.eqb "fdr" "fdr") with true by reflexivity.
    rewrite Hsel.
    now rewrite (fdr_threshold_nil argsort argsort_perm).
  - intros clusters info. rewrite cluster_stats_run. cbv zeta.
    rewrite Hfov. cbn [negb].
    destruct (z_threshold_of _ _ _ _ _ _ _ _) as [z_threshold|e0];
      [|discriminate].
    destruct (forallb negb _); [now intros [= <- <-]|].
    destruct (img_shape mask_img) as [|nx [|ny [|nz [|? ?]]]];
      try discriminate.
    rewrite Hsel. discriminate.
Qed.

(** *** What a call returns *)

Lemma cluster_body_kept (nulls : nat) (n_voxels : nat)
    (cluster_threshold : Q) (labels : list nat) (maxima_coords : list Coord)
    (maxima_labels : list nat) (maxima_values max_fdr_pvalues : list Q)
    (k : nat) (clusters clusters' : list cluster) (s s' : store) :
  cluster_body sf argsort nulls n_voxels cluster_threshold labels
    maxima_coords maxima_labels maxima_values max_fdr_pvalues k clusters s
  = (Ok clusters', s') ->
  if Qle_bool cluster_threshold
       (Qnat (length (List.filter (Nat.eqb (k + 1)) labels)))
  then exists c,
         clusters' = clusters ++ [c]
         /\ is_cluster_of argsort labels maxima_coords maxima_labels
              maxima_values k c
         /\ cluster_fields sf argsort (s !!! nulls) n_voxels c
         /\ has_fdr_pvalue argsort maxima_labels maxima_values
              max_fdr_pvalues k c
  else clusters' = clusters.
Proof.
  unfold cluster_body, cluster_fields, has_fdr_pvalue.
  destruct (Qle_bool _ _); [|now intros [= <- <-]].
  destruct (bool_index max_fdr_pvalues (map (Nat.eqb (k + 1)) maxima_labels))
    as [fdr_in|e] eqn:Eb.
  - unfold bool_index in Eb. rewrite length_map in Eb.
    destruct (Nat.eqb_spec (length max_fdr_pvalues) (length maxima_labels))
      as [El|El]; [|discriminate Eb].
    injection Eb as <-.
    destruct ((s !!! nulls) !! "zmax") as [[tag| |a]|] eqn:Ez;
      destruct ((s !!! nulls) !! "smax") as [[tag'| |a']|] eqn:Es;
      destruct ((s !!! nulls) !! "s") as [[tag''| |a'']|] eqn:Ex;
      repeat (progress (rewrite ?bind_getitem, ?bind_ret, ?bind_raise,
                          ?bind_lift, ?Ez, ?Es, ?Ex; cbn beta iota)
              || match goal with
                 | |- context [String.eqb ?a ?b] => destruct (String.eqb a b)
                 end);
      try discriminate;
      intros [= <- <-]; eexists; (split; [reflexivity|]); cbn;
      unfold take_coord, take_idx; rewrite !length_map; repeat split;
      exact El.
  - destruct ((s !!! nulls) !! "zmax") as [[tag| |a]|] eqn:Ez;
      destruct ((s !!! nulls) !! "smax") as [[tag'| |a']|] eqn:Es;
      destruct ((s !!! nulls) !! "s") as [[tag''| |a'']|] eqn:Ex;
      repeat (progress (rewrite ?bind_getitem, ?bind_ret, ?bind_raise,
                          ?bind_lift, ?Ez, ?Es, ?Ex; cbn beta iota)
              || match goal with
                 | |- context [String.eqb ?a ?b] => destruct (String.eqb a b)
                 end);
      discriminate.
Qed.

Lemma for_each_cluster_body_kept (nulls : nat) (n_voxels : nat)
    (cluster_threshold : Q) (labels : list nat) (maxima_coords : list Coord)
    (maxima_labels : list nat) (maxima_values max_fdr_pvalues : list Q)
    (js : list nat) (clusters clusters' : list cluster) (s s' : store) :
  for_each js
    (cluster_body sf argsort nulls n_voxels cluster_threshold labels
       maxima_coords maxima_labels maxima_values max_fdr_pvalues)
    clusters s = (Ok clusters', s') ->
  exists new,
    clusters' = clusters ++ new
    /\ Forall2
         (fun k c =>
            is_cluster_of argsort labels maxima_coords maxima_labels
              maxima_values k c
            /\ cluster_fields sf argsort (s !!! nulls) n_voxels c
            /\ has_fdr_pvalue argsort maxima_labels maxima_values
                 max_fdr_pvalues k c)
         (List.filter
            (fun k =>
               Qle_bool cluster_threshold
                 (Qnat (length (List.filter (Nat.eqb (k + 1)) labels))))
            js)
         new.
Proof.
  revert clusters. induction js as [|j js IH]; intros clusters.
  - cbn. intros [= <- <-]. exists []. rewrite app_nil_r.
    split; [reflexivity | constructor].
  - cbn [for_each List.filter]. unfold bind at 1.
    pose proof (cluster_body_store sf argsort nulls n_voxels cluster_threshold
                  labels maxima_coords maxima_labels maxima_values
                  max_fdr_pvalues j clusters s) as Hst.
    destruct (cluster_body _ _ _ _ _ _ _ _ _ _ j clusters s)
      as [[acc|e] t] eqn:Eb; [|discriminate].
    cbn [snd] in Hst. subst t.
    intros Hrest. apply IH in Hrest as (new & -> & Hnew).
    apply cluster_body_kept in Eb.
    destruct (Qle_bool _ _).
    + destruct Eb as (c & -> & Hc). exists (c :: new).
      rewrite <- app_assoc. split; [reflexivity | now constructor].
    + subst acc. now exists new.
Qed.

(** How a call that returns has run. *)
Lemma cluster_stats_returns (stat_img mask_img : Niimg) (threshold : Q)
    (height_control : string) (cluster_threshold : Q) (nulls : option nat)
    (s : store) (clusters : list cluster) (info : info) :
  fst (cluster_stats sf isf argsort check_same_fov coord_transform label
         maximum_filter stat_img mask_img threshold height_control
         cluster_threshold nulls s) = Ok (clusters, info) ->
  let l := default default_nulls nulls in
  let mask := mask_of mask_img in
  let stat_map := stat_map_of stat_img mask in
  let above_th := above_th_of stat_map (threshold_z info) in
  let above_values := above_values_of stat_map above_th in
  let labels := fst (label (img_shape mask_img) above_th) in
  let n_labels := snd (label (img_shape mask_img) above_th) in
  let size := fun k => length (List.filter (Nat.eqb (k + 1)) labels) in
  let maxima_mask :=
    maxima_mask_of maximum_filter (img_shape mask_img) above_values
      (threshold_z info) in
  n_voxels info = count_true mask
  /\ ((forallb negb above_th = true /\ clusters = [])
      \/ (forallb negb above_th = false
          /\ exists nx ny nz fdr_all new,
               img_shape mask_img = [nx; ny; nz]
               /\ fdr_pvalues sf argsort (select stat_map mask) = Ok fdr_all
               /\ clusters
                  = take_cluster new
                      (argsort (map (fun c => (- Qnat (cl_size c))%Q) new))
               /\ Forall2
                    (fun k c =>
                       is_cluster_of argsort labels
                         (map (voxel_coord coord_transform ny nz
                                 (img_affine mask_img))
                            (where_ maxima_mask))
                         (select labels maxima_mask)
                         (select above_values maxima_mask) k c
                       /\ cluster_fields sf argsort (with_defaults (s !!! l))
                            (count_true mask) c
                       /\ has_fdr_pvalue argsort (select labels maxima_mask)
                            (select above_values maxima_mask)
                            (select fdr_all (select maxima_mask mask)) k c)
                    (List.filter
                       (fun k => Qle_bool cluster_threshold (Qnat (size k)))
                       (seq 0 n_labels))
                    new)).
Proof.
  rewrite cluster_stats_run. cbv zeta.
  destruct (negb _); [discriminate|].
  destruct (z_threshold_of _ _ _ _ _ _ _ _) as [z_threshold|e];
    [|discriminate].
  destruct (forallb negb _) eqn:Eall.
  { intros [= <- <-]. cbn [threshold_z n_voxels make_info].
    split; [reflexivity|]. left. now split. }
  destruct (img_shape mask_img) as [|nx [|ny [|nz [|? ?]]]] eqn:Eshape;
    try discriminate.
  destruct (fdr_pvalues _ _ _) as [fdr_all|e] eqn:Ef; [|discriminate].
  destruct (for_each _ _ _ _) as [[cs|e] t] eqn:Eloop; [|discriminate].
  intros [= <- <-]. cbn [threshold_z n_voxels make_info].
  split; [reflexivity|]. right. split; [exact Eall|].
  apply for_each_cluster_body_kept in Eloop as (new & -> & Hnew).
  rewrite filled_store_lookup in Hnew. cbn [app].
  exists nx, ny, nz, fdr_all, new. split; [reflexivity|].
  split; [reflexivity|]. split; [reflexivity | exact Hnew].
Qed.

Lemma Forall2_map_eq {A B C : Type} (P : A -> B -> Prop) (f : A -> C)
    (g : B -> C) (l : list A) (k : list B) :
  Forall2 P l k -> (forall x y, P x y -> g y = f x) -> map g k = map f l.
Proof.
  intros H HP. induction H as [|x y l k Hxy H IH]; [reflexivity|].
  cbn. now rewrite IH, (HP x y Hxy).
Qed.

(** X13: the clusters a call returns are the connected components with
    at least [cluster_threshold] voxels, each of them once: their sizes
    are, up to their order, the voxel counts of the labels that pass the
    threshold, and no returned cluster is smaller than the threshold. *)
Theorem cluster_stats_reports_components (stat_img mask_img : Niimg)
    (threshold : Q) (height_control : string) (cluster_threshold : Q)
    (nulls : option nat) (s : store) (clusters : list cluster)
    (info : info) :
  fst (cluster_stats sf isf argsort check_same_fov coord_transform label
         maximum_filter stat_img mask_img threshold height_control
         cluster_threshold nulls s) = Ok (clusters, info) ->
  let stat_map := stat_map_of stat_img (mask_of mask_img) in
  let above_th := above_th_of stat_map (threshold_z info) in
  let labels := fst (label (img_shape mask_img) above_th) in
  let n_labels := snd (label (img_shape mask_img) above_th) in
  let size := fun k => length (List.filter (Nat.eqb (k + 1)) labels) in
  Forall (fun c => (cluster_threshold <= Qnat (cl_size c))%Q) clusters
  /\ (In true above_th ->
      Permutation (map cl_size clusters)
        (map size
           (List.filter
              (fun k => Qle_bool cluster_threshold (Qnat (size k)))
              (seq 0 n_labels)))).
Proof.
  intros Hret. apply cluster_stats_returns in Hret.
  cbv zeta in Hret. cbv zeta.
  destruct Hret as [_ [[Hall ->] | [Hsome (nx & ny & nz & fa & new & _ & _ & -> & Hnew)]]].
  - split; [constructor|]. intros Hin.
    rewrite forallb_forall in Hall. specialize (Hall true Hin). discriminate.
  - assert (Hperm : Permutation
                      (take_cluster new
                         (argsort (map (fun c => (- Qnat (cl_size c))%Q) new)))
                      new).
    { apply take_cluster_perm. rewrite <- (length_map
        (fun c => (- Qnat (cl_size c))%Q) new). apply argsort_perm. }
    split.
    + apply (Permutation_Forall (Permutation_sym Hperm)).
      apply Forall_forall. intros c Hc. apply list_elem_of_In in Hc.
      destruct (Forall2_In_r _ _ _ _ Hnew Hc) as (k & Hk & (Hsz & _) & _).
      apply filter_In in Hk as [_ Hk]. apply Qle_bool_iff in Hk.
      now rewrite Hsz.
    + intros _. rewrite (Permutation_map cl_size Hperm).
      erewrite (Forall2_map_eq _ _ cl_size _ _ Hnew); [reflexivity|].
      now intros k c [[Hsz _] _].
Qed.

(** X14: the fields of every returned cluster.  'pvalue' is the survival
    function of 'zscore', entry by entry; 'maxima', 'zscore' and
    'fdr_pvalue' have one entry per maximum; and the three corrected
    fields are read off the dictionary of null distributions with its
    defaults filled in: 'fwer_pvalue' is [min(1, p * n_voxels)] under
    'bonferroni' (the default) and [None] under any other value that lets
    the call return, 'cluster_fwer_pvalue' and 'cluster_pvalue' are the
    empirical p-value of the cluster size where 'smax' and 's' hold an
    array, and [None] otherwise. *)
Theorem cluster_stats_fields (stat_img mask_img : Niimg) (threshold : Q)
    (height_control : string) (cluster_threshold : Q) (nulls : option nat)
    (s : store) (clusters : list cluster) (info : info) :
  fst (cluster_stats sf isf argsort check_same_fov coord_transform label
         maximum_filter stat_img mask_img threshold height_control
         cluster_threshold nulls s) = Ok (clusters, info) ->
  Forall
    (cluster_fields sf argsort
       (with_defaults (s !!! default default_nulls nulls)) (n_voxels info))
    clusters.
Proof.
  intros Hret. apply cluster_stats_returns in Hret.
  cbv zeta in Hret.
  destruct Hret as [-> [[_ ->] | [_ (nx & ny & nz & fa & new & _ & _ & -> & Hnew)]]];
    [constructor|].
  apply Forall_forall. intros c Hc.
  apply list_elem_of_In, In_take_cluster in Hc.
  now destruct (Forall2_In_r _ _ _ _ Hnew Hc) as (k & _ & _ & Hf & _).
Qed.

Lemma take_cluster_cons (cs : list cluster) (i : nat) (order : list nat)
    (c : cluster) :
  cs !! i = Some c ->
  take_cluster cs (i :: order) = c :: take_cluster cs order.
Proof. intros H. unfold take_cluster. cbn. now rewrite H. Qed.

Lemma nth_size_key (cs : list cluster) (i : nat) (c : cluster) :
  cs !! i = Some c ->
  nth i (map (fun c => (- Qnat (cl_size c))%Q) cs) 0%Q
  = (- Qnat (cl_size c))%Q.
Proof.
  intros H. rewrite lookup_nth_error in H. apply nth_error_nth.
  now rewrite (map_nth_error _ _ _ H).
Qed.

Lemma take_cluster_sorted (cs : list cluster) (order : list nat) :
  Forall (fun i => i < length cs) order ->
  StronglySorted (key_le (map (fun c => (- Qnat (cl_size c))%Q) cs)) order ->
  StronglySorted (fun c c' => cl_size c' <= cl_size c)
    (take_cluster cs order).
Proof.
  intros Hlt Hs. induction Hs as [|i order Hs IH Hi]; [constructor|].
  apply Forall_cons in Hlt as [Hil Hlt].
  destruct (lookup_lt_is_Some_2 cs i Hil) as [c Hc].
  rewrite (take_cluster_cons _ _ _ _ Hc). constructor; [now apply IH|].
  apply Forall_forall. intros c' Hc'.
  apply list_elem_of_omap in Hc' as (j & Hj & Hjc).
  rewrite Forall_forall in Hi. specialize (Hi j Hj). unfold key_le in Hi.
  rewrite (nth_size_key _ _ _ Hc), (nth_size_key _ _ _ Hjc) in Hi.
  apply Qnat_le_iff. lra.
Qed.

Lemma take_idx_rev_sorted (a : list Q) :
  StronglySorted (fun x y => (y <= x)%Q) (take_idx a (rev (argsort a))).
Proof.
  unfold take_idx. rewrite map_rev.
  apply (StronglySorted_rev Qle).
  apply (np_sort_sorted argsort argsort_sorted).
Qed.

(** X16: the two promises of the docstring hold for any sorting
    algorithm behind [np.argsort], stable or not: the returned clusters
    come by non-increasing size, and within each cluster the z-scores of
    the maxima come in non-increasing order. *)
Theorem cluster_stats_descending (stat_img mask_img : Niimg) (threshold : Q)
    (height_control : string) (cluster_threshold : Q) (nulls : option nat)
    (s : store) (clusters : list cluster) (info : info) :
  fst (cluster_stats sf isf argsort check_same_fov coord_transform label
         maximum_filter stat_img mask_img threshold height_control
         cluster_threshold nulls s) = Ok (clusters, info) ->
  StronglySorted (fun c c' => cl_size c' <= cl_size c) clusters
  /\ Forall
       (fun c => StronglySorted (fun x y => (y <= x)%Q) (cl_zscore c))
       clusters.
Proof.
  intros Hret. apply cluster_stats_returns in Hret.
  cbv zeta in Hret.
  destruct Hret as [_ [[_ ->] | [_ (nx & ny & nz & fa & new & _ & _ & -> & Hnew)]]];
    [split; constructor|].
  split.
  - apply take_cluster_sorted; [|apply argsort_sorted].
    apply Forall_forall. intros i Hi.
    apply list_elem_of_In, (argsort_lt argsort argsort_perm) in Hi.
    now rewrite length_map in Hi.
  - apply Forall_forall. intros c Hc.
    apply list_elem_of_In, In_take_cluster in Hc.
    destruct (Forall2_In_r _ _ _ _ Hnew Hc) as (k & _ & (_ & Hz & _) & _).
    rewrite Hz. apply take_idx_rev_sorted.
Qed.

(** *** The modes, and an array under 'zmax' *)


Lemma for_each_zmax_array_raise (nulls : nat) (n_voxels : nat)
    (cluster_threshold : Q) (labels : list nat) (maxima_coords : list Coord)
    (maxima_labels : list nat) (maxima_values max_fdr_pvalues : list Q)
    (js : list nat) (clusters : list cluster) (s s' : store) (a : list Q)
    (e : exn) :
  (s !!! nulls) !! "zmax" = Some (PArr a) ->
  for_each js
    (cluster_body sf argsort nulls n_voxels cluster_threshold labels
       maxima_coords maxima_labels maxima_values max_fdr_pvalues)
    clusters s = (Raise e, s') ->
  e = TypeError.
Proof.
  intros Hz. induction js as [|j js IH]; cbn [for_each]; [discriminate|].
  unfold bind at 1.
  rewrite (cluster_body_zmax_array sf argsort _ _ _ _ _ _ _ _ _ _ _ a Hz).
  destruct (Qle_bool _ _); [now intros [= <- _] | exact IH].
Qed.

(** X15: with an array under 'zmax' (the permutation-test setting),
    line 150 makes the first cluster that passes the size threshold end
    the call: whatever the images, a call returns no cluster at all, or
    raises; and what it raises in the loop is the [TypeError]. *)
Theorem cluster_stats_zmax_array_outcome (stat_img mask_img : Niimg)
    (threshold : Q) (height_control : string) (cluster_threshold : Q)
    (nulls : option nat) (s : store) (a : list Q) :
  (s !!! default default_nulls nulls) !! "zmax" = Some (PArr a) ->
  match
    fst (cluster_stats sf isf argsort check_same_fov coord_transform label
           maximum_filter stat_img mask_img threshold height_control
           cluster_threshold nulls s)
  with
  | Ok (clusters, _) => clusters = []
  | Raise e => e = ValueError \/ e = ZeroDivisionError \/ e = TypeError
  end.
Proof.
  intros Hz.
  assert (Hz' : (filled_store (default default_nulls nulls) s
                 !!! default default_nulls nulls) !! "zmax" = Some (PArr a))
    by (rewrite filled_store_lookup; now apply with_defaults_present).
  rewrite cluster_stats_run. cbv zeta.
  destruct (negb _); [now left|].
  destruct (z_threshold_of _ _ _ _ _ _ _ _) as [z_threshold|e] eqn:Ez.
  2:{ apply z_threshold_of_raise in Ez as (_ & _ & ->). right. now left. }
  destruct (forallb negb _); [reflexivity|].
  destruct (img_shape mask_img) as [|nx [|ny [|nz [|? ?]]]];
    try (now left).
  destruct (fdr_pvalues _ _ _) as [fdr_all|e] eqn:Ef.
  2:{ apply fdr_pvalues_raise in Ef as [_ ->]. right. now left. }
  destruct (for_each _ _ _ _) as [[cs|e] t] eqn:Eloop; cbn [fst].
  - apply (for_each_zmax_array sf argsort _ _ _ _ _ _ _ _ _ _ _ _ _ a Hz')
      in Eloop.
    subst cs. unfold take_cluster.
    now induction (argsort _) as [|i order IH].
  - apply (for_each_zmax_array_raise _ _ _ _ _ _ _ _ _ _ _ _ a _ Hz')
      in Eloop.
    right. now right.
Qed.

Lemma take_coord_map_in (f : nat -> Coord) (P idx : list nat) :
  Forall (fun i => i < length P) idx ->
  take_coord (map f P) idx = map f (map (fun i => nth i P 0) idx).
Proof.
  intros H. unfold take_coord. rewrite List.map_map.
  apply map_ext_in. intros i Hi. rewrite Forall_forall in H.
  apply nth_map_in, H, list_elem_of_In, Hi.
Qed.

(** *** The corrected p-values of the maxima *)

(** scipy's [label] and [maximum_filter] return arrays of the shape of
    their argument. *)
Hypothesis label_length :
  forall shape a, length (fst (label shape a)) = length a.
Hypothesis maximum_filter_length :
  forall shape a size, length (maximum_filter shape a size) = length a.

Lemma grid_lengths (stat_img mask_img : Niimg) (z_threshold : ext) :
  length (img_data stat_img) = length (img_data mask_img) ->
  let mask := mask_of mask_img in
  let stat_map := stat_map_of stat_img mask in
  let above_th := above_th_of stat_map z_threshold in
  let above_values := above_values_of stat_map above_th in
  length stat_map = length mask
  /\ length above_values = length mask
  /\ length (maxima_mask_of maximum_filter (img_shape mask_img) above_values
               z_threshold) = length mask
  /\ length (fst (label (img_shape mask_img) above_th)) = length mask.
Proof.
  intros Hlen mask stat_map above_th above_values.
  assert (Hm : length mask = length (img_data mask_img))
    by apply length_map.
  assert (Hs : length stat_map = length mask).
  { unfold stat_map, stat_map_of.
    rewrite length_zip_with_same; rewrite ?length_map; fold mask; lia. }
  assert (Ha : length above_th = length mask)
    by (unfold above_th, above_th_of; now rewrite length_map).
  assert (Hv : length above_values = length mask).
  { unfold above_values, above_values_of.
    rewrite length_zip_with_same; lia. }
  repeat split; try assumption.
  - unfold maxima_mask_of.
    rewrite length_zip_with_same; rewrite ?maximum_filter_length; lia.
  - now rewrite label_length.
Qed.

(** X20: the 'fdr_pvalue' reported with a maximum is the corrected
    p-value of that voxel.  For images of one size, every returned
    cluster lists its maxima at voxels [ps] of the mask; its 'zscore'
    holds the thresholded statistic at these voxels, its 'fdr_pvalue'
    holds, for each of them, the entry of [fdr_pvalues(stat_map[mask])]
    at the rank of the voxel among the voxels of the mask, which is where
    [stat_map[mask]] holds the statistic of that voxel, and its 'maxima'
    holds the coordinates of these same voxels. *)
Theorem cluster_stats_fdr_pvalue_of_maxima (stat_img mask_img : Niimg)
    (threshold : Q) (height_control : string) (cluster_threshold : Q)
    (nulls : option nat) (s : store) (clusters : list cluster)
    (info : info) :
  length (img_data stat_img) = length (img_data mask_img) ->
  fst (cluster_stats sf isf argsort check_same_fov coord_transform label
         maximum_filter stat_img mask_img threshold height_control
         cluster_threshold nulls s) = Ok (clusters, info) ->
  let mask := mask_of mask_img in
  let stat_map := stat_map_of stat_img mask in
  let above_values :=
    above_values_of stat_map (above_th_of stat_map (threshold_z info)) in
  let rank := fun p => count_true (take p mask) in
  Forall
    (fun c =>
       exists fdr_all ps,
         fdr_pvalues sf argsort (select stat_map mask) = Ok fdr_all
         /\ Forall
              (fun p => nth p mask false = true
                        /\ nth (rank p) (select stat_map mask) 0%Q
                           = nth p stat_map 0%Q) ps
         /\ cl_zscore c = map (fun p => nth p above_values 0%Q) ps
         /\ cl_fdr_pvalue c = map (fun p => nth (rank p) fdr_all 0%Q) ps
         /\ exists nx ny nz,
              img_shape mask_img = [nx; ny; nz]
              /\ cl_maxima c
                 = map (voxel_coord coord_transform ny nz
                          (img_affine mask_img)) ps)
    clusters.
Proof.
  intros Hdata Hret. apply cluster_stats_returns in Hret.
  cbv zeta in Hret. cbv zeta.
  destruct Hret
    as [_ [[_ ->] | [_ (nx & ny & nz & fdr_all & new & Eshape & Hfdr & ->
                        & Hnew)]]];
    [constructor|].
  destruct (grid_lengths stat_img mask_img (threshold_z info) Hdata)
    as (Hs & Hv & Hmm & Hlab).
  cbv zeta in Hs, Hv, Hmm, Hlab.
  set (mask := mask_of mask_img) in *.
  set (stat_map := stat_map_of stat_img mask) in *.
  set (above_th := above_th_of stat_map (threshold_z info)) in *.
  set (above_values := above_values_of stat_map above_th) in *.
  set (labels := fst (label (img_shape mask_img) above_th)) in *.
  set (mm := maxima_mask_of maximum_filter (img_shape mask_img) above_values
               (threshold_z info)) in *.
  assert (Hfa : length fdr_all = count_true mask).
  { assert (Hne : select stat_map mask <> []).
    { intros E. rewrite E in Hfdr. discriminate. }
    destruct (fdr_pvalues_char argsort argsort_perm sf _ Hne)
      as (fdr' & Hf' & Hl' & _).
    rewrite Hfdr in Hf'. injection Hf' as <-.
    rewrite Hl'. now apply select_length. }
  apply Forall_forall. intros c Hc.
  apply list_elem_of_In, In_take_cluster in Hc.
  destruct (Forall2_In_r _ _ _ _ Hnew Hc)
    as (k & _ & (_ & Hz & Hm) & _ & Hlen & Hf).
  cbv zeta in Hlen, Hf.
  (* every maximum is in the mask *)
  assert (Hin : forall p, nth p mm false = true -> nth p mask false = true).
  { rewrite (select_length labels mm) in Hlen by lia.
    rewrite (select_length fdr_all (select mm mask)) in Hlen
      by (rewrite (select_length mm mask) by lia; exact Hfa).
    destruct (maxima_in_mask_cases mm mask Hmm) as [[H _] | [_ H]];
      [exact H | lia]. }
  rewrite (select_unmask fdr_all mm mask Hmm Hfa Hin) in Hf.
  rewrite (select_where (unmask fdr_all mask) mm) in Hf
    by (rewrite unmask_length; lia).
  rewrite (select_where above_values mm) in Hz, Hf, Hm by lia.
  rewrite select_map in Hz. rewrite !select_map in Hf.
  rewrite !select_map in Hm.
  set (P := select (where_ mm) (map (Nat.eqb (k + 1)) (select labels mm)))
    in *.
  set (sorted := rev (argsort (map (fun p => nth p above_values 0%Q) P)))
    in *.
  assert (Hsorted : Forall (fun i => i < length P) sorted).
  { apply Forall_forall. intros i Hi.
    apply list_elem_of_In, in_rev, (argsort_lt argsort argsort_perm) in Hi.
    now rewrite length_map in Hi. }
  rewrite (take_idx_map_in _ P sorted Hsorted) in Hz.
  rewrite (take_idx_map_in _ P sorted Hsorted) in Hf.
  rewrite (take_coord_map_in _ P sorted Hsorted) in Hm.
  set (ps := map (fun i => nth i P 0) sorted) in *.
  assert (Hps : Forall (fun p => nth p mask false = true) ps).
  { apply Forall_forall. intros p Hp.
    apply list_elem_of_In, in_map_iff in Hp as (i & <- & Hi).
    rewrite Forall_forall in Hsorted.
    apply list_elem_of_In, Hsorted in Hi.
    apply Hin, In_where. apply (select_In _ (map (Nat.eqb (k + 1))
                                               (select labels mm))).
    now apply nth_In. }
  exists fdr_all, ps. split; [exact Hfdr|]. split; [|split; [|split]].
  - eapply Forall_impl; [exact Hps|]. cbn beta. intros p Hp.
    split; [exact Hp|]. now apply nth_select_rank.
  - exact Hz.
  - rewrite Hf. apply map_ext_in. intros p Hp.
    apply nth_unmask. rewrite Forall_forall in Hps.
    now apply Hps, list_elem_of_In.
  - exists nx, ny, nz. split; [exact Eshape | exact Hm].
Qed.

(** X21: for images of one size, an [IndexError] means that a voxel
    outside the mask is flagged as a local maximum: the corrected
    p-values, computed inside the mask, are then fewer than the
    maxima they are indexed by. *)
Theorem cluster_stats_index_error (stat_img mask_img : Niimg)
    (threshold : Q) (height_control : string) (cluster_threshold : Q)
    (nulls : option nat) (s s' : store) :
  length (img_data stat_img) = length (img_data mask_img) ->
  cluster_stats sf isf argsort check_same_fov coord_transform label
    maximum_filter stat_img mask_img threshold height_control
    cluster_threshold nulls s = (Raise IndexError, s') ->
  let mask := mask_of mask_img in
  let stat_map := stat_map_of stat_img mask in
  exists z_threshold,
    z_threshold_of sf isf argsort height_control threshold stat_map mask
      (count_true mask) = Ok z_threshold
    /\ exists p,
         nth p (maxima_mask_of maximum_filter (img_shape mask_img)
                  (above_values_of stat_map (above_th_of stat_map z_threshold))
                  z_threshold) false = true
         /\ nth p mask false = false.
Proof.
  intros Hdata. rewrite cluster_stats_run. cbv zeta.
  destruct (negb _); [discriminate|].
  destruct (z_threshold_of _ _ _ _ _ _ _ _) as [z_threshold|e] eqn:Ez.
  2:{ apply z_threshold_of_raise in Ez as (_ & _ & ->). discriminate. }
  destruct (forallb negb _); [discriminate|].
  destruct (img_shape mask_img) as [|nx [|ny [|nz [|? ?]]]] eqn:Eshape;
    try discriminate.
  destruct (fdr_pvalues _ _ _) as [fdr_all|e] eqn:Ef.
  2:{ apply (fdr_pvalues_raise argsort sf) in Ef as [_ ->]. discriminate. }
  destruct (for_each _ _ _ _) as [[cs|e] t] eqn:Eloop; [discriminate|].
  intros [= -> <-].
  destruct (with_defaults_keys (s !!! default default_nulls nulls))
    as (Kz & Ks & Kx).
  apply for_each_cluster_body_raise in Eloop
    as [_ [[He _] | [_ Hlen]]];
    rewrite ?filled_store_lookup; try assumption; [discriminate|].
  destruct (grid_lengths stat_img mask_img z_threshold Hdata)
    as (Hs & Hv & Hmm & Hlab).
  cbv zeta in Hs, Hv, Hmm, Hlab. rewrite Eshape in Hmm, Hlab.
  exists z_threshold. split; [reflexivity|].
  assert (Hfa : length fdr_all = count_true (mask_of mask_img)).
  { assert (Hne : select (stat_map_of stat_img (mask_of mask_img))
                    (mask_of mask_img) <> []).
    { intros E. rewrite E in Ef. discriminate. }
    destruct (fdr_pvalues_char argsort argsort_perm sf _ Hne)
      as (fdr' & Hf' & Hl' & _).
    rewrite Ef in Hf'. injection Hf' as <-.
    rewrite Hl'. now apply select_length. }
  rewrite (select_length _ _ (eq_trans Hlab (eq_sym Hmm))) in Hlen.
  rewrite (select_length fdr_all) in Hlen
    by (rewrite (select_length _ _ Hmm); exact Hfa).
  destruct (maxima_in_mask_cases _ _ Hmm) as [[_ H] | [H _]];
    [congruence | exact H].
Qed.

End ClusterStatsMore.

(** ** The executable instances meet the contracts *)

Module InstanceFacts.

Import Instance.

Lemma insert_idx_perm (a : list Q) (i : nat) (l : list nat) :
  Permutation (insert_idx a i l) (i :: l).
Proof.
  induction l as [|j l IH]; cbn; [reflexivity|].
  destruct (Qle_bool _ _); [reflexivity|].
  rewrite IH. apply perm_swap.
Qed.

Lemma foldr_insert_perm (a : list Q) (js : list nat) :
  Permutation (foldr (insert_idx a) [] js) js.
Proof.
  induction js as [|j js IH]; cbn; [reflexivity|].
  rewrite insert_idx_perm. now constructor.
Qed.

Lemma argsort_perm (a : list Q) :
  Permutation (argsort a) (seq 0 (length a)).
Proof. apply foldr_insert_perm. Qed.

Lemma stable_le_key (a : list Q) (i j : nat) :
  stable_le a i j -> key_le a i j.
Proof. now intros [H _]. Qed.

Lemma insert_idx_stable (a : list Q) (i : nat) (l : list nat) :
  Forall (fun j => i < j) l ->
  StronglySorted (stable_le a) l ->
  StronglySorted (stable_le a) (insert_idx a i l).
Proof.
  intros Hlt Hs. induction Hs as [|j l Hs IH Hj]; cbn.
  - repeat constructor.
  - apply Forall_cons in Hlt as [Hij Hlt].
    destruct (Qle_bool (nth i a 0%Q) (nth j a 0%Q)) eqn:E.
    + apply Qle_bool_iff in E. constructor; [now constructor|].
      constructor; [split; [exact E | intros _; exact Hij]|].
      rewrite Forall_forall in Hj, Hlt. apply Forall_forall.
      intros k Hk. destruct (Hj k Hk) as [Hjk _]. split.
      * unfold key_le in *. lra.
      * intros _. now apply Hlt.
    + assert (Hji : (nth j a 0 < nth i a 0)%Q).
      { apply Qnot_le_lt. intros H. apply Qle_bool_iff in H. congruence. }
      constructor; [now apply IH|].
      apply (Permutation_Forall (Permutation_sym (insert_idx_perm a i l))).
      constructor; [|exact Hj].
      split; unfold key_le; [lra | intros H; lra].
Qed.

Lemma foldr_insert_stable (a : list Q) (n s : nat) :
  StronglySorted (stable_le a) (foldr (insert_idx a) [] (seq s n))
  /\ Forall (fun j => s <= j) (foldr (insert_idx a) [] (seq s n)).
Proof.
  revert s. induction n as [|n IH]; intros s; cbn [seq foldr].
  - split; constructor.
  - destruct (IH (S s)) as [Hs Hlt]. split.
    + apply insert_idx_stable; [|exact Hs].
      eapply Forall_impl; [exact Hlt|]. cbn. lia.
    + apply (Permutation_Forall (Permutation_sym (insert_idx_perm _ _ _))).
      constructor; [lia|]. eapply Forall_impl; [exact Hlt|]. cbn. lia.
Qed.

(** The model of [argsort] is a stable sort. *)
Lemma argsort_stable (a : list Q) : StronglySorted (stable_le a) (argsort a).
Proof. apply foldr_insert_stable. Qed.

Lemma argsort_sorted (a : list Q) : StronglySorted (key_le a) (argsort a).
Proof.
  induction (argsort_stable a) as [|i l Hl IH Hi]; constructor;
    [exact IH|].
  eapply Forall_impl; [exact Hi|]. apply stable_le_key.
Qed.

Ltac split_sf :=
  unfold sf;
  repeat match goal with
    | |- context [Qltb ?x ?c] =>
        let E := fresh "E" in
        destruct (Qltb x c) eqn:E;
        [apply Qltb_lt in E | apply Qltb_ge in E]
    end.

Lemma sf_range (x : Q) : (0 <= sf x <= 1)%Q.
Proof. split_sf; lra. Qed.

Lemma sf_antitone (x y : Q) : (x <= y)%Q -> (sf y <= sf x)%Q.
Proof. intros Hxy. split_sf; lra. Qed.

Lemma sf_compat (x y : Q) : (x == y)%Q -> (sf x == sf y)%Q.
Proof. intros Hxy. split_sf; lra. Qed.

Lemma flood_support (fuel : nat) (shape : list nat) (a : list bool)
    (k : nat) (todo labels : list nat) :
  labelled_in a labels -> labelled_in a (flood fuel shape a k todo labels).
Proof.
  revert todo labels. induction fuel as [|fuel IH]; intros todo labels H;
    [exact H|].
  cbn [flood]. destruct todo as [|i todo]; [exact H|].
  destruct (nth i a false && (nth i labels 0 =? 0)) eqn:E; [|now apply IH].
  apply andb_true_iff in E as [Ea _]. apply IH. intros p Hp.
  destruct (Nat.eq_dec i p) as [<-|Hne]; [exact Ea|].
  rewrite nth_insert_ne in Hp by exact Hne. now apply H.
Qed.

Lemma scan_support (shape : list nat) (a : list bool) (js labels : list nat)
    (n_labels : nat) :
  labelled_in a labels -> labelled_in a (fst (scan shape a js labels n_labels)).
Proof.
  revert labels n_labels. induction js as [|i js IH]; intros labels n H;
    [exact H|].
  cbn [scan]. destruct (nth i a false && (nth i labels 0 =? 0));
    apply IH; [now apply flood_support | exact H].
Qed.

Lemma label_support (shape : list nat) (a : list bool) (p : nat) :
  nth p (fst (label shape a)) 0 <> 0 -> nth p a false = true.
Proof.
  apply scan_support. intros q Hq. exfalso. apply Hq.
  destruct (Nat.lt_ge_cases q (length (replicate (length a) 0))) as [Hlt|Hge].
  - apply nth_lookup_Some, lookup_replicate.
    rewrite length_replicate in Hlt. now split.
  - now apply nth_overflow.
Qed.

Lemma flood_length (fuel : nat) (shape : list nat) (a : list bool)
    (k : nat) (todo labels : list nat) :
  length (flood fuel shape a k todo labels) = length labels.
Proof.
  revert todo labels. induction fuel as [|fuel IH]; intros todo labels;
    [reflexivity|].
  cbn [flood]. destruct todo as [|i todo]; [reflexivity|].
  destruct (nth i a false && (nth i labels 0 =? 0)); rewrite IH;
    [apply length_insert | reflexivity].
Qed.

Lemma scan_length (shape : list nat) (a : list bool) (js labels : list nat)
    (n_labels : nat) :
  length (fst (scan shape a js labels n_labels)) = length labels.
Proof.
  revert labels n_labels. induction js as [|i js IH]; intros labels n;
    [reflexivity|].
  cbn [scan]. destruct (nth i a false && (nth i labels 0 =? 0));
    rewrite IH; [apply flood_length | reflexivity].
Qed.

Lemma label_length (shape : list nat) (a : list bool) :
  length (fst (label shape a)) = length a.
Proof. unfold label. now rewrite scan_length, length_replicate. Qed.

Lemma maximum_filter_length (shape : list nat) (a : list Q) (size : nat) :
  length (maximum_filter shape a size) = length a.
Proof.
  unfold maximum_filter.
  destruct shape as [|nx [|ny [|nz [|? ?]]]]; try reflexivity.
  now rewrite length_map, length_seq.
Qed.

(** The exact difference is one of the roundings the double-precision
    development allows. *)
Lemma fsub_le (x y : Q) : (0 <= y)%Q -> (x - y <= x)%Q.
Proof. intros Hy. lra. Qed.

End InstanceFacts.

(** ** The theorems at concrete arrays *)

Lemma empirical_pvalue_rank_witness :
  [3; 1; 2; 2]%Q <> []
  /\ Forall (fun r => (1 <= r)%Q) [3; 1; 2; 2]%Q
  /\ Instance.empirical_pvalue 1 [3; 1; 2; 2]%Q
     = Fin (1 - Qnat (count_below 1 [3; 1; 2; 2]%Q) * 1 / Qnat 4)%Q
  /\ exists q, Instance.empirical_pvalue 1 [3; 1; 2; 2]%Q = Fin q /\ (q == 1)%Q.
Proof.
  assert (Hne : [3; 1; 2; 2]%Q <> []) by discriminate.
  assert (Hmin : Forall (fun r => (1 <= r)%Q) [3; 1; 2; 2]%Q)
    by (repeat constructor; discriminate).
  destruct (empirical_pvalue_rank Instance.argsort InstanceFacts.argsort_perm
              InstanceFacts.argsort_sorted 1 [3; 1; 2; 2]%Q Hne) as [H1 H2].
  split; [exact Hne|]. split; [exact Hmin|]. split; [exact H1 | exact (H2 Hmin)].
Defined.

Lemma fdr_threshold_last_qualifying_witness :
  [2; 3; 0]%Q <> []
  /\ exists k,
       k < 3
       /\ Doubles.fdr_threshold Instance.sf Instance.argsort Qdiv Qminus
            Qmult linspace [2; 3; 0]%Q (1 # 2)
          = Ok (Fin (nth k [3; 2; 0] 0 - eps)%Q).
Proof.
  split; [discriminate|].
  destruct (fdr_threshold_last_qualifying Instance.argsort
              InstanceFacts.argsort_perm InstanceFacts.argsort_sorted
              Instance.sf Qdiv Qminus Qmult linspace linspace_length
              [2; 3; 0]%Q (1 # 2) ltac:(discriminate))
    as (_ & _ & _ & _ & [[Hinf _] | (k & Hk & _ & _ & Hres)]).
  - vm_compute in Hinf. discriminate Hinf.
  - exists k. split; [exact Hk | exact Hres].
Defined.

Lemma fdr_pvalues_ge_pvalue_witness :
  [2; 3; 0; 3]%Q <> []
  /\ exists fdr,
       Instance.fdr_pvalues [2; 3; 0; 3]%Q = Ok fdr
       /\ length fdr = 4
       /\ forall i, i < 4 ->
            (Instance.sf (nth i [2; 3; 0; 3] 0) <= nth i fdr 0)%Q.
Proof.
  split; [discriminate|].
  apply (fdr_pvalues_ge_pvalue Instance.argsort InstanceFacts.argsort_perm
           InstanceFacts.argsort_sorted Instance.sf InstanceFacts.sf_range
           InstanceFacts.sf_antitone [2; 3; 0; 3]%Q).
  discriminate.
Defined.

Lemma fdr_pvalues_commutes_with_sorting_witness :
  [2; 3; 0; 3]%Q <> []
  /\ exists direct on_sorted,
       Instance.fdr_pvalues [2; 3; 0; 3]%Q = Ok direct
       /\ Instance.fdr_pvalues [3; 3; 2; 0]%Q = Ok on_sorted
       /\ Forall2 Qeq (take_idx on_sorted [2; 0; 3; 1]) direct.
Proof.
  split; [discriminate|].
  apply (fdr_pvalues_commutes_with_sorting Instance.argsort
           InstanceFacts.argsort_perm InstanceFacts.argsort_sorted
           Instance.sf InstanceFacts.sf_range InstanceFacts.sf_compat
           [2; 3; 0; 3]%Q).
  discriminate.
Defined.

(** C1 as the specification words it fails: of the two entries of
    [[3; 2]] that are below their comparison values ([norm.sf] gives
    0.0013 < 0.125 and 0.0228 < 0.375 at level 1/2), the code returns the
    smaller statistic, 2, minus [1.e-8], where the largest-statistic
    reading gives 3 minus [1.e-8]. *)
Lemma fdr_threshold_not_largest_entry :
  Instance.fdr_threshold [3; 2]%Q (1 # 2) = Ok (Fin (2 - eps)%Q)
  /\ fdr_threshold_largest Instance.sf Instance.argsort [3; 2]%Q (1 # 2)
     = Ok (Fin (3 - eps)%Q)
  /\ ~ (2 - eps == 3 - eps)%Q.
Proof.
  split; [reflexivity|]. split; [reflexivity|]. intros H. discriminate H.
Qed.

(** ** [cluster_stats] at concrete images *)

(** C2 as the specification words it fails: with the mode 'bogus' the
    call raises nothing and returns one cluster, the threshold 3 being
    taken on the z scale. *)
Lemma unknown_mode_returns :
  exists clusters info,
    fst (Instance.cluster_stats
           (Instance.image [1; 1; 3] [0; 4; 0]%Q)
           (Instance.image [1; 1; 3] [1; 1; 1]%Q)
           3 "bogus" 0 None Instance.no_dicts) = Ok (clusters, info)
    /\ length clusters = 1
    /\ threshold_z info = Fin 3.
Proof.
  eexists _, _. split; [vm_compute; reflexivity|]. split; reflexivity.
Qed.

Lemma cluster_stats_other_mode_witness :
  "bogus" <> "fpr" /\ "bogus" <> "fdr" /\ "bogus" <> "bonferroni"
  /\ Instance.cluster_stats
       (Instance.image [1; 1; 3] [0; 4; 0]%Q)
       (Instance.image [1; 1; 3] [1; 1; 1]%Q)
       3 "bogus" 0 None Instance.no_dicts
     = Instance.cluster_stats
         (Instance.image [1; 1; 3] [0; 4; 0]%Q)
         (Instance.image [1; 1; 3] [1; 1; 1]%Q)
         3 "none" 0 None Instance.no_dicts.
Proof.
  assert (H1 : "bogus" <> "fpr") by discriminate.
  assert (H2 : "bogus" <> "fdr") by discriminate.
  assert (H3 : "bogus" <> "bonferroni") by discriminate.
  repeat (split; [assumption|]).
  exact (proj2 (cluster_stats_other_mode Instance.sf Instance.isf
                  Instance.argsort Instance.check_same_fov
                  Instance.coord_transform Instance.label
                  Instance.maximum_filter _ _ _ _ _ _ _ H1 H2 H3)).
Defined.

(** C3 as the specification words it fails: the caller passes an empty
    dictionary (at the reference 1); after the call it holds the three
    defaults. *)
Lemma caller_nulls_gets_defaults :
  let s := <[1 := ∅]> Instance.no_dicts in
  let s' :=
    snd (Instance.cluster_stats
           (Instance.image [1; 1; 3] [0; 4; 0]%Q)
           (Instance.image [1; 1; 3] [1; 1; 1]%Q)
           3 "none" 0 (Some 1) s) in
  (s !!! 1) !! "zmax" = None
  /\ (s' !!! 1) !! "zmax" = Some (PStr "bonferroni")
  /\ (s' !!! 1) !! "smax" = Some PNone
  /\ (s' !!! 1) !! "s" = Some PNone.
Proof. vm_compute. repeat split. Qed.

(** C4 is not what the code does: with an array under 'zmax' the first
    cluster that passes the size threshold makes line 150 index the LIST
    [clusters] with the string 'zscore', a [TypeError]. *)
Theorem zmax_array_raises :
  fst (Instance.cluster_stats
         (Instance.image [1; 1; 3] [0; 4; 0]%Q)
         (Instance.image [1; 1; 3] [1; 1; 1]%Q)
         3 "none" 0 (Some 1)
         (<[1 := {["zmax" := PArr [1; 2; 3]%Q]}]> Instance.no_dicts))
  = Raise TypeError.
Proof. vm_compute. reflexivity. Qed.

(** C5 as the specification words it fails: two neighbouring voxels of
    value 4 are both maxima of the one cluster; [np.where] meets the voxel
    (0, 0, 0) first, and the cluster lists (0, 0, 1) first. *)
Lemma tied_maxima_reverse_detection_order :
  exists c info,
    fst (Instance.cluster_stats
           (Instance.image [1; 1; 2] [4; 4]%Q)
           (Instance.image [1; 1; 2] [1; 1]%Q)
           3 "none" 0 None Instance.no_dicts) = Ok ([c], info)
    /\ cl_zscore c = [4; 4]%Q
    /\ cl_maxima c = [(0, 0, 1); (0, 0, 0)]%Q
    /\ take_coord [(0, 0, 0); (0, 0, 1)]%Q
         (sorted_by_detection Instance.argsort [4; 4]%Q)
       = [(0, 0, 0); (0, 0, 1)]%Q
    /\ cl_maxima c
       <> take_coord [(0, 0, 0); (0, 0, 1)]%Q
            (sorted_by_detection Instance.argsort [4; 4]%Q).
Proof.
  eexists _, _. split; [vm_compute; reflexivity|].
  repeat split; try reflexivity.
  intros H. vm_compute in H. discriminate H.
Qed.

Lemma cluster_stats_zscore_above_threshold_witness :
  exists clusters info,
    fst (Instance.cluster_stats
           (Instance.image [1; 1; 6] [4; 4; 0; 5; 0; 3]%Q)
           (Instance.image [1; 1; 6] [1; 1; 1; 1; 1; 1]%Q)
           1 "none" 0 None Instance.no_dicts) = Ok (clusters, info)
    /\ length clusters = 3
    /\ forall c, In c clusters ->
       forall v, In v (cl_zscore c) -> ext_lt (threshold_z info) v.
Proof.
  eexists _, _. split; [vm_compute; reflexivity|]. split; [reflexivity|].
  apply (cluster_stats_zscore_above_threshold Instance.sf Instance.isf
           Instance.argsort Instance.check_same_fov Instance.coord_transform
           Instance.label Instance.maximum_filter
           InstanceFacts.argsort_perm InstanceFacts.label_support
           (Instance.image [1; 1; 6] [4; 4; 0; 5; 0; 3]%Q)
           (Instance.image [1; 1; 6] [1; 1; 1; 1; 1; 1]%Q)
           1 "none" 0 None Instance.no_dicts).
  vm_compute. reflexivity.
Defined.

Lemma cluster_stats_order_witness :
  exists clusters info,
    fst (Instance.cluster_stats
           (Instance.image [1; 1; 6] [4; 4; 0; 5; 0; 3]%Q)
           (Instance.image [1; 1; 6] [1; 1; 1; 1; 1; 1]%Q)
           1 "none" 0 None Instance.no_dicts) = Ok (clusters, info)
    /\ let size := fun k =>
         length (List.filter (Nat.eqb (k + 1)) [1; 1; 0; 2; 0; 3]) in
       exists ks,
         length ks = length clusters
         /\ StronglySorted (fun k k' => size k' <= size k) ks.
Proof.
  eexists _, _. split; [vm_compute; reflexivity|].
  destruct (cluster_stats_order Instance.sf Instance.isf Instance.argsort
              Instance.check_same_fov Instance.coord_transform Instance.label
              Instance.maximum_filter InstanceFacts.argsort_perm
              InstanceFacts.argsort_sorted
              (Instance.image [1; 1; 6] [4; 4; 0; 5; 0; 3]%Q)
              (Instance.image [1; 1; 6] [1; 1; 1; 1; 1; 1]%Q)
              1 "none" 0 None Instance.no_dicts _ _
              ltac:(vm_compute; reflexivity)) as (ks & Hsorted & Hks).
  exists ks. split; [exact (Forall2_length _ _ _ Hks) | exact Hsorted].
Defined.

(** ** Further properties at concrete arrays *)

Lemma fdr_threshold_antitone_alpha_witness :
  [2; 3; 0]%Q <> [] /\ ((1 # 4) <= (1 # 2))%Q
  /\ exists t t',
       Instance.fdr_threshold [2; 3; 0]%Q (1 # 4) = Ok t
       /\ Instance.fdr_threshold [2; 3; 0]%Q (1 # 2) = Ok t'
       /\ ext_le t' t.
Proof.
  assert (Hne : [2; 3; 0]%Q <> []) by discriminate.
  assert (Hle : ((1 # 4) <= (1 # 2))%Q) by (unfold Qle; cbn; lia).
  split; [exact Hne|]. split; [exact Hle|].
  exact (fdr_threshold_antitone_alpha Instance.argsort
           InstanceFacts.argsort_perm InstanceFacts.argsort_sorted
           Instance.sf [2; 3; 0]%Q (1 # 4) (1 # 2) Hne Hle).
Defined.

Lemma fdr_threshold_admits_qualifying_witness :
  exists t z,
    Doubles.fdr_threshold Instance.sf Instance.argsort Qdiv Qminus Qmult
      linspace [2; 3; 0]%Q (1 # 2) = Ok (Fin t)
    /\ In z [2; 3; 0]%Q /\ t = (z - eps)%Q /\ (t <= z)%Q.
Proof.
  eexists.
  destruct (fdr_threshold_admits_qualifying Instance.argsort
              InstanceFacts.argsort_perm InstanceFacts.argsort_sorted
              Instance.sf Qdiv Qminus Qmult linspace linspace_length
              InstanceFacts.fsub_le [2; 3; 0]%Q (1 # 2) _
              ltac:(vm_compute; reflexivity))
    as (z & Hin & Ht & Hle & _).
  exists z. split; [vm_compute; reflexivity|].
  split; [exact Hin|]. split; [exact Ht | exact Hle].
Defined.

Lemma fdr_threshold_permutation_witness :
  [2; 3; 0]%Q <> [] /\ Permutation [2; 3; 0]%Q [0; 2; 3]%Q
  /\ exists t t',
       Instance.fdr_threshold [2; 3; 0]%Q (1 # 2) = Ok t
       /\ Instance.fdr_threshold [0; 2; 3]%Q (1 # 2) = Ok t'
       /\ ext_eq t t'.
Proof.
  assert (Hne : [2; 3; 0]%Q <> []) by discriminate.
  assert (Hp : Permutation [2; 3; 0]%Q [0; 2; 3]%Q)
    by (eapply perm_trans; [apply perm_skip, perm_swap | apply perm_swap]).
  split; [exact Hne|]. split; [exact Hp|].
  exact (fdr_threshold_permutation Instance.argsort
           InstanceFacts.argsort_perm InstanceFacts.argsort_sorted
           Instance.sf InstanceFacts.sf_compat
           [2; 3; 0]%Q [0; 2; 3]%Q (1 # 2) Hne Hp).
Defined.

Lemma fdr_raise_iff_empty_witness :
  Instance.fdr_threshold [] (1 # 2) = Raise ZeroDivisionError
  /\ Instance.fdr_pvalues [] = Raise ZeroDivisionError.
Proof.
  destruct (fdr_raise_iff_empty Instance.argsort InstanceFacts.argsort_perm
              Instance.sf [] (1 # 2) ZeroDivisionError) as [[_ H1] [_ H2]].
  split; [apply H1 | apply H2]; split; reflexivity.
Defined.

Lemma fdr_pvalues_antitone_witness :
  [2; 3; 0; 3]%Q <> []
  /\ exists fdr,
       Instance.fdr_pvalues [2; 3; 0; 3]%Q = Ok fdr
       /\ forall i j, i < 4 -> j < 4 ->
            (nth j [2; 3; 0; 3] 0 <= nth i [2; 3; 0; 3] 0)%Q ->
            (nth i fdr 0 <= nth j fdr 0)%Q.
Proof.
  split; [discriminate|].
  apply (fdr_pvalues_antitone Instance.argsort InstanceFacts.argsort_perm
           InstanceFacts.argsort_sorted Instance.sf InstanceFacts.sf_range
           InstanceFacts.sf_compat [2; 3; 0; 3]%Q).
  discriminate.
Defined.


Lemma fdr_pvalues_smallest_witness :
  2 < length [2; 3; 0; 3]%Q
  /\ exists fdr,
       Instance.fdr_pvalues [2; 3; 0; 3]%Q = Ok fdr
       /\ (nth 2 fdr 0 == Instance.sf 0)%Q.
Proof.
  assert (Hi : 2 < length [2; 3; 0; 3]%Q) by (cbn; lia).
  split; [exact Hi|].
  apply (fdr_pvalues_smallest Instance.argsort InstanceFacts.argsort_perm
           InstanceFacts.argsort_sorted Instance.sf InstanceFacts.sf_range
           InstanceFacts.sf_compat [2; 3; 0; 3]%Q 2 Hi).
  intros j Hj.
  do 4 (destruct j as [|j]; [vm_compute; intros H; discriminate H|]).
  cbn in Hj. lia.
Defined.

Lemma empirical_pvalue_range_witness :
  [3; 1; 2; 2]%Q <> []
  /\ exists q,
       Instance.empirical_pvalue 2 [3; 1; 2; 2]%Q = Fin q /\ (0 <= q <= 1)%Q.
Proof.
  assert (Hne : [3; 1; 2; 2]%Q <> []) by discriminate.
  split; [exact Hne|].
  exact (proj2 (empirical_pvalue_range Instance.argsort
                  InstanceFacts.argsort_perm InstanceFacts.argsort_sorted
                  2 [3; 1; 2; 2]%Q) Hne).
Defined.

Lemma empirical_pvalue_antitone_witness :
  [3; 1; 2; 2]%Q <> [] /\ (1 <= 2)%Q
  /\ exists q q',
       Instance.empirical_pvalue 1 [3; 1; 2; 2]%Q = Fin q
       /\ Instance.empirical_pvalue 2 [3; 1; 2; 2]%Q = Fin q'
       /\ (q' <= q)%Q.
Proof.
  assert (Hne : [3; 1; 2; 2]%Q <> []) by discriminate.
  assert (Hle : (1 <= 2)%Q) by (unfold Qle; cbn; lia).
  split; [exact Hne|]. split; [exact Hle|].
  exact (empirical_pvalue_antitone Instance.argsort
           InstanceFacts.argsort_perm InstanceFacts.argsort_sorted
           1 2 [3; 1; 2; 2]%Q Hne Hle).
Defined.

Lemma empirical_pvalue_permutation_witness :
  Permutation [3; 1; 2]%Q [1; 2; 3]%Q
  /\ Instance.empirical_pvalue 2 [3; 1; 2]%Q
     = Instance.empirical_pvalue 2 [1; 2; 3]%Q.
Proof.
  assert (Hp : Permutation [3; 1; 2]%Q [1; 2; 3]%Q)
    by (eapply perm_trans; [apply perm_swap | apply perm_skip, perm_swap]).
  split; [exact Hp|].
  exact (empirical_pvalue_permutation Instance.argsort
           InstanceFacts.argsort_perm InstanceFacts.argsort_sorted
           2 [3; 1; 2]%Q [1; 2; 3]%Q Hp).
Defined.

Lemma empirical_pvalue_extremes_witness :
  [3; 1; 2; 2]%Q <> []
  /\ exists q,
       Instance.empirical_pvalue 4 [3; 1; 2; 2]%Q = Fin q
       /\ ((q == 0)%Q <-> Forall (fun r => (r < 4)%Q) [3; 1; 2; 2]%Q)
       /\ ((q == 1)%Q <-> Forall (fun r => (4 <= r)%Q) [3; 1; 2; 2]%Q).
Proof.
  assert (Hne : [3; 1; 2; 2]%Q <> []) by discriminate.
  split; [exact Hne|].
  exact (empirical_pvalue_extremes Instance.argsort
           InstanceFacts.argsort_perm InstanceFacts.argsort_sorted
           4 [3; 1; 2; 2]%Q Hne).
Defined.

(** ** Further properties of [cluster_stats] at concrete images *)

Lemma cluster_stats_exceptions_witness :
  let s := <[1 := {["zmax" := PArr [1; 2; 3]%Q]}]> Instance.no_dicts in
  fst (Instance.cluster_stats
         (Instance.image [1; 1; 3] [0; 4; 0]%Q)
         (Instance.image [1; 1; 3] [1; 1; 1]%Q)
         3 "none" 0 (Some 1) s) = Raise TypeError
  /\ exists a, (s !!! default default_nulls (Some 1)) !! "zmax" = Some (PArr a).
Proof.
  intros s. split; [vm_compute; reflexivity|].
  pose proof (cluster_stats_exceptions Instance.sf Instance.isf
                Instance.argsort Instance.check_same_fov
                Instance.coord_transform Instance.label
                Instance.maximum_filter InstanceFacts.argsort_perm
                (Instance.image [1; 1; 3] [0; 4; 0]%Q)
                (Instance.image [1; 1; 3] [1; 1; 1]%Q)
                3 "none" 0 (Some 1) s _ TypeError
                ltac:(vm_compute; reflexivity)) as (_ & _ & _ & H).
  exact (H eq_refl).
Defined.

Lemma cluster_stats_empty_selection_witness :
  Instance.check_same_fov (Instance.image [1; 1; 3] [0; 0; 0]%Q)
    (Instance.image [1; 1; 3] [0; 4; 0]%Q) = true
  /\ Instance.cluster_stats
       (Instance.image [1; 1; 3] [0; 4; 0]%Q)
       (Instance.image [1; 1; 3] [0; 0; 0]%Q)
       (1 # 2) "fdr" 0 None Instance.no_dicts
     = (Raise ZeroDivisionError, Instance.no_dicts).
Proof.
  assert (Hfov : Instance.check_same_fov
                   (Instance.image [1; 1; 3] [0; 0; 0]%Q)
                   (Instance.image [1; 1; 3] [0; 4; 0]%Q) = true)
    by (vm_compute; reflexivity).
  split; [exact Hfov|].
  exact (proj1 (cluster_stats_empty_selection Instance.sf Instance.isf
                  Instance.argsort Instance.check_same_fov
                  Instance.coord_transform Instance.label
                  Instance.maximum_filter InstanceFacts.argsort_perm
                  (Instance.image [1; 1; 3] [0; 4; 0]%Q)
                  (Instance.image [1; 1; 3] [0; 0; 0]%Q)
                  (1 # 2) "fdr" 0 None Instance.no_dicts Hfov eq_refl)).
Defined.

Lemma cluster_stats_reports_components_witness :
  exists clusters info,
    fst (Instance.cluster_stats
           (Instance.image [1; 1; 6] [4; 4; 0; 5; 0; 3]%Q)
           (Instance.image [1; 1; 6] [1; 1; 1; 1; 1; 1]%Q)
           1 "none" 2 None Instance.no_dicts) = Ok (clusters, info)
    /\ length clusters = 1
    /\ Forall (fun c => (2 <= Qnat (cl_size c))%Q) clusters.
Proof.
  eexists _, _. split; [vm_compute; reflexivity|]. split; [reflexivity|].
  destruct (cluster_stats_reports_components Instance.sf Instance.isf
              Instance.argsort Instance.check_same_fov
              Instance.coord_transform Instance.label
              Instance.maximum_filter InstanceFacts.argsort_perm
              (Instance.image [1; 1; 6] [4; 4; 0; 5; 0; 3]%Q)
              (Instance.image [1; 1; 6] [1; 1; 1; 1; 1; 1]%Q)
              1 "none" 2 None Instance.no_dicts _ _
              ltac:(vm_compute; reflexivity)) as [H _].
  exact H.
Defined.

Lemma cluster_stats_fields_witness :
  exists clusters info,
    fst (Instance.cluster_stats
           (Instance.image [1; 1; 6] [4; 4; 0; 5; 0; 3]%Q)
           (Instance.image [1; 1; 6] [1; 1; 1; 1; 1; 1]%Q)
           1 "none" 0 None Instance.no_dicts) = Ok (clusters, info)
    /\ length clusters = 3
    /\ Forall
         (cluster_fields Instance.sf Instance.argsort
            (with_defaults (Instance.no_dicts !!! default_nulls))
            (n_voxels info))
         clusters.
Proof.
  eexists _, _. split; [vm_compute; reflexivity|]. split; [reflexivity|].
  apply (cluster_stats_fields Instance.sf Instance.isf
           Instance.argsort Instance.check_same_fov Instance.coord_transform
           Instance.label Instance.maximum_filter
           (Instance.image [1; 1; 6] [4; 4; 0; 5; 0; 3]%Q)
           (Instance.image [1; 1; 6] [1; 1; 1; 1; 1; 1]%Q)
           1 "none" 0 None Instance.no_dicts).
  vm_compute. reflexivity.
Defined.

Lemma cluster_stats_descending_witness :
  exists clusters info,
    fst (Instance.cluster_stats
           (Instance.image [1; 1; 6] [4; 4; 0; 5; 0; 3]%Q)
           (Instance.image [1; 1; 6] [1; 1; 1; 1; 1; 1]%Q)
           1 "none" 0 None Instance.no_dicts) = Ok (clusters, info)
    /\ length clusters = 3
    /\ StronglySorted (fun c c' => cl_size c' <= cl_size c) clusters
    /\ Forall
         (fun c => StronglySorted (fun x y => (y <= x)%Q) (cl_zscore c))
         clusters.
Proof.
  eexists _, _. split; [vm_compute; reflexivity|]. split; [reflexivity|].
  exact (cluster_stats_descending Instance.sf Instance.isf
           Instance.argsort Instance.check_same_fov Instance.coord_transform
           Instance.label Instance.maximum_filter InstanceFacts.argsort_perm
           InstanceFacts.argsort_sorted
           (Instance.image [1; 1; 6] [4; 4; 0; 5; 0; 3]%Q)
           (Instance.image [1; 1; 6] [1; 1; 1; 1; 1; 1]%Q)
           1 "none" 0 None Instance.no_dicts _ _
           ltac:(vm_compute; reflexivity)).
Defined.

Lemma fdr_threshold_controls_fdr_pvalues_witness :
  exists t fdr,
    Instance.fdr_threshold [2; 3; 0]%Q (1 # 2) = Ok (Fin t)
    /\ Instance.fdr_pvalues [2; 3; 0]%Q = Ok fdr
    /\ forall i, i < 3 -> (t + eps <= nth i [2; 3; 0] 0)%Q ->
         (nth i fdr 0 < 1 # 2)%Q.
Proof.
  eexists.
  destruct (fdr_threshold_controls_fdr_pvalues Instance.argsort
              InstanceFacts.argsort_perm InstanceFacts.argsort_sorted
              Instance.sf InstanceFacts.sf_range InstanceFacts.sf_compat
              [2; 3; 0]%Q (1 # 2) _ ltac:(vm_compute; reflexivity))
    as (fdr & Hfdr & H).
  exists fdr. split; [vm_compute; reflexivity|]. split; [exact Hfdr | exact H].
Defined.


Lemma cluster_stats_zmax_array_outcome_witness :
  let s := <[1 := {["zmax" := PArr [1; 2; 3]%Q]}]> Instance.no_dicts in
  (s !!! default default_nulls (Some 1)) !! "zmax" = Some (PArr [1; 2; 3]%Q)
  /\ match
       fst (Instance.cluster_stats
              (Instance.image [1; 1; 3] [0; 4; 0]%Q)
              (Instance.image [1; 1; 3] [1; 1; 1]%Q)
              3 "none" 2 (Some 1) s)
     with
     | Ok (clusters, _) => clusters = []
     | Raise e => e = ValueError \/ e = ZeroDivisionError \/ e = TypeError
     end.
Proof.
  intros s.
  assert (Hz : (s !!! default default_nulls (Some 1)) !! "zmax"
               = Some (PArr [1; 2; 3]%Q)) by (vm_compute; reflexivity).
  split; [exact Hz|].
  exact (cluster_stats_zmax_array_outcome Instance.sf Instance.isf
           Instance.argsort Instance.check_same_fov Instance.coord_transform
           Instance.label Instance.maximum_filter InstanceFacts.argsort_perm
           (Instance.image [1; 1; 3] [0; 4; 0]%Q)
           (Instance.image [1; 1; 3] [1; 1; 1]%Q)
           3 "none" 2 (Some 1) s [1; 2; 3]%Q Hz).
Defined.

Lemma cluster_stats_fdr_pvalue_of_maxima_witness :
  exists clusters info fdr_all,
    fst (Instance.cluster_stats
           (Instance.image [1; 1; 6] [4; 4; 0; 5; 0; 3]%Q)
           (Instance.image [1; 1; 6] [1; 1; 0; 1; 1; 1]%Q)
           1 "none" 0 None Instance.no_dicts) = Ok (clusters, info)
    /\ length clusters = 3
    /\ Instance.fdr_pvalues [4; 4; 5; 0; 3]%Q = Ok fdr_all
    /\ Forall
         (fun c =>
            exists fdr_all' ps,
              Instance.fdr_pvalues [4; 4; 5; 0; 3]%Q = Ok fdr_all'
              /\ cl_fdr_pvalue c
                 = map (fun p =>
                          nth (count_true (take p [true; true; false; true;
                                                   true; true]))
                            fdr_all' 0%Q) ps)
         clusters.
Proof.
  eexists _, _, _. split; [vm_compute; reflexivity|]. split; [reflexivity|].
  split; [vm_compute; reflexivity|].
  pose proof (cluster_stats_fdr_pvalue_of_maxima Instance.sf Instance.isf
                Instance.argsort Instance.check_same_fov
                Instance.coord_transform Instance.label
                Instance.maximum_filter InstanceFacts.argsort_perm
                InstanceFacts.label_length InstanceFacts.maximum_filter_length
                (Instance.image [1; 1; 6] [4; 4; 0; 5; 0; 3]%Q)
                (Instance.image [1; 1; 6] [1; 1; 0; 1; 1; 1]%Q)
                1 "none" 0 None Instance.no_dicts _ _ eq_refl
                ltac:(vm_compute; reflexivity)) as H.
  cbv zeta in H. eapply Forall_impl; [exact H|]. cbn beta.
  intros c (fa & ps & Hfa & _ & _ & Hf & _). exists fa, ps.
  split; [exact Hfa | exact Hf].
Defined.

Lemma cluster_stats_index_error_witness :
  Instance.cluster_stats
    (Instance.image [1; 1; 3] [0; 0; 4]%Q)
    (Instance.image [1; 1; 3] [0; 1; 1]%Q)
    (-1) "none" 0 None Instance.no_dicts
  = (Raise IndexError, filled_store default_nulls Instance.no_dicts)
  /\ exists z_threshold p,
       nth p (maxima_mask_of Instance.maximum_filter [1; 1; 3]
                (above_values_of [0; 0; 4]%Q
                   (above_th_of [0; 0; 4]%Q z_threshold))
                z_threshold) false = true
       /\ nth p [false; true; true] false = false.
Proof.
  assert (Hrun : Instance.cluster_stats
                   (Instance.image [1; 1; 3] [0; 0; 4]%Q)
                   (Instance.image [1; 1; 3] [0; 1; 1]%Q)
                   (-1) "none" 0 None Instance.no_dicts
                 = (Raise IndexError,
                    filled_store default_nulls Instance.no_dicts))
    by (vm_compute; reflexivity).
  split; [exact Hrun|].
  destruct (cluster_stats_index_error Instance.sf Instance.isf
              Instance.argsort Instance.check_same_fov
              Instance.coord_transform Instance.label
              Instance.maximum_filter InstanceFacts.argsort_perm
              InstanceFacts.label_length InstanceFacts.maximum_filter_length
              (Instance.image [1; 1; 3] [0; 0; 4]%Q)
              (Instance.image [1; 1; 3] [0; 1; 1]%Q)
              (-1) "none" 0 None Instance.no_dicts _ eq_refl Hrun)
    as (z & _ & p & Hp & Hm).
  exists z, p. split; [exact Hp | exact Hm].
Defined.
